(** * terminal-cubes.js: the depth-buffered wireframe renderer

    A shallow embedding of [abstract JS/terminal-cubes.js].  The engine is
    written once, over an interface [Number] of the arithmetic the script
    uses, and read at two carriers:

    - [float], IEEE-754 binary64, which is what a JavaScript engine
      executes (NaN, signed zeros, infinities and rounding included);
    - [R], exact real arithmetic, the reading in which the algebraic
      statements of the design (unit normals, matrix composition, linear
      depth interpolation) are exact.

    [while (true)] becomes a fuel-indexed recursion returning [option]; the
    two frame arrays are threaded explicitly, together with a ghost log of
    the [drawPixel] calls made so far. *)

From Stdlib Require Import ZArith List Bool Lia Ascii String.
From Stdlib Require Import Floats.
From Stdlib Require Import Reals Lra.
Import ListNotations.

(* ================================================================= *)
(** ** The arithmetic of the script, as an interface *)

Declare Scope num_scope.
Delimit Scope num_scope with num.

(** JavaScript has one numeric type.  [num_of_Z] reads an integer literal,
    [lt], [le] and [seq] are [<], [<=] and [===]; [to_int] is the integer a number is, if
    it is one ([None] for a fraction, NaN or an infinity): it decides which
    element a number designates when it is used as a subscript. *)
Class Number (N : Type) : Type := {
  num_of_Z : Z -> N;
  add : N -> N -> N;
  sub : N -> N -> N;
  mul : N -> N -> N;
  div : N -> N -> N;
  opp : N -> N;
  lt : N -> N -> bool;
  le : N -> N -> bool;
  seq : N -> N -> bool;
  Math_sqrt : N -> N;
  Math_abs : N -> N;
  Math_round : N -> N;
  Math_floor : N -> N;
  Math_PI : N;
  to_int : N -> option Z
}.

(** [Math.cos], [Math.sin], [Math.tan].  No carrier-independent definition
    exists for [float] (the language leaves their last bits to the
    implementation), so statements about doubles quantify over them. *)
Class Trig (N : Type) : Type := {
  Math_cos : N -> N;
  Math_sin : N -> N;
  Math_tan : N -> N
}.

(** The value [Infinity], used to reset the depth buffer. *)
Class Extended (N : Type) : Type := {
  Infinity : N
}.

Notation "# z" := (num_of_Z z%Z) (at level 1, format "# z") : num_scope.
Infix "+" := add : num_scope.
Infix "-" := sub : num_scope.
Infix "*" := mul : num_scope.
Infix "/" := div : num_scope.
Notation "- x" := (opp x) : num_scope.
Infix "<?" := lt (at level 70) : num_scope.
Infix "<=?" := le (at level 70) : num_scope.
Notation "a >? b" := (lt b a) (at level 70) : num_scope.
Notation "a >=? b" := (le b a) (at level 70) : num_scope.
Infix "===" := seq (at level 70) : num_scope.

(** A decimal literal [n/d], e.g. [0.01] is [dec 1 100]: the quotient of two
    exactly represented integers, rounded once, is the double the literal
    denotes. *)
Definition dec {N} `{Number N} (n d : Z) : N := (#n / #d)%num.

(* ================================================================= *)
(** ** Carrier 1: IEEE-754 doubles *)

Module Double.

(** The double nearest to an integer. *)
Definition of_Z (n : Z) : float :=
  SF2Prim (binary_normalize prec emax n 0 false).

(** Rounding to an integer, on the specification side.  A finite float is
    [(-1)^s * m * 2^e]; when [e >= 0] it is an integer already.  With
    [half] the result is [floor (x + 1/2)] ([Math.round]: ties go up),
    without it [floor x] ([Math.floor]).  Both are computed exactly in
    [Z]; a zero result keeps the sign of [x], as in the language. *)
Definition SFint (half : bool) (x : spec_float) : spec_float :=
  match x with
  | S754_finite s m e =>
      if (0 <=? e)%Z then x
      else
        let v := cond_Zopp s (Zpos m) in
        let d := (2 ^ (- e))%Z in
        let n := if half then ((2 * v + d) / (2 * d))%Z else (v / d)%Z in
        if (n =? 0)%Z then S754_zero s
        else binary_normalize prec emax n 0 false
  | _ => x
  end.

Definition round (x : float) : float := SF2Prim (SFint true (Prim2SF x)).
Definition floor (x : float) : float := SF2Prim (SFint false (Prim2SF x)).

(** The integer a float is, if it is one. *)
Definition SFto_Z (x : spec_float) : option Z :=
  match x with
  | S754_zero _ => Some 0%Z
  | S754_finite s m e =>
      if (0 <=? e)%Z then Some (cond_Zopp s (Zpos m * 2 ^ e))%Z
      else if (Zpos m mod 2 ^ (- e) =? 0)%Z
           then Some (cond_Zopp s (Zpos m / 2 ^ (- e)))%Z
           else None
  | _ => None
  end.

Definition to_Z (x : float) : option Z := SFto_Z (Prim2SF x).

(** Neither NaN nor an infinity. *)
Definition is_finite (x : float) : bool :=
  match Prim2SF x with
  | S754_zero _ | S754_finite _ _ _ => true
  | _ => false
  end.

(** [Math.PI] *)
Definition PI : float := 0x1.921fb54442d18p+1%float.

End Double.

#[export] Instance float_number : Number float := {
  num_of_Z := Double.of_Z;
  add := PrimFloat.add;
  sub := PrimFloat.sub;
  mul := PrimFloat.mul;
  div := PrimFloat.div;
  opp := PrimFloat.opp;
  lt := PrimFloat.ltb;
  le := PrimFloat.leb;
  seq := PrimFloat.eqb;
  Math_sqrt := PrimFloat.sqrt;
  Math_abs := PrimFloat.abs;
  Math_round := Double.round;
  Math_floor := Double.floor;
  Math_PI := Double.PI;
  to_int := Double.to_Z
}.

#[export] Instance float_extended : Extended float := {
  Infinity := PrimFloat.infinity
}.

(* ================================================================= *)
(** ** Carrier 2: exact reals *)

Module Exact.

Definition ltb (a b : R) : bool := if Rlt_dec a b then true else false.
Definition leb (a b : R) : bool := if Rle_dec a b then true else false.
Definition eqb (a b : R) : bool := if Req_dec_T a b then true else false.

Definition round (x : R) : R := IZR (Zfloor (x + / 2)).
Definition floor (x : R) : R := IZR (Zfloor x).

Definition to_Z (x : R) : option Z :=
  if Req_dec_T x (IZR (Zfloor x)) then Some (Zfloor x) else None.

End Exact.

#[export] Instance real_number : Number R := {
  num_of_Z := IZR;
  add := Rplus;
  sub := Rminus;
  mul := Rmult;
  div := Rdiv;
  opp := Ropp;
  lt := Exact.ltb;
  le := Exact.leb;
  seq := Exact.eqb;
  Math_sqrt := sqrt;
  Math_abs := Rabs;
  Math_round := Exact.round;
  Math_floor := Exact.floor;
  Math_PI := PI;
  to_int := Exact.to_Z
}.

#[export] Instance real_trig : Trig R := {
  Math_cos := cos;
  Math_sin := sin;
  Math_tan := tan
}.

(* ================================================================= *)
(** ** Values of the script *)

Set Implicit Arguments.

(** [{x, y, z}] *)
Record Vec3 (N : Type) : Type := mkVec3 { x : N; y : N; z : N }.

(** A 4x4 matrix is a JavaScript array of 16 numbers. *)
Definition Mat4 (N : Type) : Type := list N.

(** What [color.toRgb()] returns. *)
Record Rgb (N : Type) : Type := mkRgb { r : N; g : N; b : N }.

(** A cell of the frame buffer: the initial [' '], or the escape sequence
  [ESC[38;2;R;G;Bm] followed by the glyph, kept as its four parts.  The
  glyph is [None] when the ramp lookup gave [undefined]. *)
Inductive Cell (N : Type) : Type :=
| Blank : Cell N
| Painted (cr cg cb : N) (char : option ascii) : Cell N.
Arguments Blank {N}.

(** One call [drawPixel(x, y, z, ...)], as logged. *)
Record Fragment (N : Type) : Type := mkFragment { fx : N; fy : N; fz : N }.

(** The two frame arrays, and the ghost log of [drawPixel] calls (most
  recent first). *)
Record Buffers (N : Type) : Type := mkBuffers {
  frameBuffer : list (Cell N);
  zBuffer : list N;
  calls : list (Fragment N)
}.

Record Vertex (N : Type) : Type := mkVertex { pos : Vec3 N; normal : Vec3 N }.

Record Camera (N : Type) : Type :=
  mkCamera { position : Vec3 N; target : Vec3 N; up : Vec3 N }.

Record Cube (N : Type) : Type :=
  mkCube { cube_position : Vec3 N; rotation : Vec3 N; scale : Vec3 N }.

Unset Implicit Arguments.

(* ================================================================= *)
(** ** Arrays and strings subscripted by numbers *)

Section Subscript.
Context {N : Type} {num : Number N}.

(** The position [i] designates in an array of [len] elements, if any. *)
Definition element (i : N) (len : nat) : option nat :=
  match to_int i with
  | Some n =>
      if ((0 <=? n) && (n <? Z.of_nat len))%Z then Some (Z.to_nat n) else None
  | None => None
  end.

(** [a[i]]: [None] is [undefined]. *)
Definition aget {A} (a : list A) (i : N) : option A :=
  match element i (List.length a) with
  | Some k => nth_error a k
  | None => None
  end.

Fixpoint set_nth {A} (k : nat) (v : A) (a : list A) : list A :=
  match a, k with
  | [], _ => []
  | _ :: a', O => v :: a'
  | u :: a', S k' => u :: set_nth k' v a'
  end.

(** [a[i] = v] for [i] an element of [a].  The script assigns only under
    a comparison with [a[i]], which fails when [a[i]] is [undefined], so
    the array never grows; elsewhere the model leaves [a] as it is. *)
Definition aset {A} (a : list A) (i : N) (v : A) : list A :=
  match element i (List.length a) with
  | Some k => set_nth k v a
  | None => a
  end.

(** [s[i]] on a string. *)
Definition sget (s : string) (i : N) : option ascii :=
  match element i (String.length s) with
  | Some k => String.get k s
  | None => None
  end.
End Subscript.

(* ================================================================= *)
(** ** The 3D math library *)

Module vec3.
Section Ops.
Context {N : Type} {num : Number N}.
Local Open Scope num_scope.

Definition create (x0 y0 z0 : N) : Vec3 N := mkVec3 x0 y0 z0.
Definition add (a b : Vec3 N) : Vec3 N :=
  mkVec3 (x a + x b) (y a + y b) (z a + z b).
Definition subtract (a b : Vec3 N) : Vec3 N :=
  mkVec3 (x a - x b) (y a - y b) (z a - z b).
Definition scale (a : Vec3 N) (s : N) : Vec3 N :=
  mkVec3 (x a * s) (y a * s) (z a * s).
Definition dot (a b : Vec3 N) : N := x a * x b + y a * y b + z a * z b.
Definition cross (a b : Vec3 N) : Vec3 N :=
  mkVec3 (y a * z b - z a * y b)
         (z a * x b - x a * z b)
         (x a * y b - y a * x b).
Definition normalize (a : Vec3 N) : Vec3 N :=
  let len := Math_sqrt (x a * x a + y a * y a + z a * z a) in
  if len >? #0 then mkVec3 (x a / len) (y a / len) (z a / len)
  else a.
End Ops.
End vec3.

Module mat4.
Section Ops.
Context {N : Type} {num : Number N}.
Local Open Scope num_scope.

(** [m[k]] for a matrix; every matrix of the script has 16 entries, so
    the default is never read. *)
Definition at_ (m : Mat4 N) (k : nat) : N := nth k m #0.
Local Notation "m @ k" := (at_ m k) (at level 9, k at level 9).

Definition create : Mat4 N :=
  [ #1; #0; #0; #0;
    #0; #1; #0; #0;
    #0; #0; #1; #0;
    #0; #0; #0; #1 ].

Definition multiply (a b : Mat4 N) : Mat4 N :=
  fold_left (fun result i =>
    fold_left (fun result j =>
      set_nth (i * 4 + j)
        (a@(i * 4 + 0) * b@(0 * 4 + j) +
         a@(i * 4 + 1) * b@(1 * 4 + j) +
         a@(i * 4 + 2) * b@(2 * 4 + j) +
         a@(i * 4 + 3) * b@(3 * 4 + j))
        result)
      (List.seq 0 4) result)
    (List.seq 0 4) create.

Definition fromTranslation (v : Vec3 N) : Mat4 N :=
  [ #1; #0; #0; #0;
    #0; #1; #0; #0;
    #0; #0; #1; #0;
    x v; y v; z v; #1 ].

Definition transformPoint (m : Mat4 N) (p : Vec3 N) : Vec3 N :=
  let w := m@3 * x p + m@7 * y p + m@11 * z p + m@15 in
  mkVec3 ((m@0 * x p + m@4 * y p + m@8 * z p + m@12) / w)
         ((m@1 * x p + m@5 * y p + m@9 * z p + m@13) / w)
         ((m@2 * x p + m@6 * y p + m@10 * z p + m@14) / w).

Context {trig : Trig N}.

Definition fromXRotation (angle : N) : Mat4 N :=
  let c := Math_cos angle in
  let s := Math_sin angle in
  [ #1; #0; #0; #0;
    #0; c; - s; #0;
    #0; s; c; #0;
    #0; #0; #0; #1 ].

Definition fromYRotation (angle : N) : Mat4 N :=
  let c := Math_cos angle in
  let s := Math_sin angle in
  [ c; #0; s; #0;
    #0; #1; #0; #0;
    - s; #0; c; #0;
    #0; #0; #0; #1 ].

Definition fromZRotation (angle : N) : Mat4 N :=
  let c := Math_cos angle in
  let s := Math_sin angle in
  [ c; - s; #0; #0;
    s; c; #0; #0;
    #0; #0; #1; #0;
    #0; #0; #0; #1 ].
End Ops.
End mat4.

(* ================================================================= *)
(** ** Argument parsing and configuration *)

Definition default_ramp : string := " .:-=+*#%@".

(** [args.indexOf(flag)]; [None] is [-1]. *)
Fixpoint indexOf (flag : string) (args : list string) : option nat :=
  match args with
  | [] => None
  | a :: args' =>
      if String.eqb a flag then Some O
      else option_map S (indexOf flag args')
  end.

(** A string is truthy when it is not empty; [undefined] is falsy. *)
Definition truthy (s : option string) : bool :=
  match s with
  | Some EmptyString | None => false
  | Some _ => true
  end.

(** [customAsciiRamp] after lines 8-14, which is [ASCII_RAMP]. *)
Definition customAsciiRamp (args : list string) : string :=
  match indexOf "--ascii" args with
  | Some asciiFlagIndex =>
      match nth_error args (asciiFlagIndex + 1) with
      | Some s => if truthy (Some s) then s else default_ramp
      | None => default_ramp
      end
  | None => default_ramp
  end.

(** [process.stdout.columns || 80] and [process.stdout.rows || 24]: the
    terminal reports a size or nothing, and [0] is falsy. *)
Definition or_default (reported : option nat) (default : nat) : nat :=
  match reported with
  | Some (S n) => S n
  | _ => default
  end.

Record Terminal : Type := mkTerminal {
  columns : option nat;
  rows : option nat
}.

Definition WIDTH_of (t : Terminal) : nat := or_default (columns t) 80.
Definition HEIGHT_of (t : Terminal) : nat := or_default (rows t) 24.

(* ================================================================= *)
(** ** The engine *)

Section Engine.
Context {N : Type} {num : Number N}.
Local Open Scope num_scope.
Local Notation "m @ k" := (mat4.at_ m k) (at level 9, k at level 9).

(** The configuration constants of lines 22-26.  [gradient.rgbAt] belongs
    to the [tinygradient] package; [rgbAt i] is [gradient.rgbAt(i).toRgb()]. *)
Variable WIDTH HEIGHT : nat.
Variable ASCII_RAMP : string.
Variable rgbAt : N -> Rgb N.

Definition camera : Camera N :=
  mkCamera (vec3.create #0 #0 (- #5))
           (vec3.create #0 #0 #0)
           (vec3.create #0 #1 #0).

Record Mesh : Type := mkMesh { vertices : list (Vertex N); indices : list nat }.

Definition cubeMesh_vertices : list (Vertex N) :=
  [ (* Front face *)
    mkVertex (vec3.create (- #1) (- #1) #1) (vec3.create #0 #0 #1);
    mkVertex (vec3.create #1 (- #1) #1) (vec3.create #0 #0 #1);
    mkVertex (vec3.create #1 #1 #1) (vec3.create #0 #0 #1);
    mkVertex (vec3.create (- #1) #1 #1) (vec3.create #0 #0 #1);
    (* Back face *)
    mkVertex (vec3.create (- #1) (- #1) (- #1)) (vec3.create #0 #0 (- #1));
    mkVertex (vec3.create (- #1) #1 (- #1)) (vec3.create #0 #0 (- #1));
    mkVertex (vec3.create #1 #1 (- #1)) (vec3.create #0 #0 (- #1));
    mkVertex (vec3.create #1 (- #1) (- #1)) (vec3.create #0 #0 (- #1)) ].

Definition cubeMesh_indices : list nat :=
  [ 0; 1; 2; 0; 2; 3;  (* Front *)
    4; 5; 6; 4; 6; 7;  (* Back *)
    3; 2; 6; 3; 6; 5;  (* Top *)
    0; 1; 7; 0; 7; 4;  (* Bottom *)
    1; 7; 6; 1; 6; 2;  (* Right *)
    0; 4; 5; 0; 5; 3   (* Left *) ]%nat.

Definition cubeMesh : Mesh := mkMesh cubeMesh_vertices cubeMesh_indices.

Definition createViewMatrix (camera : Camera N) : Mat4 N :=
  let zAxis := vec3.normalize (vec3.subtract (position camera) (target camera)) in
  let xAxis := vec3.normalize (vec3.cross (up camera) zAxis) in
  let yAxis := vec3.cross zAxis xAxis in
  [ x xAxis; x yAxis; x zAxis; #0;
    y xAxis; y yAxis; y zAxis; #0;
    z xAxis; z yAxis; z zAxis; #0;
    - vec3.dot xAxis (position camera); - vec3.dot yAxis (position camera);
      - vec3.dot zAxis (position camera); #1 ].

(** The matrix of [createProjectionMatrix] from [t = Math.tan(fov / 2)]. *)
Definition projectionMatrix_of (t aspect near far : N) : Mat4 N :=
  let f := #1 / t in
  let rangeInv := #1 / (near - far) in
  [ f / aspect; #0; #0; #0;
    #0; f; #0; #0;
    #0; #0; (near + far) * rangeInv; - #1;
    #0; #0; near * far * rangeInv * #2; #0 ].

(** [Math.pow(v, 2)]: the square. *)
Definition Math_pow2 (v : N) : N := v * v.

(** The test of line 179, on the rounded coordinates. *)
Definition out_of_bounds (x y : N) : bool :=
  (x <? #0) || (x >=? #(Z.of_nat WIDTH)) ||
  (y <? #0) || (y >=? #(Z.of_nat HEIGHT)).

(** Line 181, on the rounded coordinates. *)
Definition pixel_index (x y : N) : N := y * #(Z.of_nat WIDTH) + x.

(** What a cell of the frame buffer is set to (line 185). *)
Definition paint (char : option ascii) (color : Rgb N) : Cell N :=
  Painted (Math_round (r color)) (Math_round (g color))
          (Math_round (b color)) char.

Definition drawPixel (x y z : N) (char : option ascii) (color : Rgb N)
    (st : Buffers N) : Buffers N :=
  let st := mkBuffers (frameBuffer st) (zBuffer st)
                      (mkFragment x y z :: calls st) in
  let x := Math_round x in
  let y := Math_round y in
  if out_of_bounds x y then st
  else
    let index := pixel_index x y in
    match aget (zBuffer st) index with
    | Some depth =>
        if z <? depth then
          mkBuffers
            (aset (frameBuffer st) index (paint char color))
            (aset (zBuffer st) index z)
            (calls st)
        else st
    | None => st  (* [z < undefined] is false *)
    end.

(** The state of the [while (true)] loop of [drawLine]. *)
Record LineState : Type := mkLineState { x0 : N; y0 : N; err : N }.

(** The constants of one [drawLine] call. *)
Record Line : Type := mkLine {
  p1 : Vec3 N; p2 : Vec3 N;
  x1 : N; y1 : N; dx : N; dy : N; sx : N; sy : N
}.

(** The depth [drawLine] gives the stepped point [(x0, y0)]. *)
Definition line_depth (l : Line) (s : LineState) : N :=
  let t := Math_sqrt (Math_pow2 (x0 s - x (p1 l)) + Math_pow2 (y0 s - y (p1 l)))
         / Math_sqrt (Math_pow2 (x1 l - x (p1 l)) + Math_pow2 (y1 l - y (p1 l))) in
  z (p1 l) + (z (p2 l) - z (p1 l)) * t.

(** [(x0 === x1) && (y0 === y1)] *)
Definition line_done (l : Line) (s : LineState) : bool :=
  (x0 s === x1 l) && (y0 s === y1 l).

(** Lines 207-209: one Bresenham step. *)
Definition line_step (l : Line) (s : LineState) : LineState :=
  let e2 := #2 * err s in
  let s := if e2 >? - dy l
           then mkLineState (x0 s + sx l) (y0 s) (err s - dy l) else s in
  let s := if e2 <? dx l
           then mkLineState (x0 s) (y0 s + sy l) (err s + dx l) else s in
  s.

Fixpoint drawLine_loop (fuel : nat) (l : Line) (s : LineState)
    (char : option ascii) (color : Rgb N) (st : Buffers N)
    : option (Buffers N) :=
  match fuel with
  | O => None
  | S fuel' =>
      let st := drawPixel (x0 s) (y0 s) (line_depth l s) char color st in
      if line_done l s then Some st
      else drawLine_loop fuel' l (line_step l s) char color st
  end.

(** The loop states at which [drawPixel] is called, in order: the walk. *)
Fixpoint line_walk (fuel : nat) (l : Line) (s : LineState)
    : option (list LineState) :=
  match fuel with
  | O => None
  | S fuel' =>
      if line_done l s then Some [s]
      else option_map (cons s) (line_walk fuel' l (line_step l s))
  end.

(** Lines 190-199: the constants and the initial loop state. *)
Definition line_init (p1 p2 : Vec3 N) : Line * LineState :=
  let x0 := Math_round (x p1) in
  let y0 := Math_round (y p1) in
  let x1 := Math_round (x p2) in
  let y1 := Math_round (y p2) in
  let dx := Math_abs (x1 - x0) in
  let dy := Math_abs (y1 - y0) in
  let sx := if x0 <? x1 then #1 else - #1 in
  let sy := if y0 <? y1 then #1 else - #1 in
  let err := dx - dy in
  (mkLine p1 p2 x1 y1 dx dy sx sy, mkLineState x0 y0 err).

(** [drawLine]; [None] when [fuel] iterations did not reach the [break]. *)
Definition drawLine (fuel : nat) (p1 p2 : Vec3 N) (char : option ascii)
    (color : Rgb N) (st : Buffers N) : option (Buffers N) :=
  let '(l, s) := line_init p1 p2 in
  drawLine_loop fuel l s char color st.

(* ----------------------------------------------------------------- *)
(** *** The frame *)

Context {trig : Trig N} {ext : Extended N}.

Definition createProjectionMatrix (fov aspect near far : N) : Mat4 N :=
  projectionMatrix_of (Math_tan (fov / #2)) aspect near far.

(** Lines 253-257: the matrix the vertices of one cube go through. *)
Definition cubeTransform (viewMatrix projectionMatrix : Mat4 N)
    (cube : Cube N) : Mat4 N :=
  let worldMatrix :=
    mat4.multiply (mat4.fromXRotation (x (rotation cube)))
                  (mat4.fromYRotation (y (rotation cube))) in
  mat4.multiply projectionMatrix (mat4.multiply viewMatrix worldMatrix).

(** Lines 259-264: a vertex on the screen. *)
Definition toScreen (transform : Mat4 N) (v : Vertex N) : Vec3 N :=
  let tv := mat4.transformPoint transform (pos v) in
  mkVec3 ((x tv * dec 1 2 + dec 1 2) * #(Z.of_nat WIDTH))
         ((- y tv * dec 1 2 + dec 1 2) * #(Z.of_nat HEIGHT))
         (z tv).

Definition lightDir : Vec3 N := vec3.normalize (vec3.create #1 #1 (- #1)).

(** The face normal of line 271 and the intensity of line 272. *)
Definition faceIntensity (v1 v2 v3 : Vertex N) : N :=
  let normal :=
    vec3.normalize (vec3.cross (vec3.subtract (pos v2) (pos v1))
                               (vec3.subtract (pos v3) (pos v1))) in
  vec3.dot normal lightDir.

(** Line 279: the glyph of an intensity. *)
Definition glyph (intensity : N) : option ascii :=
  sget ASCII_RAMP
    (Math_floor (intensity * (#(Z.of_nat (String.length ASCII_RAMP)) - #1))).

Definition bind {A B} (m : option A) (k : A -> option B) : option B :=
  match m with
  | Some a => k a
  | None => None
  end.
Local Notation "a <- m ;; k" := (bind m (fun a => k))
  (at level 61, m at next level, right associativity).

(** Lines 267-285: the body of the triangle loop at index [i], for a mesh
    (the script has one, [cubeMesh]).  [None] stands for a run that does
    not complete: a [drawLine] that exhausts [fuel], or a [TypeError] on an
    [undefined] vertex (which the indices of [cubeMesh] never produce). *)
Definition renderTriangle (fuel : nat) (mesh : Mesh)
    (transformedVertices : list (Vec3 N))
    (i : nat) (st : Buffers N) : option (Buffers N) :=
  i1 <- nth_error (indices mesh) i ;;
  i2 <- nth_error (indices mesh) (i + 1) ;;
  i3 <- nth_error (indices mesh) (i + 2) ;;
  v1 <- nth_error (vertices mesh) i1 ;;
  v2 <- nth_error (vertices mesh) i2 ;;
  v3 <- nth_error (vertices mesh) i3 ;;
  let intensity := faceIntensity v1 v2 v3 in
  if intensity >? #0 then
    tv1 <- nth_error transformedVertices i1 ;;
    tv2 <- nth_error transformedVertices i2 ;;
    tv3 <- nth_error transformedVertices i3 ;;
    let char := glyph intensity in
    let color := rgbAt intensity in
    st <- drawLine fuel tv1 tv2 char color st ;;
    st <- drawLine fuel tv2 tv3 char color st ;;
    drawLine fuel tv3 tv1 char color st
  else Some st.

(** The values [i] takes in [for (i = 0; i < length; i += 3)]. *)
Definition triangle_starts (length : nat) : list nat :=
  List.map (fun k => 3 * k)%nat (List.seq 0 (Nat.div (length + 2) 3)).

Fixpoint run_triangles (fuel : nat) (mesh : Mesh) (tvs : list (Vec3 N))
    (starts : list nat) (st : Buffers N) : option (Buffers N) :=
  match starts with
  | [] => Some st
  | i :: starts' =>
      st <- renderTriangle fuel mesh tvs i st ;;
      run_triangles fuel mesh tvs starts' st
  end.

(** Lines 250-251: the rotation advances by [0.01] on two axes. *)
Definition spin (cube : Cube N) : Cube N :=
  mkCube (cube_position cube)
         (mkVec3 (x (rotation cube) + dec 1 100)
                 (y (rotation cube) + dec 1 100)
                 (z (rotation cube)))
         (scale cube).

(** Lines 250-286: the body of the loop over the cubes. *)
Definition renderCube (fuel : nat) (viewMatrix projectionMatrix : Mat4 N)
    (cube : Cube N) (st : Buffers N) : option (Cube N * Buffers N) :=
  let cube := spin cube in
  let transform := cubeTransform viewMatrix projectionMatrix cube in
  let transformedVertices :=
    List.map (toScreen transform) (vertices cubeMesh) in
  st <- run_triangles fuel cubeMesh transformedVertices
          (triangle_starts (List.length (indices cubeMesh))) st ;;
  Some (cube, st).

Fixpoint run_cubes (fuel : nat) (viewMatrix projectionMatrix : Mat4 N)
    (cubes : list (Cube N)) (st : Buffers N)
    : option (list (Cube N) * Buffers N) :=
  match cubes with
  | [] => Some ([], st)
  | cube :: cubes' =>
      cs <- renderCube fuel viewMatrix projectionMatrix cube st ;;
      rest <- run_cubes fuel viewMatrix projectionMatrix cubes' (snd cs) ;;
      Some (fst cs :: fst rest, snd rest)
  end.

(** The globals [cubes] and [time]. *)
Record Scene : Type := mkScene { cubes : list (Cube N); time : N }.

(** Lines 240-241. *)
Definition fresh_buffers : Buffers N :=
  mkBuffers (repeat Blank (WIDTH * HEIGHT))
            (repeat Infinity (WIDTH * HEIGHT))
            [].

(** [renderFrame], up to the conversion of the frame buffer to text: the
    scene after the frame, and the buffers it produced. *)
Definition renderFrame (fuel : nat) (scene : Scene)
    : option (Scene * Buffers N) :=
  let st := fresh_buffers in
  let time' := time scene + dec 1 100 in
  let viewMatrix := createViewMatrix camera in
  let projectionMatrix :=
    createProjectionMatrix (Math_PI / #2)
      (#(Z.of_nat WIDTH) / #(Z.of_nat HEIGHT)) (dec 1 10) #100 in
  res <- run_cubes fuel viewMatrix projectionMatrix (cubes scene) st ;;
  Some (mkScene (fst res) time', snd res).

(** Lines 290-298: the rows of the frame buffer, as printed. *)
Fixpoint output_rows (rows : nat) (frameBuffer : list (Cell N))
    : list (list (Cell N)) :=
  match rows with
  | O => []
  | S rows' => firstn WIDTH frameBuffer :: output_rows rows' (skipn WIDTH frameBuffer)
  end.

End Engine.

(* ================================================================= *)
(** ** Vocabulary of the statements *)

Section Vocabulary.
Context {N : Type} {num : Number N}.
Local Open Scope num_scope.
Variable WIDTH HEIGHT : nat.

(** The cell of the [WIDTH * HEIGHT] grid a [drawPixel] call addresses:
    none when the rounded coordinates fail the bounds test, or when the
    index computed from them designates no element. *)
Definition fragment_cell (f : Fragment N) : option nat :=
  let rx := Math_round (fx f) in
  let ry := Math_round (fy f) in
  if out_of_bounds WIDTH HEIGHT rx ry then None
  else element (pixel_index WIDTH rx ry) (WIDTH * HEIGHT).

Definition addresses (k : nat) (f : Fragment N) : bool :=
  match fragment_cell f with
  | Some k' => Nat.eqb k' k
  | None => false
  end.

(** The depths of the logged fragments that addressed cell [k]. *)
Definition depths_at (k : nat) (log : list (Fragment N)) : list N :=
  List.map (@fz N) (List.filter (addresses k) log).

(** [m] is a minimum of [l]: a number ([m === m] excludes NaN) of [l] that
    no element of [l] is below. *)
Definition is_min (m : N) (l : list N) : Prop :=
  (m === m) = true /\ In m l /\ forall d, In d l -> (d <? m) = false.


Context {ext : Extended N}.

(** The depth buffer holds, in every cell, a minimum of [Infinity] and the
    depths of the logged fragments that addressed the cell. *)
Definition zbuffer_correct (st : Buffers N) : Prop :=
  List.length (zBuffer st) = (WIDTH * HEIGHT)%nat /\
  forall k, (k < WIDTH * HEIGHT)%nat ->
    exists m, nth_error (zBuffer st) k = Some m /\
              is_min m (Infinity :: depths_at k (calls st)).

End Vocabulary.

(** The laws of [<] and [===] the depth test relies on. *)
Class OrderLaws (N : Type) {num : Number N} : Prop := {
  lt_trans : forall a b c : N,
    (a <? b)%num = true -> (b <? c)%num = true -> (a <? c)%num = true;
  seq_not_lt : forall a b : N, (a === b)%num = true -> (a <? b)%num = false;
  lt_number : forall a b : N, (a <? b)%num = true -> (a === a)%num = true;
  not_lt_seq : forall a b : N,
    (a === a)%num = true -> (b === b)%num = true ->
    (a <? b)%num = false -> (b <? a)%num = false -> (a === b)%num = true;
  le_not_gt : forall a b : N, (a <=? b)%num = true -> (b <? a)%num = false
}.

(** Integers are computed with exactly, as long as they are [safe]: the
    integer any operand or result stands for is then the one [Z] gives. *)
Class IntegerLaws (N : Type) {num : Number N} (safe : Z -> Prop) : Prop := {
  safe_smaller : forall m n, (Z.abs m <= Z.abs n)%Z -> safe n -> safe m;
  int_lit : forall n, safe n -> to_int (#n)%num = Some n;
  int_add : forall (a b : N) m n,
    to_int a = Some m -> to_int b = Some n -> safe m -> safe n ->
    safe (m + n)%Z -> to_int (a + b)%num = Some (m + n)%Z;
  int_sub : forall (a b : N) m n,
    to_int a = Some m -> to_int b = Some n -> safe m -> safe n ->
    safe (m - n)%Z -> to_int (a - b)%num = Some (m - n)%Z;
  int_mul : forall (a b : N) m n,
    to_int a = Some m -> to_int b = Some n -> safe m -> safe n ->
    safe (m * n)%Z -> to_int (a * b)%num = Some (m * n)%Z;
  int_opp : forall (a : N) m,
    to_int a = Some m -> safe m -> to_int (- a)%num = Some (- m)%Z;
  int_abs : forall (a : N) m,
    to_int a = Some m -> safe m -> to_int (Math_abs a) = Some (Z.abs m);
  int_lt : forall (a b : N) m n,
    to_int a = Some m -> to_int b = Some n -> safe m -> safe n ->
    (a <? b)%num = (m <? n)%Z;
  int_le : forall (a b : N) m n,
    to_int a = Some m -> to_int b = Some n -> safe m -> safe n ->
    (a <=? b)%num = (m <=? n)%Z;
  int_seq : forall (a b : N) m n,
    to_int a = Some m -> to_int b = Some n -> safe m -> safe n ->
    (a === b)%num = (m =? n)%Z
}.

(* ================================================================= *)
(** * Proofs *)

(* ================================================================= *)
(** ** Arrays *)

Section ArrayFacts.
Context {N : Type} {num : Number N}.

Lemma set_nth_length {A} k (v : A) a :
  List.length (set_nth k v a) = List.length a.
Proof.
  revert k. induction a as [|u a IH]; intros [|k]; simpl; auto.
Qed.

Lemma nth_error_set_nth {A} k j (v : A) a :
  nth_error (set_nth k v a) j =
  if Nat.eqb j k then (if Nat.ltb k (List.length a) then Some v else None)
  else nth_error a j.
Proof.
  revert k j. induction a as [|u a IH]; intros k j.
  - destruct k, j; simpl; try reflexivity.
    destruct (Nat.eqb j k); reflexivity.
  - destruct k as [|k], j as [|j]; simpl; try reflexivity.
    rewrite IH. change (Nat.ltb (S k) (S (List.length a)))
      with (Nat.ltb k (List.length a)). reflexivity.
Qed.

Lemma element_bound (i : N) len k : element i len = Some k -> (k < len)%nat.
Proof.
  unfold element. destruct (to_int i) as [n|]; [|discriminate].
  destruct (Z.leb_spec 0 n); [|discriminate].
  destruct (Z.ltb_spec n (Z.of_nat len)); [|discriminate].
  simpl. intros [= <-]. lia.
Qed.

Lemma aset_length {A} (a : list A) (i : N) v :
  List.length (aset a i v) = List.length a.
Proof.
  unfold aset. destruct (element i _); [apply set_nth_length|reflexivity].
Qed.

(** After [a[i] = v] the element [i] designates holds [v], and every other
    element is what it was. *)
Lemma nth_error_aset {A} (a : list A) (i : N) v j :
  nth_error (aset a i v) j =
  match element i (List.length a) with
  | Some k => if Nat.eqb j k then Some v else nth_error a j
  | None => nth_error a j
  end.
Proof.
  unfold aset. destruct (element i _) as [k|] eqn:E; [|reflexivity].
  rewrite nth_error_set_nth. apply element_bound in E.
  destruct (Nat.eqb j k); [|reflexivity].
  destruct (Nat.ltb_spec k (List.length a)); [reflexivity|lia].
Qed.

Lemma aget_Some {A} (a : list A) (i : N) u :
  aget a i = Some u ->
  exists k, element i (List.length a) = Some k /\ nth_error a k = Some u.
Proof.
  unfold aget. destruct (element i _) as [k|]; [eauto|discriminate].
Qed.

Lemma aget_None {A} (a : list A) (i : N) :
  aget a i = None -> element i (List.length a) = None.
Proof.
  unfold aget. destruct (element i _) as [k|] eqn:E; [|reflexivity].
  apply element_bound in E. intros H. apply nth_error_None in H. lia.
Qed.

End ArrayFacts.

(* ================================================================= *)
(** ** Doubles: the order *)

(** [<], [<=] and [===] on doubles, from the specification of the
    comparison: a strict order away from NaN, which compares with nothing. *)
Module DoubleOrder.

Ltac cmp_cases :=
  repeat match goal with
  | |- context [Z.compare ?a ?b] => destruct (Z.compare_spec a b)
  | H : context [Z.compare ?a ?b] |- _ => destruct (Z.compare_spec a b)
  | |- context [Pos.compare_cont Eq ?a ?b] =>
      change (Pos.compare_cont Eq a b) with (Pos.compare a b);
      destruct (Pos.compare_spec a b)
  | H : context [Pos.compare_cont Eq ?a ?b] |- _ =>
      change (Pos.compare_cont Eq a b) with (Pos.compare a b) in H;
      destruct (Pos.compare_spec a b)
  end.

Lemma SFcompare_trans x y z :
  SFcompare x y = Some Lt -> SFcompare y z = Some Lt -> SFcompare x z = Some Lt.
Proof.
  destruct x as [[]|[]| |[] mx ex], y as [[]|[]| |[] my ey], z as [[]|[]| |[] mz ez];
    simpl; try congruence; intros Hxy Hyz;
    cmp_cases; simpl in *; try congruence; subst; try lia.
Qed.

Lemma SFcompare_antisym x y :
  SFcompare x y = Some Gt -> SFcompare y x = Some Lt.
Proof.
  destruct x as [[]|[]| |[] mx ex], y as [[]|[]| |[] my ey];
    simpl; try congruence; intros Hxy;
    cmp_cases; simpl in *; try congruence; subst; try lia.
Qed.

Lemma SFcompare_total x y :
  SFcompare x x <> None -> SFcompare y y <> None -> SFcompare x y <> None.
Proof.
  destruct x as [[]|[]| |[] mx ex], y as [[]|[]| |[] my ey]; simpl; congruence.
Qed.

Lemma ltb_trans (x y z : float) :
  (x <? y)%float = true -> (y <? z)%float = true -> (x <? z)%float = true.
Proof.
  rewrite !ltb_spec. unfold SFltb.
  destruct (SFcompare _ _) as [[]|] eqn:E1; try discriminate.
  destruct (SFcompare (Prim2SF y) _) as [[]|] eqn:E2; try discriminate.
  now rewrite (SFcompare_trans _ _ _ E1 E2).
Qed.

Lemma eqb_not_ltb (x y : float) :
  (x =? y)%float = true -> (x <? y)%float = false.
Proof.
  rewrite eqb_spec, ltb_spec. unfold SFeqb, SFltb.
  now destruct (SFcompare _ _) as [[]|].
Qed.

Lemma ltb_self_eqb (x y : float) :
  (x <? y)%float = true -> (x =? x)%float = true.
Proof.
  rewrite eqb_spec, ltb_spec. unfold SFeqb, SFltb.
  destruct (Prim2SF x) as [[]|[]| |[] mx ex], (Prim2SF y) as [[]|[]| |[] my ey];
    simpl; try congruence; intros _; cmp_cases; try lia; reflexivity.
Qed.

Lemma not_ltb_eqb (x y : float) :
  (x =? x)%float = true -> (y =? y)%float = true ->
  (x <? y)%float = false -> (y <? x)%float = false -> (x =? y)%float = true.
Proof.
  rewrite !eqb_spec, !ltb_spec. unfold SFeqb, SFltb.
  intros Hx Hy.
  assert (Tx : SFcompare (Prim2SF x) (Prim2SF x) <> None)
    by (destruct (SFcompare _ _); congruence).
  assert (Ty : SFcompare (Prim2SF y) (Prim2SF y) <> None)
    by (destruct (SFcompare (Prim2SF y) _); congruence).
  pose proof (SFcompare_total _ _ Tx Ty) as T.
  destruct (SFcompare (Prim2SF x) (Prim2SF y)) as [[]|] eqn:E; try congruence.
  intros _. now rewrite (SFcompare_antisym _ _ E).
Qed.

Lemma leb_not_gtb (x y : float) :
  (x <=? y)%float = true -> (y <? x)%float = false.
Proof.
  rewrite leb_spec, ltb_spec. unfold SFleb, SFltb.
  destruct (Prim2SF x) as [[]|[]| |[] mx ex], (Prim2SF y) as [[]|[]| |[] my ey];
    simpl; try congruence; intros H; cmp_cases; simpl in *; try congruence; subst; try lia.
Qed.

End DoubleOrder.

(* ================================================================= *)
(** ** Doubles: integers are exact below 2^53 *)

(** A double holds every integer of magnitude below [2^53], and [+], [-],
    [*], [Math.abs] and the comparisons of such integers are those of [Z],
    provided the result is below [2^53] too.  The proof goes through the
    specification of rounding: a mantissa that needs no rounding comes out
    as the canonical representative of its value. *)
Module DoubleInt.
Local Open Scope Z_scope.

Definition digits (m : positive) : Z := Zpos (digits2_pos m).

Lemma fexp_eq x : fexp prec emax x = Z.max (x - 53) (-1074).
Proof. reflexivity. Qed.

Lemma digits_pos m : 1 <= digits m.
Proof. unfold digits. lia. Qed.

Lemma digits_bounds m : 2 ^ (digits m - 1) <= Zpos m < 2 ^ digits m.
Proof.
  unfold digits.
  induction m as [p IH|p IH|]; cbn [digits2_pos];
    rewrite ?Pos2Z.inj_succ.
  - replace (Z.succ (Zpos (digits2_pos p)) - 1) with (Z.succ (Zpos (digits2_pos p) - 1)) by lia.
    rewrite !Z.pow_succ_r by lia. lia.
  - replace (Z.succ (Zpos (digits2_pos p)) - 1) with (Z.succ (Zpos (digits2_pos p) - 1)) by lia.
    rewrite !Z.pow_succ_r by lia. lia.
  - simpl. lia.
Qed.

Lemma digits_unique m k : 2 ^ (k - 1) <= Zpos m < 2 ^ k -> digits m = k.
Proof.
  intros [Hlo Hhi]. pose proof (digits_bounds m) as [Dlo Dhi].
  pose proof (digits_pos m).
  destruct (Z.lt_trichotomy (digits m) k) as [L|[E|G]]; [exfalso|exact E|exfalso].
  - assert (2 ^ digits m <= 2 ^ (k - 1)) by (apply Z.pow_le_mono_r; lia). lia.
  - assert (k <= 0 \/ 0 < k) as [K|K] by lia.
    + assert (2 ^ k <= 2 ^ 0) by (apply Z.pow_le_mono_r; lia). simpl in *. lia.
    + assert (2 ^ k <= 2 ^ (digits m - 1)) by (apply Z.pow_le_mono_r; lia). lia.
Qed.

Lemma digits_shift m k : 0 <= k ->
  digits (Z.to_pos (Zpos m * 2 ^ k)) = digits m + k.
Proof.
  intros Hk. pose proof (digits_bounds m) as [Dlo Dhi]. pose proof (digits_pos m).
  assert (0 < 2 ^ k) by (apply Z.pow_pos_nonneg; lia).
  apply digits_unique. rewrite Z2Pos.id by nia.
  replace (digits m + k - 1) with ((digits m - 1) + k) by lia.
  rewrite !Z.pow_add_r by lia. nia.
Qed.

Lemma digits_mono a b : Zpos a <= Zpos b -> digits a <= digits b.
Proof.
  intros Hab. pose proof (digits_bounds a) as [Alo _].
  pose proof (digits_bounds b) as [_ Bhi].
  destruct (Z_lt_le_dec (digits b) (digits a)) as [L|]; [exfalso|assumption].
  assert (2 ^ digits b <= 2 ^ (digits a - 1)) by (apply Z.pow_le_mono_r; lia). lia.
Qed.

Lemma digits_lt_pow n k : Zpos n < 2 ^ k -> digits n <= k.
Proof.
  intros Hn. pose proof (digits_bounds n) as [Lo _].
  destruct (Z_lt_le_dec k (digits n)) as [L|]; [exfalso|assumption].
  assert (2 ^ k <= 2 ^ (digits n - 1)) by (apply Z.pow_le_mono_r; lia). lia.
Qed.

Lemma iter_xO m d : Zpos (Pos.iter xO m d) = Zpos m * 2 ^ Zpos d.
Proof.
  induction d as [|d IH] using Pos.peano_ind.
  - simpl. lia.
  - rewrite Pos.iter_succ, Pos2Z.inj_xO, IH.
    rewrite Pos2Z.inj_succ, Z.pow_succ_r by lia. lia.
Qed.

Lemma shr_1_even m : 0 <= m -> m mod 2 = 0 ->
  shr_1 (Build_shr_record m false false) = Build_shr_record (m / 2) false false.
Proof.
  intros Hm He.
  destruct m as [|[p|p|]|]; try lia.
  - reflexivity.
  - exfalso. rewrite Pos2Z.inj_xI in He.
    rewrite Z.add_comm, Z.mul_comm, Z.mod_add in He by lia. discriminate.
  - cbn [shr_1 orb]. f_equal.
    rewrite Pos2Z.inj_xO, Z.mul_comm, Z.div_mul by lia. reflexivity.
  - discriminate.
Qed.

Lemma pow2_pos k : 0 <= k -> 0 < 2 ^ k.
Proof. intros. apply Z.pow_pos_nonneg; lia. Qed.

Lemma mod_pow2_split m j k : 0 <= j -> 0 <= k -> m mod 2 ^ (j + k) = 0 ->
  m mod 2 ^ j = 0 /\ (m / 2 ^ j) mod 2 ^ k = 0 /\ m / 2 ^ (j + k) = m / 2 ^ j / 2 ^ k.
Proof.
  intros Hj Hk Hm. pose proof (pow2_pos j Hj). pose proof (pow2_pos k Hk).
  rewrite Z.pow_add_r in * by lia.
  apply Z.mod_divide in Hm; [|nia]. destruct Hm as [q Hq]. subst m.
  assert (E1 : q * (2 ^ j * 2 ^ k) / 2 ^ j = q * 2 ^ k).
  { replace (q * (2 ^ j * 2 ^ k)) with (q * 2 ^ k * 2 ^ j) by ring.
    apply Z.div_mul; lia. }
  split; [|split].
  - replace (q * (2 ^ j * 2 ^ k)) with (q * 2 ^ k * 2 ^ j) by ring.
    apply Z.mod_mul; lia.
  - rewrite E1. apply Z.mod_mul; lia.
  - rewrite Z.div_div by lia. reflexivity.
Qed.

Lemma iter_shr_exact p : forall m, 0 <= m -> m mod 2 ^ Zpos p = 0 ->
  SpecFloat.iter_pos shr_1 p (Build_shr_record m false false)
  = Build_shr_record (m / 2 ^ Zpos p) false false.
Proof.
  assert (Hdiv : forall m k, 0 <= m -> 0 <= k -> 0 <= m / 2 ^ k)
    by (intros; apply Z.div_pos; [lia|apply pow2_pos; lia]).
  induction p as [p IH|p IH|]; intros m Hm Hmod; cbn [SpecFloat.iter_pos].
  - rewrite (Pos2Z.inj_xI p) in *.
    replace (2 * Zpos p + 1) with (1 + (Zpos p + Zpos p)) in * by lia.
    destruct (mod_pow2_split m 1 (Zpos p + Zpos p)) as (H1 & H2 & H3); try assumption; try lia.
    destruct (mod_pow2_split (m / 2 ^ 1) (Zpos p) (Zpos p)) as (H4 & H5 & H6); try assumption; try lia.
    change (2 ^ 1) with 2 in *.
    rewrite shr_1_even by assumption.
    pose proof (Hdiv m 1 Hm ltac:(lia)) as P1. change (2 ^ 1) with 2 in P1.
    rewrite (IH _ P1 H4).
    rewrite (IH _ (Hdiv _ (Zpos p) P1 ltac:(lia)) H5).
    now rewrite H3, H6.
  - rewrite (Pos2Z.inj_xO p) in *.
    replace (2 * Zpos p) with (Zpos p + Zpos p) in * by lia.
    destruct (mod_pow2_split m (Zpos p) (Zpos p)) as (H4 & H5 & H6); try assumption; try lia.
    rewrite (IH _ Hm H4).
    rewrite (IH _ (Hdiv _ (Zpos p) Hm ltac:(lia)) H5).
    now rewrite H6.
  - apply shr_1_even; assumption.
Qed.

Lemma shr_exact m e n : 0 <= m -> 0 <= n -> m mod 2 ^ n = 0 ->
  shr (Build_shr_record m false false) e n
  = (Build_shr_record (m / 2 ^ n) false false, e + n).
Proof.
  intros Hm Hn Hmod. destruct n as [|p|p]; try lia; unfold shr.
  - now rewrite Z.div_1_r, Z.add_0_r.
  - now rewrite iter_shr_exact.
Qed.

(** Rounding a mantissa that needs no rounding. *)
Lemma binary_round_aux_exact s (m : positive) e :
  let E := Z.max (digits m + e - 53) (-1074) in
  e <= E -> E <= 971 -> Zpos m mod 2 ^ (E - e) = 0 ->
  binary_round_aux prec emax s (Zpos m) e loc_Exact
  = S754_finite s (Z.to_pos (Zpos m / 2 ^ (E - e))) E.
Proof.
  intros E He Hmax Hmod.
  assert (Hq : exists q, Zpos m = Zpos q * 2 ^ (E - e)).
  { apply Z.mod_divide in Hmod; [|pose proof (pow2_pos (E - e)); lia].
    destruct Hmod as [q Hq]. pose proof (pow2_pos (E - e) ltac:(lia)).
    destruct q as [|q|q]; try nia. now exists q. }
  destruct Hq as [q Hq].
  assert (Hdiv : Zpos m / 2 ^ (E - e) = Zpos q).
  { rewrite Hq. apply Z.div_mul. pose proof (pow2_pos (E - e)); lia. }
  assert (Hdq : digits q + (E - e) = digits m).
  { rewrite <- digits_shift by lia. rewrite <- Hq. reflexivity. }
  unfold binary_round_aux, shr_fexp. rewrite fexp_eq.
  cbn [Zdigits2 shr_record_of_loc]. fold (digits m). fold E.
  rewrite shr_exact by (try assumption; lia).
  rewrite Hdiv. cbn [shr_m loc_of_shr_record round_nearest_even].
  rewrite fexp_eq. cbn [Zdigits2 shr_record_of_loc]. fold (digits q).
  replace (e + (E - e)) with E by lia.
  replace (Z.max (digits q + E - 53) (-1074)) with E by (unfold E; lia).
  rewrite Z.sub_diag. cbn [shr shr_m].
  change (emax - prec) with 971.
  destruct (Z.leb_spec E 971); [|lia]. reflexivity.
Qed.

(** [m * 2 ^ e] is the positive integer [n]. *)
Definition rep (m : positive) (e : Z) (n : positive) : Prop :=
  (0 <= e /\ Zpos n = Zpos m * 2 ^ e) \/ (e < 0 /\ Zpos m = Zpos n * 2 ^ (- e)).

(** The double that is the integer [(-1)^s * n], for [n < 2^53]. *)
Definition canon (s : bool) (n : positive) : spec_float :=
  S754_finite s (Z.to_pos (Zpos n * 2 ^ (53 - digits n))) (digits n - 53).

Lemma rep_digits m e n : rep m e n -> digits m + e = digits n.
Proof.
  intros [[He Hn]|[He Hm]].
  - rewrite <- (digits_shift m) by lia. rewrite <- Hn. reflexivity.
  - assert (digits m = digits n + - e); [|lia].
    rewrite <- (digits_shift n) by lia. rewrite <- Hm. reflexivity.
Qed.

Lemma binary_round_aux_rep s m e n :
  digits n <= 53 -> rep m e n -> e <= digits n - 53 ->
  binary_round_aux prec emax s (Zpos m) e loc_Exact = canon s n.
Proof.
  intros Hd Hrep He. pose proof (rep_digits _ _ _ Hrep) as Hdig.
  pose proof (digits_pos n).
  assert (HE : Z.max (digits m + e - 53) (-1074) = digits n - 53) by lia.
  assert (K : Zpos m = Zpos n * 2 ^ (- e)).
  { destruct Hrep as [[H0 Hn]|[H0 Hm]]; [|assumption].
    assert (e = 0) by lia. subst e. simpl in *. lia. }
  assert (P : 2 ^ (- e) = 2 ^ (53 - digits n) * 2 ^ (digits n - 53 - e)).
  { rewrite <- Z.pow_add_r by lia. f_equal. lia. }
  pose proof (pow2_pos (digits n - 53 - e) ltac:(lia)).
  rewrite binary_round_aux_exact; rewrite HE; try lia.
  - unfold canon. f_equal. f_equal. rewrite K, P.
    rewrite Z.mul_assoc. apply Z.div_mul. lia.
  - rewrite K, P, Z.mul_assoc. apply Z.mod_mul. lia.
Qed.

Lemma binary_round_rep s m e n :
  digits n <= 53 -> rep m e n -> binary_round prec emax s m e = canon s n.
Proof.
  intros Hd Hrep. pose proof (rep_digits _ _ _ Hrep) as Hdig.
  pose proof (digits_pos n).
  unfold binary_round. rewrite fexp_eq. fold (digits m).
  replace (Z.max (digits m + e - 53) (-1074)) with (digits n - 53) by lia.
  unfold shl_align.
  change (IntDef.Z.sub (digits n - 53) e) with (digits n - 53 - e).
  destruct (digits n - 53 - e) as [|d|d] eqn:Ed.
  - apply binary_round_aux_rep; [assumption|assumption|lia].
  - apply binary_round_aux_rep; [assumption|assumption|lia].
  - assert (Hm' : Zpos (Pos.iter xO m d) = Zpos m * 2 ^ (e - (digits n - 53)))
      by (rewrite iter_xO; f_equal; f_equal; lia).
    apply binary_round_aux_rep; [assumption| |lia].
    assert (Hn' : Zpos m * 2 ^ (e - (digits n - 53)) = Zpos n * 2 ^ (- (digits n - 53))).
    { destruct Hrep as [[H0 Hn]|[H0 Hm]].
      - rewrite Hn.
        replace (e - (digits n - 53)) with (e + - (digits n - 53)) by lia.
        rewrite Z.pow_add_r by lia. ring.
      - rewrite Hm.
        assert (P : 2 ^ (- (digits n - 53)) = 2 ^ (- e) * 2 ^ (e - (digits n - 53)))
          by (rewrite <- Z.pow_add_r by lia; f_equal; lia).
        rewrite P. ring. }
    rewrite <- Hm' in Hn'.
    destruct (Z.eq_dec (digits n - 53) 0) as [Z0|NZ].
    + left. split; [lia|]. rewrite Z0 in *. simpl in *. lia.
    + right. split; [lia|]. exact Hn'.
Qed.

(** [x] is the double that is the integer [n]. *)
Definition is_int (x : spec_float) (n : Z) : Prop :=
  (n = 0 /\ exists s, x = S754_zero s) \/
  (exists s p, n = cond_Zopp s (Zpos p) /\ digits p <= 53 /\ x = canon s p).

Lemma canon_mantissa p : digits p <= 53 ->
  Zpos (Z.to_pos (Zpos p * 2 ^ (53 - digits p))) = Zpos p * 2 ^ (53 - digits p).
Proof.
  intros Hd. pose proof (pow2_pos (53 - digits p) ltac:(lia)).
  rewrite Z2Pos.id by nia. reflexivity.
Qed.

Lemma canon_to_Z s p : digits p <= 53 ->
  Double.SFto_Z (canon s p) = Some (cond_Zopp s (Zpos p)).
Proof.
  intros Hd. pose proof (digits_pos p).
  pose proof (pow2_pos (53 - digits p) ltac:(lia)).
  unfold canon, Double.SFto_Z. rewrite canon_mantissa by assumption.
  destruct (Z.leb_spec 0 (digits p - 53)).
  - replace (digits p - 53) with 0 by lia. replace (53 - digits p) with 0 by lia.
    rewrite Z.pow_0_r, !Z.mul_1_r. reflexivity.
  - replace (- (digits p - 53)) with (53 - digits p) by lia.
    rewrite Z.mod_mul, Z.div_mul by lia. reflexivity.
Qed.

Lemma canon_valid s p : digits p <= 53 -> valid_binary (canon s p) = true.
Proof.
  intros Hd. pose proof (digits_pos p).
  unfold canon, valid_binary, SpecFloat.valid_binary, SpecFloat.bounded, SpecFloat.canonical_mantissa.
  rewrite fexp_eq. fold (digits (Z.to_pos (Zpos p * 2 ^ (53 - digits p)))).
  rewrite digits_shift by lia. change (emax - prec) with 971.
  apply andb_true_intro. split; [apply Z.eqb_eq|apply Z.leb_le]; lia.
Qed.

Lemma is_int_to_Z x n : is_int x n -> Double.SFto_Z x = Some n.
Proof.
  intros [[-> [s ->]]|(s & p & -> & Hd & ->)]; [reflexivity|].
  now apply canon_to_Z.
Qed.

Lemma is_int_valid x n : is_int x n -> valid_binary x = true.
Proof.
  intros [[-> [s ->]]|(s & p & -> & Hd & ->)]; [reflexivity|].
  now apply canon_valid.
Qed.

Lemma is_int_bound x n : is_int x n -> Z.abs n < 2 ^ 53.
Proof.
  intros [[-> [s ->]]|(s & p & -> & Hd & ->)]; [reflexivity|].
  pose proof (digits_bounds p) as [_ Hhi].
  assert (2 ^ digits p <= 2 ^ 53) by (apply Z.pow_le_mono_r; lia).
  destruct s; simpl; lia.
Qed.

(** A valid double whose value is an integer below [2^53] is [canon]. *)
Lemma abs_cond_Zopp s n : 0 <= n -> Z.abs (cond_Zopp s n) = n.
Proof. intros. destruct s; unfold cond_Zopp; [rewrite Z.abs_opp|]; now apply Z.abs_eq. Qed.

Lemma to_Z_is_int x n :
  valid_binary x = true -> Double.SFto_Z x = Some n -> Z.abs n < 2 ^ 53 ->
  is_int x n.
Proof.
  destruct x as [s|s| |s m e]; unfold Double.SFto_Z; try discriminate.
  - intros _ [= <-] _. left. split; [reflexivity|now exists s].
  - unfold valid_binary, SpecFloat.valid_binary, SpecFloat.bounded, SpecFloat.canonical_mantissa.
    rewrite fexp_eq. fold (digits m).
    intros Hv. apply andb_prop in Hv. destruct Hv as [Hc Hm].
    apply Z.eqb_eq in Hc. apply Z.leb_le in Hm.
    pose proof (digits_pos m). pose proof (digits_bounds m) as [Mlo Mhi].
    destruct (Z.leb_spec 0 e) as [He|He].
    + intros Hz Hn.
      assert (Hv : n = cond_Zopp s (Zpos m * 2 ^ e)) by congruence.
      clear Hz. subst n. right. exists s, m.
      assert (Hdm : digits m = 53) by lia.
      assert (e = 0).
      { destruct (Z.eq_dec e 0) as [|Ne]; [assumption|exfalso].
        assert (2 ^ 1 <= 2 ^ e) by (apply Z.pow_le_mono_r; lia).
        rewrite Hdm in Mlo. change (2 ^ (53 - 1)) with 4503599627370496 in Mlo.
        change (2 ^ 1) with 2 in *.
        pose proof (pow2_pos e He).
        rewrite abs_cond_Zopp in Hn by (apply Z.mul_nonneg_nonneg; lia).
        assert (Zpos m * 2 <= Zpos m * 2 ^ e)
          by (apply Z.mul_le_mono_nonneg_l; lia).
        change (2 ^ 53) with 9007199254740992 in Hn. lia. }
      subst e. rewrite Z.pow_0_r, Z.mul_1_r. split; [reflexivity|split; [lia|]].
      unfold canon. rewrite Hdm. simpl. now rewrite Pos.mul_1_r.
    + destruct (Z.eqb_spec (Zpos m mod 2 ^ (- e)) 0) as [Hmod|]; [|discriminate].
      intros Hz _.
      assert (Hv : n = cond_Zopp s (Zpos m / 2 ^ (- e))) by congruence.
      clear Hz. subst n. pose proof (pow2_pos (- e) ltac:(lia)).
      apply Z.mod_divide in Hmod; [|lia]. destruct Hmod as [q Hq].
      destruct q as [|q|q]; try nia.
      assert (Hrep : rep m e q) by (right; split; [lia|assumption]).
      pose proof (rep_digits _ _ _ Hrep) as Hdig. pose proof (digits_pos q).
      right. exists s, q. rewrite Hq, Z.div_mul by lia.
      split; [reflexivity|split; [lia|]]. unfold canon.
      replace (digits q - 53) with e by lia.
      replace (53 - digits q) with (- e) by lia.
      rewrite <- Hq. reflexivity.
Qed.

Lemma canon_exponent s p : digits p <= 53 ->
  exists m, canon s p = S754_finite s m (digits p - 53)
            /\ Zpos m = Zpos p * 2 ^ (53 - digits p).
Proof.
  intros Hd. eexists. split; [reflexivity|]. now apply canon_mantissa.
Qed.

Lemma rep_of_scaled M e p : e <= 0 -> Zpos M = Zpos p * 2 ^ (- e) -> rep M e p.
Proof.
  intros He HM. destruct (Z.eq_dec e 0) as [->|Ne].
  - left. simpl in *. lia.
  - right. split; [lia|assumption].
Qed.

Lemma normalize_int S e n : e <= 0 -> S = n * 2 ^ (- e) -> Z.abs n < 2 ^ 53 ->
  is_int (binary_normalize prec emax S e false) n.
Proof.
  intros He HS Hn. pose proof (pow2_pos (- e) ltac:(lia)).
  destruct n as [|p|p].
  - subst S. left. split; [reflexivity|]. now exists false.
  - destruct S as [|M|M]; try nia. right. exists false, p.
    assert (Hd : digits p <= 53) by (apply digits_lt_pow; lia).
    split; [reflexivity|split; [assumption|]].
    apply binary_round_rep; [assumption|]. now apply rep_of_scaled.
  - destruct S as [|M|M]; try nia. right. exists true, p.
    assert (Hd : digits p <= 53) by (apply digits_lt_pow; lia).
    split; [reflexivity|split; [assumption|]].
    apply binary_round_rep; [assumption|]. apply rep_of_scaled; [assumption|].
    lia.
Qed.

Lemma shl_align_fst m e e' : e' <= e ->
  Zpos (fst (shl_align m e e')) = Zpos m * 2 ^ (e - e').
Proof.
  intros He. unfold shl_align.
  change (IntDef.Z.sub e' e) with (e' - e).
  destruct (e' - e) as [|d|d] eqn:Ed; cbn [fst]; try lia.
  - replace (e - e') with 0 by lia. simpl. lia.
  - rewrite iter_xO. f_equal. f_equal. lia.
Qed.

Lemma cond_Zopp_mul s a k : cond_Zopp s (a * k) = cond_Zopp s a * k.
Proof. destruct s; simpl; ring. Qed.

(** The aligned, signed mantissa of an integer double. *)
Lemma aligned_mantissa s p m ez :
  digits p <= 53 -> Zpos m = Zpos p * 2 ^ (53 - digits p) ->
  ez <= digits p - 53 ->
  cond_Zopp s (Zpos (fst (shl_align m (digits p - 53) ez)))
  = cond_Zopp s (Zpos p) * 2 ^ (- ez).
Proof.
  intros Hd Hm He. rewrite shl_align_fst by assumption.
  rewrite Hm, <- Z.mul_assoc, <- Z.pow_add_r by lia.
  rewrite cond_Zopp_mul. f_equal. f_equal. lia.
Qed.

Lemma SFadd_int x y a b :
  is_int x a -> is_int y b -> Z.abs (a + b) < 2 ^ 53 ->
  is_int (SF64add x y) (a + b).
Proof.
  intros [[-> [sx ->]]|(sx & p & -> & Hp & ->)]
         [[-> [sy ->]]|(sy & q & -> & Hq & ->)] Hn.
  - left. split; [reflexivity|]. destruct sx, sy; eexists; reflexivity.
  - rewrite Z.add_0_l. right. exists sy, q. repeat split; assumption.
  - rewrite Z.add_0_r. right. exists sx, p. repeat split; assumption.
  - destruct (canon_exponent sx p Hp) as (mp & -> & Hmp).
    destruct (canon_exponent sy q Hq) as (mq & -> & Hmq).
    unfold SF64add, SFadd.
    set (ez := IntDef.Z.min (digits p - 53) (digits q - 53)).
    assert (Hez : ez = Z.min (digits p - 53) (digits q - 53)) by reflexivity.
    clearbody ez.
    apply normalize_int; [lia| |assumption].
    change IntDef.Z.add with Z.add.
    rewrite !aligned_mantissa by (assumption || lia). ring.
Qed.

Lemma SFsub_int x y a b :
  is_int x a -> is_int y b -> Z.abs (a - b) < 2 ^ 53 ->
  is_int (SF64sub x y) (a - b).
Proof.
  intros [[-> [sx ->]]|(sx & p & -> & Hp & ->)]
         [[-> [sy ->]]|(sy & q & -> & Hq & ->)] Hn.
  - left. split; [reflexivity|]. destruct sx, sy; eexists; reflexivity.
  - right. exists (negb sy), q. split; [destruct sy; reflexivity|].
    split; [assumption|reflexivity].
  - rewrite Z.sub_0_r. right. exists sx, p. repeat split; assumption.
  - destruct (canon_exponent sx p Hp) as (mp & -> & Hmp).
    destruct (canon_exponent sy q Hq) as (mq & -> & Hmq).
    unfold SF64sub, SFsub.
    set (ez := IntDef.Z.min (digits p - 53) (digits q - 53)).
    assert (Hez : ez = Z.min (digits p - 53) (digits q - 53)) by reflexivity.
    clearbody ez.
    apply normalize_int; [lia| |assumption].
    change IntDef.Z.sub with Z.sub.
    rewrite !aligned_mantissa by (assumption || lia). ring.
Qed.

Lemma digits_ge_pow n k : 2 ^ k <= Zpos n -> k + 1 <= digits n.
Proof.
  intros Hn. pose proof (digits_bounds n) as [_ Hi].
  destruct (Z_lt_le_dec (digits n) (k + 1)) as [L|]; [exfalso|assumption].
  assert (2 ^ digits n <= 2 ^ k) by (apply Z.pow_le_mono_r; pose proof (digits_pos n); lia).
  lia.
Qed.

Lemma digits_mul p q : digits p + digits q - 1 <= digits (p * q).
Proof.
  pose proof (digits_bounds p) as [Pl _]. pose proof (digits_bounds q) as [Ql _].
  pose proof (digits_pos p). pose proof (digits_pos q).
  pose proof (pow2_pos (digits p - 1) ltac:(lia)).
  pose proof (pow2_pos (digits q - 1) ltac:(lia)).
  assert (2 ^ (digits p - 1 + (digits q - 1)) <= Zpos (p * q)).
  { rewrite Z.pow_add_r by lia. rewrite Pos2Z.inj_mul. nia. }
  apply digits_ge_pow in H3. lia.
Qed.

Lemma cond_Zopp_xorb sx sy p q :
  cond_Zopp sx (Zpos p) * cond_Zopp sy (Zpos q) = cond_Zopp (xorb sx sy) (Zpos (p * q)).
Proof. destruct sx, sy; simpl; reflexivity. Qed.

Lemma SFmul_int x y a b :
  is_int x a -> is_int y b -> Z.abs (a * b) < 2 ^ 53 ->
  is_int (SF64mul x y) (a * b).
Proof.
  intros [[-> [sx ->]]|(sx & p & -> & Hp & ->)]
         [[-> [sy ->]]|(sy & q & -> & Hq & ->)] Hn.
  - left. split; [reflexivity|]. eexists; reflexivity.
  - left. split; [reflexivity|]. eexists; reflexivity.
  - left. split; [apply Z.mul_0_r|]. eexists; reflexivity.
  - rewrite cond_Zopp_xorb in *. rewrite abs_cond_Zopp in Hn by lia.
    assert (Hpq : digits (p * q) <= 53) by (apply digits_lt_pow; lia).
    pose proof (digits_mul p q). pose proof (digits_pos p). pose proof (digits_pos q).
    destruct (canon_exponent sx p Hp) as (mp & -> & Hmp).
    destruct (canon_exponent sy q Hq) as (mq & -> & Hmq).
    right. exists (xorb sx sy), (p * q)%positive.
    split; [reflexivity|split; [assumption|]].
    unfold SF64mul, SFmul. change IntDef.Z.add with Z.add.
    apply binary_round_aux_rep; [assumption| |lia].
    apply rep_of_scaled; [lia|].
    rewrite !Pos2Z.inj_mul, Hmp, Hmq.
    replace (- (digits p - 53 + (digits q - 53)))
      with ((53 - digits p) + (53 - digits q)) by lia.
    rewrite Z.pow_add_r by lia. ring.
Qed.

Lemma SFopp_int x a : is_int x a -> is_int (SFopp x) (- a).
Proof.
  intros [[-> [sx ->]]|(sx & p & -> & Hp & ->)].
  - left. split; [reflexivity|]. eexists; reflexivity.
  - right. exists (negb sx), p. split; [destruct sx; reflexivity|].
    split; [assumption|reflexivity].
Qed.

Lemma SFabs_int x a : is_int x a -> is_int (SFabs x) (Z.abs a).
Proof.
  intros [[-> [sx ->]]|(sx & p & -> & Hp & ->)].
  - left. split; [reflexivity|]. eexists; reflexivity.
  - right. exists false, p. split; [destruct sx; reflexivity|].
    split; [assumption|reflexivity].
Qed.

Lemma canon_compare p q : digits p <= 53 -> digits q <= 53 ->
  match Z.compare (digits p - 53) (digits q - 53) with
  | Lt => Lt
  | Gt => Gt
  | Eq => Pos.compare_cont Eq (Z.to_pos (Zpos p * 2 ^ (53 - digits p)))
                              (Z.to_pos (Zpos q * 2 ^ (53 - digits q)))
  end = Z.compare (Zpos p) (Zpos q).
Proof.
  intros Hp Hq. symmetry.
  pose proof (digits_bounds p) as [Pl Ph]. pose proof (digits_bounds q) as [Ql Qh].
  destruct (Z.compare_spec (digits p - 53) (digits q - 53)) as [E|L|G].
  - assert (E' : digits p = digits q) by lia.
    assert (C : forall u v, Pos.compare_cont Eq u v = Z.compare (Zpos u) (Zpos v))
      by reflexivity.
    rewrite C, !canon_mantissa by assumption.
    rewrite E'. pose proof (pow2_pos (53 - digits q) ltac:(lia)).
    destruct (Z.compare_spec (Zpos p) (Zpos q)); symmetry;
      [apply Z.compare_eq_iff|apply Z.compare_lt_iff|apply Z.compare_gt_iff]; nia.
  - apply Z.compare_lt_iff.
    assert (2 ^ digits p <= 2 ^ (digits q - 1)) by (apply Z.pow_le_mono_r; pose proof (digits_pos p); lia).
    lia.
  - apply Z.compare_gt_iff.
    assert (2 ^ digits q <= 2 ^ (digits p - 1)) by (apply Z.pow_le_mono_r; pose proof (digits_pos q); lia).
    lia.
Qed.

Lemma SFcompare_int x y a b :
  is_int x a -> is_int y b -> SFcompare x y = Some (Z.compare a b).
Proof.
  intros [[-> [sx ->]]|(sx & p & -> & Hp & ->)]
         [[-> [sy ->]]|(sy & q & -> & Hq & ->)].
  - reflexivity.
  - destruct sy; reflexivity.
  - destruct sx; reflexivity.
  - unfold canon, SFcompare.
    change IntDef.Z.compare with Z.compare.
    destruct sx, sy; try reflexivity.
    + f_equal.
      assert (Hneg : (cond_Zopp true (Zpos p) ?= cond_Zopp true (Zpos q))
                     = (Zpos q ?= Zpos p))
        by (simpl; now rewrite <- Pos.compare_antisym).
      rewrite Hneg.
      rewrite <- (canon_compare q p) by assumption.
      rewrite (Z.compare_antisym (digits p - 53) (digits q - 53)).
      assert (C : forall u v, Pos.compare_cont Eq u v = Pos.compare u v)
        by reflexivity.
      destruct (digits p - 53 ?= digits q - 53); try reflexivity.
      cbn [CompOpp]. rewrite (C (Z.to_pos (Zpos q * 2 ^ (53 - digits q)))).
      symmetry. apply Pos.compare_antisym.
    + f_equal. now apply canon_compare.
Qed.

(* ---- lifting to primitive floats ---- *)

Definition safe (n : Z) : Prop := Z.abs n < 2 ^ 53.

Lemma to_Z_int (x : float) n :
  Double.to_Z x = Some n -> safe n -> is_int (Prim2SF x) n.
Proof. intros. apply to_Z_is_int; auto using Prim2SF_valid. Qed.

Lemma int_to_Z (x : float) n : is_int (Prim2SF x) n -> Double.to_Z x = Some n.
Proof. apply is_int_to_Z. Qed.

Lemma of_Z_exact n : safe n -> Double.to_Z (Double.of_Z n) = Some n.
Proof.
  intros Hn. unfold Double.to_Z, Double.of_Z.
  assert (I : is_int (binary_normalize prec emax n 0 false) n)
    by (apply normalize_int; [lia|simpl; ring|assumption]).
  rewrite Prim2SF_SF2Prim by (eapply is_int_valid; eassumption).
  now apply is_int_to_Z.
Qed.

Lemma add_exact (x y : float) a b :
  Double.to_Z x = Some a -> Double.to_Z y = Some b ->
  safe a -> safe b -> safe (a + b) ->
  Double.to_Z (x + y) = Some (a + b).
Proof.
  intros Hx Hy Sa Sb Sab. unfold Double.to_Z. rewrite add_spec.
  apply is_int_to_Z, SFadd_int; auto using to_Z_int.
Qed.

Lemma sub_exact (x y : float) a b :
  Double.to_Z x = Some a -> Double.to_Z y = Some b ->
  safe a -> safe b -> safe (a - b) ->
  Double.to_Z (x - y) = Some (a - b).
Proof.
  intros Hx Hy Sa Sb Sab. unfold Double.to_Z. rewrite sub_spec.
  apply is_int_to_Z, SFsub_int; auto using to_Z_int.
Qed.

Lemma mul_exact (x y : float) a b :
  Double.to_Z x = Some a -> Double.to_Z y = Some b ->
  safe a -> safe b -> safe (a * b) ->
  Double.to_Z (x * y) = Some (a * b).
Proof.
  intros Hx Hy Sa Sb Sab. unfold Double.to_Z. rewrite mul_spec.
  apply is_int_to_Z, SFmul_int; auto using to_Z_int.
Qed.

Lemma opp_exact (x : float) a :
  Double.to_Z x = Some a -> safe a -> Double.to_Z (- x) = Some (- a).
Proof.
  intros Hx Sa. unfold Double.to_Z. rewrite opp_spec.
  apply is_int_to_Z, SFopp_int; auto using to_Z_int.
Qed.

Lemma abs_exact (x : float) a :
  Double.to_Z x = Some a -> safe a -> Double.to_Z (abs x) = Some (Z.abs a).
Proof.
  intros Hx Sa. unfold Double.to_Z. rewrite abs_spec.
  apply is_int_to_Z, SFabs_int; auto using to_Z_int.
Qed.

Lemma compare_exact (x y : float) a b :
  Double.to_Z x = Some a -> Double.to_Z y = Some b -> safe a -> safe b ->
  SFcompare (Prim2SF x) (Prim2SF y) = Some (a ?= b).
Proof. intros. apply SFcompare_int; auto using to_Z_int. Qed.

Lemma ltb_exact (x y : float) a b :
  Double.to_Z x = Some a -> Double.to_Z y = Some b -> safe a -> safe b ->
  (x <? y)%float = (a <? b).
Proof.
  intros Hx Hy Sa Sb. rewrite ltb_spec. unfold SFltb, Z.ltb.
  now rewrite (compare_exact _ _ _ _ Hx Hy Sa Sb).
Qed.

Lemma leb_exact (x y : float) a b :
  Double.to_Z x = Some a -> Double.to_Z y = Some b -> safe a -> safe b ->
  (x <=? y)%float = (a <=? b).
Proof.
  intros Hx Hy Sa Sb. rewrite leb_spec. unfold SFleb, Z.leb.
  rewrite (compare_exact _ _ _ _ Hx Hy Sa Sb). now destruct (a ?= b).
Qed.

Lemma eqb_exact (x y : float) a b :
  Double.to_Z x = Some a -> Double.to_Z y = Some b -> safe a -> safe b ->
  (x =? y)%float = (a =? b).
Proof.
  intros Hx Hy Sa Sb. rewrite eqb_spec. unfold SFeqb.
  rewrite (compare_exact _ _ _ _ Hx Hy Sa Sb).
  destruct (Z.eqb_spec a b) as [->|Ne].
  - now rewrite Z.compare_refl.
  - destruct (Z.compare_spec a b); [contradiction|reflexivity|reflexivity].
Qed.

Lemma valid_digits s m e : valid_binary (S754_finite s m e) = true -> digits m <= 53.
Proof.
  unfold valid_binary, SpecFloat.valid_binary, SpecFloat.bounded, SpecFloat.canonical_mantissa.
  rewrite fexp_eq. fold (digits m). intros Hv. apply andb_prop in Hv.
  destruct Hv as [Hc _]. apply Z.eqb_eq in Hc. lia.
Qed.

Lemma SFint_is_int half x :
  valid_binary x = true ->
  match x with S754_zero _ | S754_finite _ _ _ => True | _ => False end ->
  valid_binary (Double.SFint half x) = true /\
  exists n, Double.SFto_Z (Double.SFint half x) = Some n.
Proof.
  destruct x as [s|s| |s m e]; try contradiction; intros Hv _.
  - split; [reflexivity|]. now exists 0.
  - unfold Double.SFint. destruct (Z.leb_spec 0 e) as [He|He].
    + split; [assumption|]. unfold Double.SFto_Z.
      destruct (Z.leb_spec 0 e); [|lia]. eauto.
    + set (v := cond_Zopp s (Zpos m)). set (d := 2 ^ (- e)).
      set (n := if half then (2 * v + d) / (2 * d) else v / d).
      destruct (Z.eqb_spec n 0) as [Hz|Hz].
      * split; [reflexivity|]. now exists 0.
      * assert (Sn : safe n).
        { pose proof (valid_digits _ _ _ Hv) as Hd.
          pose proof (digits_bounds m) as [_ Mh].
          assert (2 ^ digits m <= 2 ^ 53) by (apply Z.pow_le_mono_r; pose proof (digits_pos m); lia).
          assert (Hd2 : 2 <= d).
          { unfold d. change 2 with (2 ^ 1) at 1. apply Z.pow_le_mono_r; lia. }
          assert (Hv' : - 2 ^ 53 < v < 2 ^ 53) by (unfold v; destruct s; simpl; lia).
          unfold safe. apply Z.abs_lt. subst n. destruct half.
          - split.
            + apply Z.lt_le_trans with (- 2 ^ 52); [reflexivity|].
              apply Z.div_le_lower_bound; [lia|].
              change (2 ^ 53) with (2 * 2 ^ 52) in Hv'. nia.
            + apply Z.div_lt_upper_bound; [lia|].
              change (2 ^ 53) with (2 * 2 ^ 52) in *. nia.
          - split.
            + apply Z.lt_le_trans with (- 2 ^ 52); [reflexivity|].
              apply Z.div_le_lower_bound; [lia|].
              change (2 ^ 53) with (2 * 2 ^ 52) in Hv'. nia.
            + apply Z.div_lt_upper_bound; [lia|].
              change (2 ^ 53) with (2 * 2 ^ 52) in *. nia. }
        assert (I : is_int (binary_normalize prec emax n 0 false) n)
          by (apply normalize_int; [lia|simpl; ring|assumption]).
        split; [eapply is_int_valid; eassumption|].
        exists n. now apply is_int_to_Z.
Qed.

Lemma round_is_int (x : float) :
  Double.is_finite x = true -> exists n, Double.to_Z (Double.round x) = Some n.
Proof.
  unfold Double.is_finite, Double.to_Z, Double.round. intros Hf.
  destruct (SFint_is_int true (Prim2SF x) (Prim2SF_valid x)) as [Hv Hn].
  { destruct (Prim2SF x); try discriminate; exact I. }
  now rewrite Prim2SF_SF2Prim.
Qed.

Lemma round_not_finite (x : float) :
  Double.is_finite x = false -> Double.to_Z (Double.round x) = None.
Proof.
  unfold Double.is_finite, Double.to_Z, Double.round.
  destruct (Prim2SF x) as [s|s| |s m e] eqn:E; try discriminate; intros _.
  - now rewrite Prim2SF_SF2Prim.
  - now rewrite Prim2SF_SF2Prim.
Qed.

(** An integer double of magnitude [2^53] or more has a positive exponent,
    and compares with a smaller one as in [Z]. *)
Lemma large_exponent s m e a :
  valid_binary (S754_finite s m e) = true ->
  Double.SFto_Z (S754_finite s m e) = Some a -> ~ safe a ->
  1 <= e /\ a = cond_Zopp s (Zpos m * 2 ^ e) /\ 2 ^ 53 <= Zpos m * 2 ^ e.
Proof.
  intros Hv Hz Hs. pose proof (valid_digits _ _ _ Hv) as Hd.
  pose proof (digits_bounds m) as [_ Mh].
  assert (2 ^ digits m <= 2 ^ 53)
    by (apply Z.pow_le_mono_r; pose proof (digits_pos m); lia).
  unfold Double.SFto_Z in Hz. unfold safe in Hs.
  destruct (Z.leb_spec 0 e) as [He|He].
  - assert (Ha : a = cond_Zopp s (Zpos m * 2 ^ e)) by congruence.
    pose proof (pow2_pos e He). subst a.
    rewrite abs_cond_Zopp in Hs by nia.
    destruct (Z.eq_dec e 0) as [->|Ne]; [exfalso; simpl in Hs; lia|].
    repeat split; lia.
  - exfalso. destruct (Z.eqb_spec (Zpos m mod 2 ^ (- e)) 0); [|discriminate].
    assert (Ha : a = cond_Zopp s (Zpos m / 2 ^ (- e))) by congruence.
    pose proof (pow2_pos (- e) ltac:(lia)).
    assert (0 <= Zpos m / 2 ^ (- e) <= Zpos m).
    { split; [apply Z.div_pos; lia|]. apply Z.div_le_upper_bound; nia. }
    subst a. rewrite abs_cond_Zopp in Hs by lia. lia.
Qed.

Lemma SFcompare_large x y a b :
  valid_binary x = true -> Double.SFto_Z x = Some a -> ~ safe a ->
  is_int y b ->
  SFcompare x y = Some (a ?= b) /\ SFcompare y x = Some (b ?= a).
Proof.
  intros Hv Hz Hs Hy.
  destruct x as [s|s| |s m e]; try discriminate.
  { exfalso. apply Hs. injection Hz as <-. reflexivity. }
  destruct (large_exponent _ _ _ _ Hv Hz Hs) as (He & -> & Hbig).
  destruct Hy as [[-> [sy ->]]|(sy & q & -> & Hq & ->)].
  - destruct s; unfold SFcompare, cond_Zopp; split; f_equal; symmetry;
      first [apply Z.compare_lt_iff; lia|apply Z.compare_gt_iff; lia].
  - pose proof (digits_bounds q) as [_ Qh]. pose proof (digits_pos q).
    assert (2 ^ digits q <= 2 ^ 53) by (apply Z.pow_le_mono_r; lia).
    unfold canon, SFcompare. change IntDef.Z.compare with Z.compare.
    assert (Eg : (e ?= digits q - 53) = Gt) by (apply Z.compare_gt_iff; lia).
    assert (El : (digits q - 53 ?= e) = Lt) by (apply Z.compare_lt_iff; lia).
    rewrite Eg, El.
    destruct s, sy; unfold cond_Zopp; split; f_equal; symmetry;
      first [apply Z.compare_lt_iff; lia|apply Z.compare_gt_iff; lia].
Qed.

(** The comparisons are exact as soon as one side is below [2^53]. *)
Lemma compare_exact_one (x y : float) a b :
  Double.to_Z x = Some a -> Double.to_Z y = Some b -> safe a \/ safe b ->
  SFcompare (Prim2SF x) (Prim2SF y) = Some (a ?= b).
Proof.
  intros Hx Hy Hs.
  assert (Dec : forall n, safe n \/ ~ safe n) by (intros; unfold safe; lia).
  destruct (Dec a) as [Sa|Na], (Dec b) as [Sb|Nb]; try tauto.
  - now apply compare_exact.
  - apply (SFcompare_large (Prim2SF y) (Prim2SF x) b a);
      auto using Prim2SF_valid, to_Z_int.
  - apply (SFcompare_large (Prim2SF x) (Prim2SF y) a b);
      auto using Prim2SF_valid, to_Z_int.
Qed.

Lemma ltb_exact_one (x y : float) a b :
  Double.to_Z x = Some a -> Double.to_Z y = Some b -> safe a \/ safe b ->
  (x <? y)%float = (a <? b).
Proof.
  intros Hx Hy Hs. rewrite ltb_spec. unfold SFltb, Z.ltb.
  now rewrite (compare_exact_one _ _ _ _ Hx Hy Hs).
Qed.

Lemma leb_exact_one (x y : float) a b :
  Double.to_Z x = Some a -> Double.to_Z y = Some b -> safe a \/ safe b ->
  (x <=? y)%float = (a <=? b).
Proof.
  intros Hx Hy Hs. rewrite leb_spec. unfold SFleb, Z.leb.
  rewrite (compare_exact_one _ _ _ _ Hx Hy Hs). now destruct (a ?= b).
Qed.

End DoubleInt.

#[export] Instance float_order : OrderLaws float.
Proof.
  constructor.
  - exact DoubleOrder.ltb_trans.
  - exact DoubleOrder.eqb_not_ltb.
  - exact DoubleOrder.ltb_self_eqb.
  - exact DoubleOrder.not_ltb_eqb.
  - exact DoubleOrder.leb_not_gtb.
Qed.

#[export] Instance float_integers : IntegerLaws float DoubleInt.safe.
Proof.
  constructor.
  - unfold DoubleInt.safe. intros. lia.
  - exact DoubleInt.of_Z_exact.
  - exact DoubleInt.add_exact.
  - exact DoubleInt.sub_exact.
  - exact DoubleInt.mul_exact.
  - exact DoubleInt.opp_exact.
  - exact DoubleInt.abs_exact.
  - exact DoubleInt.ltb_exact.
  - exact DoubleInt.leb_exact.
  - exact DoubleInt.eqb_exact.
Qed.

(* ================================================================= *)
(** ** drawPixel *)

Section DrawPixelFacts.
Context {N : Type} {num : Number N}.
Variable WIDTH HEIGHT : nat.
Local Open Scope num_scope.

(** The logged call, before the buffers are touched. *)
Definition logged (x y z : N) (st : Buffers N) : Buffers N :=
  mkBuffers (frameBuffer st) (zBuffer st) (mkFragment x y z :: calls st).

(** [drawPixel] by cases. *)
Lemma drawPixel_cases x y z char color (st : Buffers N) :
  drawPixel WIDTH HEIGHT x y z char color st =
  let rx := Math_round x in
  let ry := Math_round y in
  let index := pixel_index WIDTH rx ry in
  if out_of_bounds WIDTH HEIGHT rx ry then logged x y z st
  else match aget (zBuffer st) index with
       | Some depth =>
           if z <? depth
           then mkBuffers (aset (frameBuffer st) index (paint char color))
                          (aset (zBuffer st) index z)
                          (mkFragment x y z :: calls st)
           else logged x y z st
       | None => logged x y z st
       end.
Proof. reflexivity. Qed.

Lemma drawPixel_calls x y z char color (st : Buffers N) :
  calls (drawPixel WIDTH HEIGHT x y z char color st)
  = mkFragment x y z :: calls st.
Proof.
  rewrite drawPixel_cases. cbv zeta.
  destruct (out_of_bounds _ _ _ _); [reflexivity|].
  destruct (aget _ _); [|reflexivity].
  destruct (_ <? _); reflexivity.
Qed.

Lemma drawPixel_lengths x y z char color (st : Buffers N) :
  let st' := drawPixel WIDTH HEIGHT x y z char color st in
  List.length (frameBuffer st') = List.length (frameBuffer st) /\
  List.length (zBuffer st') = List.length (zBuffer st).
Proof.
  cbv zeta. rewrite drawPixel_cases. cbv zeta.
  destruct (out_of_bounds _ _ _ _); [split; reflexivity|].
  destruct (aget _ _); [|split; reflexivity].
  destruct (_ <? _); [|split; reflexivity].
  simpl. now rewrite !aset_length.
Qed.

(** C10: a call to [drawPixel] changes at most the element that
    [round(y) * WIDTH + round(x)] designates, in the frame buffer and in
    the depth buffer; every other element of both stays as it was; and when
    the coordinates are out of bounds, or the depth test fails (also against
    an [undefined] depth), both buffers are left entirely unchanged. *)
Theorem drawPixel_touches_one_cell x y z char color (st : Buffers N) :
  let st' := drawPixel WIDTH HEIGHT x y z char color st in
  let rx := Math_round x in
  let ry := Math_round y in
  let index := pixel_index WIDTH rx ry in
  (forall k, element index (List.length (frameBuffer st)) <> Some k ->
             nth_error (frameBuffer st') k = nth_error (frameBuffer st) k) /\
  (forall k, element index (List.length (zBuffer st)) <> Some k ->
             nth_error (zBuffer st') k = nth_error (zBuffer st) k) /\
  (out_of_bounds WIDTH HEIGHT rx ry = true ->
     frameBuffer st' = frameBuffer st /\ zBuffer st' = zBuffer st) /\
  (forall depth, aget (zBuffer st) index = Some depth ->
     (z <? depth) = false ->
     frameBuffer st' = frameBuffer st /\ zBuffer st' = zBuffer st) /\
  (aget (zBuffer st) index = None ->
     frameBuffer st' = frameBuffer st /\ zBuffer st' = zBuffer st) /\
  List.length (frameBuffer st') = List.length (frameBuffer st) /\
  List.length (zBuffer st') = List.length (zBuffer st).
Proof.
  cbv zeta. rewrite drawPixel_cases. cbv zeta.
  set (index := pixel_index WIDTH (Math_round x) (Math_round y)).
  destruct (out_of_bounds _ _ _ _) eqn:Hout.
  { repeat split; intros; try discriminate; reflexivity. }
  destruct (aget (zBuffer st) index) as [depth|] eqn:Hget.
  2:{ repeat split; intros; try discriminate; reflexivity. }
  destruct (z <? depth) eqn:Hlt.
  2:{ repeat split; intros; try discriminate; reflexivity. }
  cbn [frameBuffer zBuffer].
  split; [|split; [|split; [|split; [|split; [|split]]]]].
  - intros k Hk. rewrite nth_error_aset.
    destruct (element index _) as [k'|]; [|reflexivity].
    destruct (Nat.eqb_spec k k'); [congruence|reflexivity].
  - intros k Hk. rewrite nth_error_aset.
    destruct (element index _) as [k'|]; [|reflexivity].
    destruct (Nat.eqb_spec k k'); [congruence|reflexivity].
  - discriminate.
  - intros d [= <-]. congruence.
  - discriminate.
  - apply aset_length.
  - apply aset_length.
Qed.

End DrawPixelFacts.

(* ================================================================= *)
(** ** The depth buffer holds the nearest fragment *)

(** [Infinity] is a number. *)
Class InfinityLaws (N : Type) {num : Number N} {ext : Extended N} : Prop := {
  infinity_number : (Infinity === Infinity)%num = true
}.

#[export] Instance float_infinity : InfinityLaws float.
Proof. constructor. reflexivity. Qed.

Lemma bind_Some {A B} (m : option A) (k : A -> option B) b :
  bind m k = Some b -> exists a, m = Some a /\ k a = Some b.
Proof. destruct m as [a|]; simpl; [eauto|discriminate]. Qed.

(** Takes a hypothesis [bind m k = Some b] apart. *)
Ltac unbind H :=
  let a := fresh "a" in
  let Ha := fresh "Ha" in
  apply bind_Some in H; destruct H as (a & Ha & H).

Section ZBuffer.
Context {N : Type} {num : Number N} {ext : Extended N}.
Context {ord : OrderLaws N} {inf : InfinityLaws N}.
Variable WIDTH HEIGHT : nat.
Local Open Scope num_scope.

Local Abbreviation correct := (zbuffer_correct WIDTH HEIGHT).
Local Abbreviation depths := (depths_at WIDTH HEIGHT).

Lemma depths_at_cons k f log :
  depths k (f :: log) =
  if addresses WIDTH HEIGHT k f then fz f :: depths k log else depths k log.
Proof.
  unfold depths_at. simpl. now destruct (addresses _ _ _ _).
Qed.

(** A minimum is determined up to [===]. *)
Lemma is_min_unique (m m' : N) l : is_min m l -> is_min m' l -> (m' === m) = true.
Proof.
  intros (Hm & Hin & Hlow) (Hm' & Hin' & Hlow').
  apply not_lt_seq; auto.
Qed.

Lemma is_min_skip (m z : N) l :
  is_min m (Infinity :: l) -> (z <? m) = false -> is_min m (Infinity :: z :: l).
Proof.
  intros (Hm & Hin & Hlow) Hz. split; [assumption|split].
  - destruct Hin as [<-|Hin]; [now left|right; now right].
  - intros d [<-|[<-|Hd]]; [apply Hlow; now left|assumption|].
    apply Hlow. now right.
Qed.

Lemma is_min_take (m z : N) l :
  is_min m (Infinity :: l) -> (z <? m) = true -> is_min z (Infinity :: z :: l).
Proof.
  intros (Hm & Hin & Hlow) Hz.
  assert (Hzz : (z === z) = true) by (eapply lt_number; eassumption).
  split; [assumption|split].
  - right. now left.
  - intros d Hd.
    assert (Hd' : d = z \/ In d (Infinity :: l))
      by (destruct Hd as [<-|[<-|Hd]]; [right; now left|now left|right; now right]).
    destruct Hd' as [->|Hd']; [now apply seq_not_lt|].
    destruct (d <? z) eqn:E; [|reflexivity].
    rewrite <- (Hlow d Hd'). symmetry. eapply lt_trans; eassumption.
Qed.

Lemma fresh_correct : correct (fresh_buffers WIDTH HEIGHT).
Proof.
  split; [apply repeat_length|].
  intros k Hk. exists Infinity. cbn [fresh_buffers zBuffer calls].
  split.
  - rewrite nth_error_repeat by assumption. reflexivity.
  - split; [apply infinity_number|split; [now left|]].
    intros d [<-|[]]. apply seq_not_lt, infinity_number.
Qed.

Lemma drawPixel_correct x y z char color st :
  correct st -> correct (drawPixel WIDTH HEIGHT x y z char color st).
Proof.
  intros [Hlen Hinv].
  pose proof (drawPixel_lengths WIDTH HEIGHT x y z char color st) as [_ Hl].
  split; [cbv zeta in Hl; congruence|]. clear Hl.
  intros k Hk. destruct (Hinv k Hk) as (m & Hnth & Hmin).
  rewrite drawPixel_calls, depths_at_cons.
  unfold addresses, fragment_cell. cbn [fx fy fz].
  rewrite drawPixel_cases. cbv zeta.
  set (index := pixel_index WIDTH (Math_round x) (Math_round y)).
  destruct (out_of_bounds _ _ _ _) eqn:Hout.
  { exists m. split; assumption. }
  destruct (aget (zBuffer st) index) as [depth|] eqn:Hget.
  2:{ apply aget_None in Hget. rewrite Hlen in Hget. rewrite Hget.
      exists m. split; assumption. }
  apply aget_Some in Hget. destruct Hget as (k0 & Hel & Hk0).
  rewrite Hlen in Hel. rewrite Hel.
  destruct (Nat.eqb_spec k0 k) as [->|Hne].
  - assert (depth = m) by congruence. subst depth.
    destruct (z <? m) eqn:Hlt; cbn [zBuffer logged].
    + exists z. split; [|eapply is_min_take; eassumption].
      rewrite nth_error_aset, Hlen, Hel, Nat.eqb_refl. reflexivity.
    + exists m. split; [assumption|now apply is_min_skip].
  - exists m. split; [|assumption].
    destruct (z <? depth); cbn [zBuffer logged]; [|assumption].
    rewrite nth_error_aset, Hlen, Hel.
    destruct (Nat.eqb_spec k k0); [congruence|assumption].
Qed.

Lemma drawLine_loop_correct fuel : forall l s char color st st',
  correct st ->
  drawLine_loop WIDTH HEIGHT fuel l s char color st = Some st' -> correct st'.
Proof.
  induction fuel as [|fuel IH]; intros l s char color st st' Hst; simpl;
    [discriminate|].
  destruct (line_done l s).
  - intros [= <-]. now apply drawPixel_correct.
  - apply IH. now apply drawPixel_correct.
Qed.

Lemma drawLine_correct fuel p1 p2 char color st st' :
  correct st ->
  drawLine WIDTH HEIGHT fuel p1 p2 char color st = Some st' -> correct st'.
Proof.
  unfold drawLine. destruct (line_init p1 p2) as [l s].
  apply drawLine_loop_correct.
Qed.

Variable ASCII_RAMP : string.
Variable rgbAt : N -> Rgb N.

Lemma renderTriangle_correct fuel mesh tvs i st st' :
  correct st ->
  renderTriangle WIDTH HEIGHT ASCII_RAMP rgbAt fuel mesh tvs i st = Some st' ->
  correct st'.
Proof.
  intros Hst H. unfold renderTriangle in H.
  do 6 unbind H.
  destruct (_ <? _).
  - do 3 unbind H. unbind H. unbind H.
    eauto using drawLine_correct.
  - now injection H as <-.
Qed.

Lemma run_triangles_correct fuel mesh tvs starts : forall st st',
  correct st ->
  run_triangles WIDTH HEIGHT ASCII_RAMP rgbAt fuel mesh tvs starts st = Some st' ->
  correct st'.
Proof.
  induction starts as [|i starts IH]; intros st st' Hst H; simpl in H.
  - now injection H as <-.
  - unbind H. eauto using renderTriangle_correct.
Qed.

Context {trig : Trig N}.

Lemma run_cubes_correct fuel vm pm cubes : forall st res,
  correct st ->
  run_cubes WIDTH HEIGHT ASCII_RAMP rgbAt fuel vm pm cubes st = Some res ->
  correct (snd res).
Proof.
  induction cubes as [|cube cubes IH]; intros st res Hst H; simpl in H.
  - now injection H as <-.
  - unbind H. unbind H. injection H as <-. simpl.
    apply (IH (snd a)); [|assumption].
    unfold renderCube in Ha. unbind Ha. injection Ha as <-. simpl.
    eauto using run_triangles_correct.
Qed.

Lemma renderFrame_correct fuel scene scene' st :
  renderFrame WIDTH HEIGHT ASCII_RAMP rgbAt fuel scene = Some (scene', st) ->
  correct st.
Proof.
  unfold renderFrame. intros H. unbind H. injection H as _ <-.
  eapply run_cubes_correct; [|eassumption]. apply fresh_correct.
Qed.

End ZBuffer.


(* ================================================================= *)
(** ** drawPixel on doubles, cell by cell *)

Section DrawPixelDouble.
Local Open Scope Z_scope.
Import DoubleInt.

(** [Math.round] gives an integer, NaN or an infinity. *)
Lemma round_cases (x : float) :
  (exists n, Double.to_Z (Double.round x) = Some n) \/
  (Double.to_Z (Double.round x) = None /\
   (Prim2SF (Double.round x) = S754_nan \/
    exists s, Prim2SF (Double.round x) = S754_infinity s)).
Proof.
  destruct (Double.is_finite x) eqn:Hf.
  - left. now apply round_is_int.
  - right. split; [now apply round_not_finite|].
    unfold Double.is_finite in Hf. unfold Double.round.
    destruct (Prim2SF x) as [s|s| |s m e] eqn:E; try discriminate;
      cbn [Double.SFint]; rewrite Prim2SF_SF2Prim by reflexivity.
    + right. now exists s.
    + now left.
Qed.

Lemma nan_add_r (a b : float) : Prim2SF b = S754_nan -> Prim2SF (a + b) = S754_nan.
Proof.
  intros Hb. rewrite add_spec, Hb. now destruct (Prim2SF a) as [[]|[]| |[] ? ?].
Qed.

Lemma nan_add_l (a b : float) : Prim2SF a = S754_nan -> Prim2SF (a + b) = S754_nan.
Proof. intros Ha. now rewrite add_spec, Ha. Qed.

Lemma nan_mul_l (a b : float) : Prim2SF a = S754_nan -> Prim2SF (a * b) = S754_nan.
Proof. intros Ha. now rewrite mul_spec, Ha. Qed.

Lemma nan_no_int (a : float) : Prim2SF a = S754_nan -> Double.to_Z a = None.
Proof. unfold Double.to_Z. now intros ->. Qed.

(** An infinity is below [0] or at least any integer. *)
Lemma infinity_outside (a w : float) n s :
  Prim2SF a = S754_infinity s -> Double.to_Z w = Some n -> safe n ->
  ((a <? num_of_Z 0)%float || (w <=? a)%float)%bool = true.
Proof.
  intros Ha Hw Sn. rewrite ltb_spec, leb_spec, Ha. unfold SFltb, SFleb.
  pose proof (to_Z_int _ _ (of_Z_exact 0 ltac:(reflexivity)) ltac:(reflexivity)) as I0.
  pose proof (to_Z_int _ _ Hw Sn) as Iw. cbn [num_of_Z float_number].
  destruct I0 as [[_ [s0 ->]]|(s0 & p0 & H0 & _)];
    [|destruct s0; discriminate].
  destruct Iw as [[_ [sw ->]]|(sw & pw & _ & _ & ->)], s; reflexivity.
Qed.

(** The integer coordinates [(ix, iy)] are on the grid. *)
Definition in_grid (WIDTH HEIGHT : nat) (ix iy : Z) : bool :=
  ((0 <=? ix) && (ix <? Z.of_nat WIDTH) &&
   (0 <=? iy) && (iy <? Z.of_nat HEIGHT))%bool.

(** The position of the cell [(ix, iy)] in the two row-major buffers. *)
Definition cell (WIDTH : nat) (ix iy : Z) : nat :=
  Z.to_nat (iy * Z.of_nat WIDTH + ix).

Lemma out_of_bounds_exact (WIDTH HEIGHT : nat) (rx ry : float) ix iy :
  Z.of_nat WIDTH < 2 ^ 53 -> Z.of_nat HEIGHT < 2 ^ 53 ->
  Double.to_Z rx = Some ix -> Double.to_Z ry = Some iy ->
  out_of_bounds WIDTH HEIGHT rx ry = negb (in_grid WIDTH HEIGHT ix iy).
Proof.
  intros HW HH Hx Hy.
  assert (S0 : safe 0) by reflexivity.
  assert (SW : safe (Z.of_nat WIDTH)) by (unfold safe; lia).
  assert (SH : safe (Z.of_nat HEIGHT)) by (unfold safe; lia).
  unfold out_of_bounds, in_grid. cbn [lt le num_of_Z float_number].
  rewrite (ltb_exact_one rx _ ix 0 Hx (of_Z_exact 0 S0)) by now right.
  rewrite (ltb_exact_one ry _ iy 0 Hy (of_Z_exact 0 S0)) by now right.
  rewrite (leb_exact_one _ rx _ ix (of_Z_exact _ SW) Hx) by now left.
  rewrite (leb_exact_one _ ry _ iy (of_Z_exact _ SH) Hy) by now left.
  destruct (Z.ltb_spec ix 0), (Z.leb_spec 0 ix), (Z.leb_spec (Z.of_nat WIDTH) ix),
    (Z.ltb_spec ix (Z.of_nat WIDTH)), (Z.ltb_spec iy 0), (Z.leb_spec 0 iy),
    (Z.leb_spec (Z.of_nat HEIGHT) iy), (Z.ltb_spec iy (Z.of_nat HEIGHT));
    try reflexivity; lia.
Qed.

Lemma pixel_index_exact (WIDTH HEIGHT : nat) (rx ry : float) ix iy :
  Z.of_nat (WIDTH * HEIGHT) < 2 ^ 53 ->
  Double.to_Z rx = Some ix -> Double.to_Z ry = Some iy ->
  in_grid WIDTH HEIGHT ix iy = true ->
  element (pixel_index WIDTH rx ry) (WIDTH * HEIGHT) = Some (cell WIDTH ix iy) /\
  (cell WIDTH ix iy < WIDTH * HEIGHT)%nat.
Proof.
  intros HWH Hx Hy Hin. unfold in_grid in Hin.
  apply andb_prop in Hin. destruct Hin as [Hin H4].
  apply andb_prop in Hin. destruct Hin as [Hin H3].
  apply andb_prop in Hin. destruct Hin as [H1 H2].
  apply Z.leb_le in H1, H3. apply Z.ltb_lt in H2, H4.
  rewrite Nat2Z.inj_mul in HWH.
  assert (B : 0 <= iy * Z.of_nat WIDTH + ix < Z.of_nat WIDTH * Z.of_nat HEIGHT) by nia.
  assert (B' : 0 <= iy * Z.of_nat WIDTH <= iy * Z.of_nat WIDTH + ix) by nia.
  assert (Bw : Z.of_nat WIDTH <= Z.of_nat WIDTH * Z.of_nat HEIGHT) by nia.
  assert (Sx : safe ix) by (unfold safe; lia).
  assert (Sy : safe iy) by (unfold safe; nia).
  assert (SW : safe (Z.of_nat WIDTH)) by (unfold safe; lia).
  assert (Sm : safe (iy * Z.of_nat WIDTH)) by (unfold safe; lia).
  assert (Ss : safe (iy * Z.of_nat WIDTH + ix)) by (unfold safe; lia).
  assert (Hi : Double.to_Z (pixel_index WIDTH rx ry) = Some (iy * Z.of_nat WIDTH + ix)).
  { unfold pixel_index. cbn [add mul num_of_Z float_number].
    apply add_exact; auto. apply mul_exact; auto. now apply of_Z_exact. }
  unfold element, cell. cbn [to_int float_number]. rewrite Hi.
  rewrite Nat2Z.inj_mul.
  destruct (Z.leb_spec 0 (iy * Z.of_nat WIDTH + ix)); [|lia].
  destruct (Z.ltb_spec (iy * Z.of_nat WIDTH + ix) (Z.of_nat WIDTH * Z.of_nat HEIGHT)); [|lia].
  split; [reflexivity|]. apply Nat2Z.inj_lt. rewrite Z2Nat.id, Nat2Z.inj_mul; lia.
Qed.

(** A coordinate that rounds to no integer addresses no cell: an infinity
    fails the bounds test, and NaN passes it but makes an index that
    designates no element. *)
Lemma no_cell (WIDTH HEIGHT : nat) (rx ry : float) :
  Z.of_nat WIDTH < 2 ^ 53 -> Z.of_nat HEIGHT < 2 ^ 53 ->
  (exists x, rx = Double.round x) -> (exists y, ry = Double.round y) ->
  Double.to_Z rx = None \/ Double.to_Z ry = None ->
  out_of_bounds WIDTH HEIGHT rx ry = false ->
  Double.to_Z (pixel_index WIDTH rx ry) = None.
Proof.
  intros HW HH [x ->] [y ->] Hnone Hout.
  assert (SW : safe (Z.of_nat WIDTH)) by (unfold safe; lia).
  assert (SH : safe (Z.of_nat HEIGHT)) by (unfold safe; lia).
  unfold out_of_bounds in Hout. cbn [lt le num_of_Z float_number] in Hout.
  apply orb_false_elim in Hout. destruct Hout as [Hout Hy2].
  apply orb_false_elim in Hout. destruct Hout as [Hout Hy1].
  assert (Hnan : Prim2SF (Double.round x) = S754_nan \/
                 Prim2SF (Double.round y) = S754_nan).
  { destruct Hnone as [Hn|Hn].
    - destruct (round_cases x) as [[n Hx]|[_ [Hx|[s Hx]]]];
        [congruence|now left|].
      pose proof (infinity_outside _ _ _ _ Hx (of_Z_exact _ SW) SW) as Hc.
      cbn [num_of_Z float_number] in Hc. congruence.
    - destruct (round_cases y) as [[n Hx]|[_ [Hx|[s Hx]]]];
        [congruence|now right|].
      pose proof (infinity_outside _ _ _ _ Hx (of_Z_exact _ SH) SH) as Hc.
      cbn [num_of_Z float_number] in Hc.
      rewrite Hy1, Hy2 in Hc. discriminate. }
  apply nan_no_int. unfold pixel_index. cbn [add mul float_number].
  destruct Hnan as [Hn|Hn].
  - now apply nan_add_r.
  - now apply nan_add_l, nan_mul_l.
Qed.

Lemma no_cell_unchanged (WIDTH HEIGHT : nat) (x y z : float) char color st :
  Z.of_nat WIDTH < 2 ^ 53 -> Z.of_nat HEIGHT < 2 ^ 53 ->
  Double.to_Z (Double.round x) = None \/ Double.to_Z (Double.round y) = None ->
  let st' := drawPixel WIDTH HEIGHT x y z char color st in
  zBuffer st' = zBuffer st /\ frameBuffer st' = frameBuffer st.
Proof.
  intros HW HH Hnone. cbv zeta. rewrite drawPixel_cases. cbv zeta.
  cbn [Math_round float_number].
  destruct (out_of_bounds _ _ _ _) eqn:Hout; [split; reflexivity|].
  unfold aget, element. cbn [to_int float_number].
  rewrite (no_cell WIDTH HEIGHT _ _ HW HH) by eauto.
  split; reflexivity.
Qed.

(** The cell a fragment addresses, read in integers. *)
Lemma fragment_cell_exact (WIDTH HEIGHT : nat) (f : Fragment float) :
  Z.of_nat WIDTH < 2 ^ 53 -> Z.of_nat HEIGHT < 2 ^ 53 ->
  Z.of_nat (WIDTH * HEIGHT) < 2 ^ 53 ->
  fragment_cell WIDTH HEIGHT f =
  match to_int (Math_round (fx f)), to_int (Math_round (fy f)) with
  | Some ix, Some iy =>
      if in_grid WIDTH HEIGHT ix iy then Some (cell WIDTH ix iy) else None
  | _, _ => None
  end.
Proof.
  intros HW HH HWH. unfold fragment_cell. cbv zeta.
  cbn [to_int Math_round float_number].
  assert (Hno : Double.to_Z (Double.round (fx f)) = None \/
                Double.to_Z (Double.round (fy f)) = None ->
                (if out_of_bounds WIDTH HEIGHT (Double.round (fx f)) (Double.round (fy f))
                 then None
                 else element (pixel_index WIDTH (Double.round (fx f)) (Double.round (fy f)))
                        (WIDTH * HEIGHT)) = None).
  { intros Hnone. destruct (out_of_bounds _ _ _ _) eqn:Hout; [reflexivity|].
    unfold element. cbn [to_int float_number].
    now rewrite (no_cell WIDTH HEIGHT _ _ HW HH) by eauto. }
  destruct (Double.to_Z (Double.round (fx f))) as [ix|] eqn:Hx;
    [destruct (Double.to_Z (Double.round (fy f))) as [iy|] eqn:Hy|].
  - rewrite (out_of_bounds_exact WIDTH HEIGHT _ _ ix iy HW HH Hx Hy).
    destruct (in_grid WIDTH HEIGHT ix iy) eqn:Hin; [|reflexivity].
    now destruct (pixel_index_exact WIDTH HEIGHT _ _ ix iy HWH Hx Hy Hin).
  - apply Hno. now right.
  - apply Hno. now left.
Qed.

(** C6: [drawPixel] rounds [x] and [y] to integers; when the rounded
    coordinates are not on the [WIDTH] by [HEIGHT] grid (or are no integers
    at all: NaN, an infinity) the call leaves both buffers as they were;
    otherwise the cell is written if and only if [z] is strictly below the
    depth stored there, in which case the depth cell and the character cell
    are both overwritten; on an exact tie the earlier write stays. *)
Theorem drawPixel_depth_test (WIDTH HEIGHT : nat) (x y z : float)
    (char : option ascii) (color : Rgb float) (st : Buffers float) :
  Z.of_nat WIDTH < 2 ^ 53 -> Z.of_nat HEIGHT < 2 ^ 53 ->
  Z.of_nat (WIDTH * HEIGHT) < 2 ^ 53 ->
  List.length (frameBuffer st) = (WIDTH * HEIGHT)%nat ->
  List.length (zBuffer st) = (WIDTH * HEIGHT)%nat ->
  let st' := drawPixel WIDTH HEIGHT x y z char color st in
  match to_int (Math_round x), to_int (Math_round y) with
  | Some ix, Some iy =>
      if in_grid WIDTH HEIGHT ix iy then
        let k := cell WIDTH ix iy in
        exists depth,
          nth_error (zBuffer st) k = Some depth /\
          ((z <? depth)%num = true ->
             zBuffer st' = set_nth k z (zBuffer st) /\
             frameBuffer st' = set_nth k (paint char color) (frameBuffer st)) /\
          ((z <? depth)%num = false ->
             zBuffer st' = zBuffer st /\ frameBuffer st' = frameBuffer st) /\
          ((z === depth)%num = true -> (z <? depth)%num = false)
      else zBuffer st' = zBuffer st /\ frameBuffer st' = frameBuffer st
  | _, _ => zBuffer st' = zBuffer st /\ frameBuffer st' = frameBuffer st
  end.
Proof.
  intros HW HH HWH Hfb Hzb. cbv zeta. cbn [to_int Math_round float_number].
  destruct (Double.to_Z (Double.round x)) as [ix|] eqn:Hx.
  2:{ apply no_cell_unchanged; auto. }
  destruct (Double.to_Z (Double.round y)) as [iy|] eqn:Hy.
  2:{ apply no_cell_unchanged; auto. }
  rewrite drawPixel_cases. cbv zeta. cbn [Math_round float_number].
  rewrite (out_of_bounds_exact WIDTH HEIGHT _ _ ix iy HW HH Hx Hy).
  destruct (in_grid WIDTH HEIGHT ix iy) eqn:Hin; [|split; reflexivity].
  destruct (pixel_index_exact WIDTH HEIGHT _ _ ix iy HWH Hx Hy Hin) as [Hel Hk].
  cbn [negb]. unfold aget, aset. rewrite Hfb, Hzb, Hel.
  destruct (nth_error (zBuffer st) (cell WIDTH ix iy)) as [depth|] eqn:Hd.
  2:{ apply nth_error_None in Hd. lia. }
  exists depth. split; [reflexivity|]. split; [|split].
  - intros Hlt. rewrite Hlt. split; reflexivity.
  - intros Hlt. rewrite Hlt. split; reflexivity.
  - apply seq_not_lt.
Qed.

End DrawPixelDouble.

(* ================================================================= *)
(** ** Culling *)

Section Culling.
Context {N : Type} {num : Number N} {ord : OrderLaws N}.
Variable WIDTH HEIGHT : nat.
Variable ASCII_RAMP : string.
Variable rgbAt : N -> Rgb N.
Local Open Scope num_scope.

(** Every [drawLine] that returns has called [drawPixel]: the log grew. *)
Lemma drawLine_loop_logs fuel : forall l s char color (st st' : Buffers N),
  drawLine_loop WIDTH HEIGHT fuel l s char color st = Some st' ->
  (List.length (calls st) < List.length (calls st'))%nat.
Proof.
  induction fuel as [|fuel IH]; intros l s char color st st'; simpl;
    [discriminate|].
  destruct (line_done l s).
  - intros [= <-]. rewrite drawPixel_calls. simpl. lia.
  - intros H. apply IH in H. rewrite drawPixel_calls in H. simpl in H. lia.
Qed.

Lemma drawLine_logs fuel p1 p2 char color (st st' : Buffers N) :
  drawLine WIDTH HEIGHT fuel p1 p2 char color st = Some st' ->
  (List.length (calls st) < List.length (calls st'))%nat.
Proof.
  unfold drawLine. destruct (line_init p1 p2). apply drawLine_loop_logs.
Qed.

Lemma culled_triangle fuel mesh tvs i st i1 i2 i3 v1 v2 v3 :
  nth_error (indices mesh) i = Some i1 ->
  nth_error (indices mesh) (i + 1) = Some i2 ->
  nth_error (indices mesh) (i + 2) = Some i3 ->
  nth_error (vertices mesh) i1 = Some v1 ->
  nth_error (vertices mesh) i2 = Some v2 ->
  nth_error (vertices mesh) i3 = Some v3 ->
  (faceIntensity v1 v2 v3 <=? #0) = true ->
  renderTriangle WIDTH HEIGHT ASCII_RAMP rgbAt fuel mesh tvs i st = Some st.
Proof.
  intros H1 H2 H3 V1 V2 V3 Hle. unfold renderTriangle.
  rewrite H1, H2, H3. cbn [bind]. rewrite V1, V2, V3. cbn [bind].
  now rewrite (le_not_gt _ _ Hle).
Qed.

End Culling.

(** C5: a triangle whose object-space face normal,
    [normalize(cross(v2 - v1, v3 - v1))], has a dot product [<= 0] with the
    normalized light direction [(1, 1, -1)] is discarded: the loop body
    returns the buffers it was given, and the log of [drawPixel] calls with
    them, so no pixel was rasterized and (a [drawLine] that returns always
    logs a call) no line was drawn. *)
Theorem culled_triangle_draws_nothing (WIDTH HEIGHT : nat)
    (ASCII_RAMP : string) (rgbAt : float -> Rgb float) (fuel : nat)
    (mesh : Mesh) (tvs : list (Vec3 float)) (i : nat) (st : Buffers float)
    (i1 i2 i3 : nat) (v1 v2 v3 : Vertex float) :
  nth_error (indices mesh) i = Some i1 ->
  nth_error (indices mesh) (i + 1) = Some i2 ->
  nth_error (indices mesh) (i + 2) = Some i3 ->
  nth_error (vertices mesh) i1 = Some v1 ->
  nth_error (vertices mesh) i2 = Some v2 ->
  nth_error (vertices mesh) i3 = Some v3 ->
  (faceIntensity v1 v2 v3 <=? #0)%num = true ->
  renderTriangle WIDTH HEIGHT ASCII_RAMP rgbAt fuel mesh tvs i st = Some st /\
  forall fuel' p q char color st',
    drawLine WIDTH HEIGHT fuel' p q char color st = Some st' ->
    calls st' <> calls st.
Proof.
  intros H1 H2 H3 V1 V2 V3 Hle. split.
  - eapply culled_triangle; eassumption.
  - intros fuel' p q char color st' Hline Heq.
    apply drawLine_logs in Hline. rewrite Heq in Hline. lia.
Qed.

(* ================================================================= *)
(** ** Sample data *)

(** Stand-ins for [Math.cos], [Math.sin] and [Math.tan] on doubles (the
    first terms of their series), to run the frame on an example. *)
Definition series_trig : Trig float := {|
  Math_cos := fun a => (1 - a * a / 2 + a * a * a * a / 24)%float;
  Math_sin := fun a => (a - a * a * a / 6 + a * a * a * a * a / 120)%float;
  Math_tan := fun a => ((a - a * a * a / 6 + a * a * a * a * a / 120)
                        / (1 - a * a / 2 + a * a * a * a / 24))%float
|}.

Definition sample_rgbAt (i : float) : Rgb float :=
  mkRgb (255 * i)%float 0%float (255 * (1 - i))%float.

Definition sample_scene : Scene :=
  mkScene [mkCube (mkVec3 3 (-2) 1) (mkVec3 0.5 0.25 0) (mkVec3 1 1 1)]%float
          0%float.

(** One frame of the sample scene on a 24 by 12 grid. *)
Definition sample_frame : option (Scene * Buffers float) :=
  @renderFrame float _ 24 12 default_ramp sample_rgbAt series_trig _ 100
               sample_scene.

Definition sample_buffers : Buffers float :=
  match sample_frame with
  | Some res => snd res
  | None => fresh_buffers 24 12
  end.

Definition sample_scene' : Scene :=
  match sample_frame with
  | Some res => fst res
  | None => sample_scene
  end.

Lemma drawPixel_depth_test_witness :
  exists depth,
    nth_error (zBuffer (fresh_buffers 4 3)) 9 = Some depth /\
    ((0.5 <? depth)%float = true ->
       zBuffer (drawPixel 4 3 1.25 2.25 0.5 None (mkRgb 1 2 3) (fresh_buffers 4 3))%float
       = set_nth 9 0.5%float (zBuffer (fresh_buffers 4 3)) /\
       frameBuffer (drawPixel 4 3 1.25 2.25 0.5 None (mkRgb 1 2 3) (fresh_buffers 4 3))%float
       = set_nth 9 (paint None (mkRgb 1 2 3)%float) (frameBuffer (fresh_buffers 4 3))) /\
    ((0.5 <? depth)%float = false ->
       zBuffer (drawPixel 4 3 1.25 2.25 0.5 None (mkRgb 1 2 3) (fresh_buffers 4 3))%float
       = zBuffer (fresh_buffers 4 3) /\
       frameBuffer (drawPixel 4 3 1.25 2.25 0.5 None (mkRgb 1 2 3) (fresh_buffers 4 3))%float
       = frameBuffer (fresh_buffers 4 3)) /\
    ((0.5 =? depth)%float = true -> (0.5 <? depth)%float = false).
Proof.
  exact (drawPixel_depth_test 4 3 1.25 2.25 0.5 None (mkRgb 1 2 3)%float
           (fresh_buffers 4 3) eq_refl eq_refl eq_refl eq_refl eq_refl).
Defined.

Lemma culled_triangle_draws_nothing_witness :
  renderTriangle 24 12 default_ramp sample_rgbAt 100 cubeMesh [] 0
    (fresh_buffers 24 12) = Some (fresh_buffers 24 12) /\
  forall fuel' p q char color st',
    drawLine 24 12 fuel' p q char color (fresh_buffers 24 12) = Some st' ->
    calls st' <> calls (fresh_buffers 24 12).
Proof.
  apply (culled_triangle_draws_nothing 24 12 default_ramp sample_rgbAt 100
           cubeMesh [] 0 (fresh_buffers 24 12) 0 1 2
           (mkVertex (vec3.create (- #1) (- #1) #1) (vec3.create #0 #0 #1))%num
           (mkVertex (vec3.create #1 (- #1) #1) (vec3.create #0 #0 #1))%num
           (mkVertex (vec3.create #1 #1 #1) (vec3.create #0 #0 #1))%num);
    try reflexivity.
Defined.

(* ================================================================= *)
(** ** The Bresenham walk *)

(** The walk of [drawLine] on exact integers. *)
Module ZLine.
Local Open Scope Z_scope.

Record State : Type := mkState { X0 : Z; Y0 : Z; Err : Z }.
Record Consts : Type :=
  mkConsts { X1 : Z; Y1 : Z; DX : Z; DY : Z; SX : Z; SY : Z }.

Definition done (c : Consts) (s : State) : bool :=
  (X0 s =? X1 c) && (Y0 s =? Y1 c).

Definition step (c : Consts) (s : State) : State :=
  let e2 := 2 * Err s in
  let s := if - DY c <? e2
           then mkState (X0 s + SX c) (Y0 s) (Err s - DY c) else s in
  let s := if e2 <? DX c
           then mkState (X0 s) (Y0 s + SY c) (Err s + DX c) else s in
  s.

Fixpoint walk (fuel : nat) (c : Consts) (s : State) : option (list State) :=
  match fuel with
  | O => None
  | S fuel' =>
      if done c s then Some [s]
      else option_map (cons s) (walk fuel' c (step c s))
  end.

Definition init (x0 y0 x1 y1 : Z) : Consts * State :=
  let dx := Z.abs (x1 - x0) in
  let dy := Z.abs (y1 - y0) in
  let sx := if x0 <? x1 then 1 else -1 in
  let sy := if y0 <? y1 then 1 else -1 in
  (mkConsts x1 y1 dx dy sx sy, mkState x0 y0 (dx - dy)).

(** The grid distance left to the end point. *)
Definition distance (c : Consts) (s : State) : Z :=
  Z.abs (X1 c - X0 s) + Z.abs (Y1 c - Y0 s).

(** [a] steps along x and [b] steps along y have been taken. *)
Definition taken (c : Consts) (s : State) (a b : Z) : Prop :=
  0 <= a <= DX c /\ 0 <= b <= DY c /\
  X0 s = X1 c - SX c * (DX c - a) /\
  Y0 s = Y1 c - SY c * (DY c - b) /\
  Err s = (b + 1) * DX c - (a + 1) * DY c.

Definition signs (c : Consts) : Prop :=
  (SX c = 1 \/ SX c = -1) /\ (SY c = 1 \/ SY c = -1).

Definition inv (c : Consts) (s : State) : Prop :=
  signs c /\ - 2 * DY c <= Err s <= 2 * DX c /\ exists a b, taken c s a b.

Lemma init_inv x0 y0 x1 y1 :
  let '(c, s) := init x0 y0 x1 y1 in inv c s /\ taken c s 0 0.
Proof.
  unfold init, inv, signs, taken. cbn [X0 Y0 Err X1 Y1 DX DY SX SY].
  destruct (Z.ltb_spec x0 x1), (Z.ltb_spec y0 y1);
    repeat split; try (now left); try (now right); try lia;
    try (exists 0, 0; repeat split; lia).
Qed.

Lemma distance_taken c s a b :
  signs c -> taken c s a b -> distance c s = (DX c - a) + (DY c - b).
Proof.
  intros [[Sx|Sx] [Sy|Sy]] (Ha & Hb & Hx & Hy & _); unfold distance;
    rewrite Hx, Hy, Sx, Sy; lia.
Qed.

Lemma done_taken c s a b :
  signs c -> taken c s a b -> done c s = true <-> (a = DX c /\ b = DY c).
Proof.
  intros [[Sx|Sx] [Sy|Sy]] (Ha & Hb & Hx & Hy & _); unfold done;
    rewrite andb_true_iff, !Z.eqb_eq, Hx, Hy, Sx, Sy; lia.
Qed.

(** One step: each axis moves by at most one cell, never past its end, and
    at least one of them moves. *)
Lemma step_taken c s a b :
  signs c -> taken c s a b -> done c s = false ->
  exists a' b', taken c (step c s) a' b' /\
    (a' = a \/ a' = a + 1) /\ (b' = b \/ b' = b + 1) /\ a + b < a' + b'.
Proof.
  intros Hs Ht Hd.
  assert (Hnd : ~ (a = DX c /\ b = DY c)).
  { intros H. apply (done_taken c s a b Hs Ht) in H. congruence. }
  destruct Ht as (Ha & Hb & Hx & Hy & He).
  unfold step. cbv zeta.
  destruct (Z.ltb_spec (- DY c) (2 * Err s)) as [Cx|Cx];
    destruct (Z.ltb_spec (2 * Err s) (DX c)) as [Cy|Cy];
    cbn [X0 Y0 Err].
  - assert (a < DX c) by (rewrite He in Cx; nia).
    assert (b < DY c) by (rewrite He in Cy; nia).
    exists (a + 1), (b + 1). unfold taken. cbn [X0 Y0 Err].
    repeat split; try lia; try (rewrite ?Hx, ?Hy; ring); try (rewrite He; ring).
  - assert (a < DX c) by (rewrite He in Cx; nia).
    exists (a + 1), b. unfold taken. cbn [X0 Y0 Err].
    repeat split; try lia; try (rewrite ?Hx, ?Hy; ring); try (rewrite He; ring).
  - assert (b < DY c) by (rewrite He in Cy; nia).
    exists a, (b + 1). unfold taken. cbn [X0 Y0 Err].
    repeat split; try lia; try (rewrite ?Hx, ?Hy; ring); try (rewrite He; ring).
  - exfalso. apply Hnd. rewrite He in *. nia.
Qed.
(** Which axes a step moves. *)
Lemma step_moves c s a b :
  signs c -> taken c s a b -> done c s = false ->
  ((- DY c <? 2 * Err s) = true -> a < DX c) /\
  ((2 * Err s <? DX c) = true -> b < DY c).
Proof.
  intros Hs Ht Hd.
  assert (Hnd : ~ (a = DX c /\ b = DY c)).
  { intros H. apply (done_taken c s a b Hs Ht) in H. congruence. }
  destruct Ht as (Ha & Hb & Hx & Hy & He).
  split; intros C; [apply Z.ltb_lt in C|apply Z.ltb_lt in C]; rewrite He in C; nia.
Qed.

Lemma step_inv c s :
  inv c s -> done c s = false ->
  inv c (step c s) /\ distance c (step c s) < distance c s.
Proof.
  intros (Hs & Hb & a & b & Ht) Hd.
  destruct (step_taken c s a b Hs Ht Hd) as (a' & b' & Ht' & Ha' & Hb' & Hlt).
  split.
  - split; [assumption|]. split; [|now exists a', b'].
    destruct Ht as (Ha & Hbb & _). unfold step. cbv zeta.
    destruct (Z.ltb_spec (- DY c) (2 * Err s));
      destruct (Z.ltb_spec (2 * Err s) (DX c)); cbn [Err]; lia.
  - rewrite (distance_taken c s a b), (distance_taken c _ a' b') by assumption.
    lia.
Qed.

(** [w] is the walk from [s]: each state but the last is followed by its
    step, and only the last is at the end point. *)
Inductive chain (c : Consts) : State -> list State -> Prop :=
| chain_done s : done c s = true -> chain c s [s]
| chain_step s w : done c s = false -> chain c (step c s) w -> chain c s (s :: w).

Lemma walk_chain fuel c : forall s w, walk fuel c s = Some w -> chain c s w.
Proof.
  induction fuel as [|fuel IH]; intros s w; simpl; [discriminate|].
  destruct (done c s) eqn:Hd.
  - intros [= <-]. now constructor.
  - destruct (walk fuel c (step c s)) as [w'|] eqn:Hw; [|discriminate].
    intros [= <-]. constructor; auto.
Qed.

Lemma distance_nonneg c s : 0 <= distance c s.
Proof. unfold distance. lia. Qed.

Lemma walk_terminates fuel c : forall s,
  inv c s -> distance c s < Z.of_nat fuel -> exists w, walk fuel c s = Some w.
Proof.
  induction fuel as [|fuel IH]; intros s Hinv Hd.
  - pose proof (distance_nonneg c s). lia.
  - simpl. destruct (done c s) eqn:Hdone; [eauto|].
    destruct (step_inv c s Hinv Hdone) as [Hinv' Hlt].
    destruct (IH (step c s) Hinv') as [w Hw]; [lia|].
    rewrite Hw. simpl. eauto.
Qed.

Lemma chain_inv c s w : chain c s w -> inv c s -> Forall (inv c) w.
Proof.
  induction 1 as [s Hd|s w Hd Hc IH]; intros Hinv.
  - constructor; [assumption|constructor].
  - constructor; [assumption|]. apply IH. now apply step_inv.
Qed.

Lemma chain_head c s w : chain c s w -> exists w', w = s :: w'.
Proof. destruct 1; eauto. Qed.

Lemma chain_next c s w : chain c s w -> inv c s ->
  forall i s1 s2, nth_error w i = Some s1 -> nth_error w (S i) = Some s2 ->
  inv c s1 /\ done c s1 = false /\ s2 = step c s1 /\
  distance c s2 < distance c s1.
Proof.
  induction 1 as [s Hd|s w Hd Hc IH]; intros Hinv i s1 s2 H1 H2.
  - destruct i; simpl in H2; [discriminate|destruct i; discriminate].
  - destruct i as [|i].
    + simpl in H1, H2. injection H1 as <-.
      destruct (chain_head _ _ _ Hc) as [w' ->]. simpl in H2.
      injection H2 as <-.
      split; [assumption|split; [assumption|split; [reflexivity|]]].
      now apply step_inv.
    + simpl in H1. apply (IH (proj1 (step_inv c s Hinv Hd)) i); assumption.
Qed.

Lemma chain_last c s w : chain c s w ->
  exists sl, nth_error w (List.length w - 1) = Some sl /\ done c sl = true.
Proof.
  induction 1 as [s Hd|s w Hd Hc [sl [Hl Hdl]]].
  - exists s. split; [reflexivity|assumption].
  - exists sl. split; [|assumption].
    destruct (chain_head _ _ _ Hc) as [w' ->]. simpl in *.
    now rewrite Nat.sub_0_r in Hl.
Qed.

Lemma chain_length c s w : chain c s w -> inv c s ->
  Z.of_nat (List.length w) <= distance c s + 1.
Proof.
  induction 1 as [s Hd|s w Hd Hc IH]; intros Hinv.
  - pose proof (distance_nonneg c s). simpl. lia.
  - destruct (step_inv c s Hinv Hd) as [Hinv' Hlt].
    specialize (IH Hinv'). simpl List.length. lia.
Qed.

End ZLine.

Section Simulation.
Context {N : Type} {num : Number N} {safe : Z -> Prop} {laws : IntegerLaws N safe}.
Local Open Scope Z_scope.
Import ZLine.

(** Coordinates are bounded by [C], and integers up to [8 * C] are exact. *)
Variable C : Z.
Hypothesis C_pos : 1 <= C.
Hypothesis safe_C : forall n, Z.abs n <= 8 * C -> safe n.

Definition rep_state (s : @LineState N) (zs : State) : Prop :=
  to_int (x0 s) = Some (X0 zs) /\
  to_int (y0 s) = Some (Y0 zs) /\
  to_int (err s) = Some (Err zs).

Definition rep_line (l : @Line N) (c : Consts) : Prop :=
  to_int (x1 l) = Some (X1 c) /\ to_int (y1 l) = Some (Y1 c) /\
  to_int (dx l) = Some (DX c) /\ to_int (dy l) = Some (DY c) /\
  to_int (sx l) = Some (SX c) /\ to_int (sy l) = Some (SY c).

Definition bounded (c : Consts) : Prop :=
  Z.abs (X1 c) <= C /\ Z.abs (X1 c - SX c * DX c) <= C /\
  Z.abs (Y1 c) <= C /\ Z.abs (Y1 c - SY c * DY c) <= C.

Lemma taken_bounds c s a b :
  signs c -> bounded c -> taken c s a b ->
  Z.abs (X0 s) <= C /\ Z.abs (Y0 s) <= C /\
  0 <= DX c <= 2 * C /\ 0 <= DY c <= 2 * C.
Proof.
  intros [[Sx|Sx] [Sy|Sy]] (B1 & B2 & B3 & B4) (Ha & Hb & Hx & Hy & _);
    rewrite Sx in *; rewrite Sy in *; lia.
Qed.

Lemma done_sim l c s zs :
  rep_line l c -> rep_state s zs -> inv c zs -> bounded c ->
  line_done l s = done c zs.
Proof.
  intros (L1 & L2 & _) (S1 & S2 & _) (Hs & _ & a & b & Ht) Hb.
  destruct (taken_bounds _ _ _ _ Hs Hb Ht) as (Bx & By & _).
  destruct Hb as (B1 & _ & B3 & _).
  unfold line_done, done.
  rewrite (int_seq _ _ _ _ S1 L1), (int_seq _ _ _ _ S2 L2);
    try reflexivity; apply safe_C; lia.
Qed.

Lemma step_sim l c s zs :
  rep_line l c -> rep_state s zs -> inv c zs -> bounded c ->
  done c zs = false ->
  rep_state (line_step l s) (step c zs).
Proof.
  intros (L1 & L2 & L3 & L4 & L5 & L6) (S1 & S2 & S3)
         (Hs & Herr & a & b & Ht) Hb Hd.
  destruct (taken_bounds _ _ _ _ Hs Hb Ht) as (Bx & By & Bdx & Bdy).
  destruct (step_moves c zs a b Hs Ht Hd) as [Mx My].
  assert (Sg : Z.abs (SX c) = 1 /\ Z.abs (SY c) = 1)
    by (destruct Hs as [[->| ->] [->| ->]]; split; reflexivity).
  destruct Sg as [Sgx Sgy].
  assert (E2 : to_int (num_of_Z 2 * err s)%num = Some (2 * Err zs)).
  { apply int_mul; auto; try apply int_lit; apply safe_C; lia. }
  assert (Ody : to_int (- dy l)%num = Some (- DY c))
    by (apply int_opp; auto; apply safe_C; lia).
  unfold line_step, step. cbv zeta.
  rewrite (int_lt _ _ _ _ Ody E2) by (apply safe_C; lia).
  rewrite (int_lt _ _ _ _ E2 L3) by (apply safe_C; lia).
  assert (Hx' : (- DY c <? 2 * Err zs) = true ->
                Z.abs (X0 zs + SX c) <= C).
  { intros Cx. specialize (Mx Cx).
    destruct Ht as (Ha & Hbb & Hx & _). destruct Hb as (B1 & B2 & _).
    destruct Hs as [[Sx|Sx] _]; rewrite Sx in *; lia. }
  assert (Hy' : (2 * Err zs <? DX c) = true ->
                Z.abs (Y0 zs + SY c) <= C).
  { intros Cy. specialize (My Cy).
    destruct Ht as (Ha & Hbb & _ & Hy & _). destruct Hb as (_ & _ & B3 & B4).
    destruct Hs as [_ [Sy|Sy]]; rewrite Sy in *; lia. }
  destruct (- DY c <? 2 * Err zs) eqn:Cx;
    destruct (2 * Err zs <? DX c) eqn:Cy;
    cbn [x0 y0 err X0 Y0 Err]; unfold rep_state; cbn [x0 y0 err X0 Y0 Err].
  - specialize (Hx' eq_refl). specialize (Hy' eq_refl).
    apply Z.ltb_lt in Cx, Cy.
    assert (to_int (err s - dy l)%num = Some (Err zs - DY c))
      by (apply int_sub; auto; apply safe_C; lia).
    repeat split.
    + apply int_add; auto; apply safe_C; lia.
    + apply int_add; auto; apply safe_C; lia.
    + apply int_add; auto; apply safe_C; lia.
  - specialize (Hx' eq_refl). apply Z.ltb_lt in Cx. repeat split; auto.
    + apply int_add; auto; apply safe_C; lia.
    + apply int_sub; auto; apply safe_C; lia.
  - specialize (Hy' eq_refl). apply Z.ltb_lt in Cy. repeat split; auto.
    + apply int_add; auto; apply safe_C; lia.
    + apply int_add; auto; apply safe_C; lia.
  - repeat split; auto.
Qed.

Lemma walk_sim l c fuel : rep_line l c -> bounded c ->
  forall s zs zw, rep_state s zs -> inv c zs ->
  ZLine.walk fuel c zs = Some zw ->
  exists w, line_walk fuel l s = Some w /\ Forall2 rep_state w zw.
Proof.
  intros Hl Hb. induction fuel as [|fuel IH]; intros s zs zw Hr Hinv; simpl;
    [discriminate|].
  rewrite (done_sim l c s zs Hl Hr Hinv Hb).
  destruct (done c zs) eqn:Hd.
  - intros [= <-]. exists [s]. split; [reflexivity|].
    constructor; [assumption|constructor].
  - destruct (ZLine.walk fuel c (step c zs)) as [zw'|] eqn:Hw; [|discriminate].
    intros [= <-].
    destruct (IH (line_step l s) (step c zs) zw') as (w' & Hw' & HF); auto.
    + now apply step_sim.
    + now apply step_inv.
    + rewrite Hw'. exists (s :: w'). split; [reflexivity|]. now constructor.
Qed.

(** The constants and the first state of [drawLine], from the rounded end
    points. *)
Lemma init_sim (p1 p2 : Vec3 N) ix0 iy0 ix1 iy1 :
  to_int (Math_round (x p1)) = Some ix0 ->
  to_int (Math_round (y p1)) = Some iy0 ->
  to_int (Math_round (x p2)) = Some ix1 ->
  to_int (Math_round (y p2)) = Some iy1 ->
  Z.abs ix0 <= C -> Z.abs iy0 <= C -> Z.abs ix1 <= C -> Z.abs iy1 <= C ->
  rep_line (fst (line_init p1 p2)) (fst (ZLine.init ix0 iy0 ix1 iy1)) /\
  rep_state (snd (line_init p1 p2)) (snd (ZLine.init ix0 iy0 ix1 iy1)) /\
  bounded (fst (ZLine.init ix0 iy0 ix1 iy1)).
Proof.
  intros X0 Y0 X1 Y1 B1 B2 B3 B4.
  unfold line_init, ZLine.init, rep_line, rep_state, bounded.
  cbn [fst snd x0 y0 err x1 y1 dx dy sx sy
       ZLine.X0 ZLine.Y0 ZLine.Err ZLine.X1 ZLine.Y1 ZLine.DX ZLine.DY
       ZLine.SX ZLine.SY].
  assert (L1 : to_int (num_of_Z 1 : N) = Some 1) by (apply int_lit, safe_C; lia).
  assert (Lm : to_int (- num_of_Z 1 : N)%num = Some (-1))
    by (apply (int_opp _ 1); auto; apply safe_C; lia).
  assert (Dx : to_int (Math_round (x p2) - Math_round (x p1))%num = Some (ix1 - ix0))
    by (apply int_sub; auto; apply safe_C; lia).
  assert (Dy : to_int (Math_round (y p2) - Math_round (y p1))%num = Some (iy1 - iy0))
    by (apply int_sub; auto; apply safe_C; lia).
  assert (Ax : to_int (Math_abs (Math_round (x p2) - Math_round (x p1))%num)
               = Some (Z.abs (ix1 - ix0)))
    by (apply int_abs; auto; apply safe_C; lia).
  assert (Ay : to_int (Math_abs (Math_round (y p2) - Math_round (y p1))%num)
               = Some (Z.abs (iy1 - iy0)))
    by (apply int_abs; auto; apply safe_C; lia).
  rewrite (int_lt _ _ _ _ X0 X1), (int_lt _ _ _ _ Y0 Y1) by (apply safe_C; lia).
  repeat split; auto.
  - destruct (ix0 <? ix1); assumption.
  - destruct (iy0 <? iy1); assumption.
  - apply int_sub; auto; apply safe_C; lia.
  - destruct (Z.ltb_spec ix0 ix1); lia.
  - destruct (Z.ltb_spec iy0 iy1); lia.
Qed.

End Simulation.

(** What [drawLine] does is read off the walk. *)
Section WalkFacts.
Context {N : Type} {num : Number N}.
Variable WIDTH HEIGHT : nat.

(** The [drawPixel] call made at a loop state. *)
Definition line_fragment (l : @Line N) (s : LineState) : Fragment N :=
  mkFragment (x0 s) (y0 s) (line_depth l s).

Lemma drawLine_loop_walk fuel (l : @Line N) char color : forall s st,
  match line_walk fuel l s with
  | Some w =>
      exists st', drawLine_loop WIDTH HEIGHT fuel l s char color st = Some st' /\
                  calls st' = rev (List.map (line_fragment l) w) ++ calls st
  | None => drawLine_loop WIDTH HEIGHT fuel l s char color st = None
  end.
Proof.
  induction fuel as [|fuel IH]; intros s st; simpl; [reflexivity|].
  destruct (line_done l s).
  - eexists. split; [reflexivity|]. now rewrite drawPixel_calls.
  - specialize (IH (line_step l s)
                   (drawPixel WIDTH HEIGHT (x0 s) (y0 s) (line_depth l s) char color st)).
    destruct (line_walk fuel l (line_step l s)) as [w|]; simpl; [|assumption].
    destruct IH as (st' & Hst & Hc). exists st'. split; [assumption|].
    rewrite Hc, drawPixel_calls, <- app_assoc. reflexivity.
Qed.

(** A state that a step leaves where it is, away from the end point, is
    never left: the loop runs forever. *)
Lemma stuck_loop (l : @Line N) s char color :
  line_done l s = false -> line_step l s = s ->
  forall fuel st, drawLine_loop WIDTH HEIGHT fuel l s char color st = None.
Proof.
  intros Hd Hs. induction fuel as [|fuel IH]; intros st; simpl; [reflexivity|].
  rewrite Hd, Hs. apply IH.
Qed.

End WalkFacts.

(* ================================================================= *)
(** ** The fragments of a frame *)

(** What the geometry of a frame sends to [drawPixel], read off the scene
    alone: no buffer is involved. *)
Section Fragments.
Context {N : Type} {num : Number N}.
Local Open Scope num_scope.

(** The [drawPixel] calls of one [drawLine], in order. *)
Definition line_fragments (fuel : nat) (p1 p2 : Vec3 N)
    : option (list (Fragment N)) :=
  option_map (List.map (line_fragment (fst (line_init p1 p2))))
             (line_walk fuel (fst (line_init p1 p2)) (snd (line_init p1 p2))).

(** The edges of the triangle at index [i] of the mesh, when it is lit. *)
Definition triangle_edges (mesh : Mesh) (tvs : list (Vec3 N)) (i : nat)
    : option (list (Vec3 N * Vec3 N)) :=
  bind (nth_error (indices mesh) i) (fun i1 =>
  bind (nth_error (indices mesh) (i + 1)) (fun i2 =>
  bind (nth_error (indices mesh) (i + 2)) (fun i3 =>
  bind (nth_error (vertices mesh) i1) (fun v1 =>
  bind (nth_error (vertices mesh) i2) (fun v2 =>
  bind (nth_error (vertices mesh) i3) (fun v3 =>
  if faceIntensity v1 v2 v3 >? #0 then
    bind (nth_error tvs i1) (fun tv1 =>
    bind (nth_error tvs i2) (fun tv2 =>
    bind (nth_error tvs i3) (fun tv3 =>
    Some [(tv1, tv2); (tv2, tv3); (tv3, tv1)])))
  else Some [])))))).

(** The fragments of a list of edges, [None] when an edge or a line does
    not complete. *)
Fixpoint edges_fragments (fuel : nat) (edges : list (Vec3 N * Vec3 N))
    : option (list (Fragment N)) :=
  match edges with
  | [] => Some []
  | (a, b) :: edges' =>
      bind (line_fragments fuel a b) (fun f =>
      bind (edges_fragments fuel edges') (fun fs => Some (f ++ fs)))
  end.

Fixpoint mesh_fragments (fuel : nat) (mesh : Mesh) (tvs : list (Vec3 N))
    (starts : list nat) : option (list (Fragment N)) :=
  match starts with
  | [] => Some []
  | i :: starts' =>
      bind (triangle_edges mesh tvs i) (fun edges =>
      bind (edges_fragments fuel edges) (fun f =>
      bind (mesh_fragments fuel mesh tvs starts') (fun fs => Some (f ++ fs))))
  end.

Context {trig : Trig N}.
Variable WIDTH HEIGHT : nat.

(** The fragments of the cube mesh under a transform. *)
Definition transform_fragments (fuel : nat) (transform : Mat4 N)
    : option (list (Fragment N)) :=
  mesh_fragments fuel cubeMesh
    (List.map (toScreen WIDTH HEIGHT transform) (vertices cubeMesh))
    (triangle_starts (List.length (indices cubeMesh))).

(** The fragments of the cubes of a scene, each under the transform built
    from the rotation it has after its increment. *)
Fixpoint cubes_fragments (fuel : nat) (viewMatrix projectionMatrix : Mat4 N)
    (cubes : list (Cube N)) : option (list (Fragment N)) :=
  match cubes with
  | [] => Some []
  | cube :: cubes' =>
      let RX := mat4.fromXRotation (x (rotation cube) + dec 1 100) in
      let RY := mat4.fromYRotation (y (rotation cube) + dec 1 100) in
      bind (transform_fragments fuel
              (mat4.multiply projectionMatrix
                 (mat4.multiply viewMatrix (mat4.multiply RX RY)))) (fun f =>
      bind (cubes_fragments fuel viewMatrix projectionMatrix cubes') (fun fs =>
      Some (f ++ fs)))
  end.

Definition frame_fragments (fuel : nat) (scene : @Scene N)
    : option (list (Fragment N)) :=
  cubes_fragments fuel (createViewMatrix camera)
    (createProjectionMatrix (Math_PI / #2)
       (#(Z.of_nat WIDTH) / #(Z.of_nat HEIGHT)) (dec 1 10) #100)
    (cubes scene).

(* ----------------------------------------------------------------- *)

Variable ASCII_RAMP : string.
Variable rgbAt : N -> Rgb N.

Lemma drawLine_fragments fuel p1 p2 char color (st st' : Buffers N) :
  drawLine WIDTH HEIGHT fuel p1 p2 char color st = Some st' ->
  exists f, line_fragments fuel p1 p2 = Some f /\
            calls st' = rev f ++ calls st.
Proof.
  unfold drawLine, line_fragments.
  destruct (line_init p1 p2) as [l s]. cbn [fst snd]. intros H.
  pose proof (drawLine_loop_walk WIDTH HEIGHT fuel l char color s st) as Hw.
  destruct (line_walk fuel l s) as [w|]; [|congruence].
  destruct Hw as (st1 & Hst1 & Hc). assert (st1 = st') by congruence. subst st1.
  eexists. split; [reflexivity|exact Hc].
Qed.

Lemma renderTriangle_fragments fuel mesh tvs i (st st' : Buffers N) :
  renderTriangle WIDTH HEIGHT ASCII_RAMP rgbAt fuel mesh tvs i st = Some st' ->
  exists edges f, triangle_edges mesh tvs i = Some edges /\
                  edges_fragments fuel edges = Some f /\
                  calls st' = rev f ++ calls st.
Proof.
  unfold renderTriangle, triangle_edges. intros H.
  do 6 (unbind H; rewrite Ha; cbn [bind]; clear Ha).
  destruct (_ <? _).
  - do 3 (unbind H; rewrite Ha; cbn [bind]; clear Ha).
    unbind H. unbind H.
    destruct (drawLine_fragments _ _ _ _ _ _ _ Ha) as (f1 & F1 & C1).
    destruct (drawLine_fragments _ _ _ _ _ _ _ Ha0) as (f2 & F2 & C2).
    destruct (drawLine_fragments _ _ _ _ _ _ _ H) as (f3 & F3 & C3).
    eexists. exists (f1 ++ f2 ++ f3). split; [reflexivity|].
    split.
    + cbn [edges_fragments].
      rewrite F1; cbn [bind]; rewrite F2; cbn [bind]; rewrite F3; cbn [bind].
      now rewrite app_nil_r.
    + rewrite C3, C2, C1, !rev_app_distr, <- !app_assoc. reflexivity.
  - injection H as <-. exists [], []. repeat split.
Qed.

Lemma run_triangles_fragments fuel mesh tvs starts : forall (st st' : Buffers N),
  run_triangles WIDTH HEIGHT ASCII_RAMP rgbAt fuel mesh tvs starts st = Some st' ->
  exists f, mesh_fragments fuel mesh tvs starts = Some f /\
            calls st' = rev f ++ calls st.
Proof.
  induction starts as [|i starts IH]; intros st st' H; cbn [run_triangles] in H.
  - injection H as <-. exists []. split; reflexivity.
  - unbind H.
    destruct (renderTriangle_fragments _ _ _ _ _ _ Ha) as (edges & f & E & F & C).
    destruct (IH _ _ H) as (fs & Fs & Cs).
    exists (f ++ fs). cbn [mesh_fragments].
    rewrite E; cbn [bind]; rewrite F; cbn [bind]; rewrite Fs; cbn [bind].
    split; [reflexivity|].
    rewrite Cs, C, rev_app_distr, <- app_assoc. reflexivity.
Qed.

Lemma renderCube_fragments fuel V P cube cube' (st st' : Buffers N) :
  renderCube WIDTH HEIGHT ASCII_RAMP rgbAt fuel V P cube st = Some (cube', st') ->
  let RX := mat4.fromXRotation (x (rotation cube) + dec 1 100) in
  let RY := mat4.fromYRotation (y (rotation cube) + dec 1 100) in
  exists f,
    transform_fragments fuel
      (mat4.multiply P (mat4.multiply V (mat4.multiply RX RY))) = Some f /\
    calls st' = rev f ++ calls st.
Proof.
  unfold renderCube. intros H. unbind H. injection H as _ <-.
  exact (run_triangles_fragments _ _ _ _ _ _ Ha).
Qed.

Lemma run_cubes_fragments fuel V P cs : forall (st : Buffers N) cs' st',
  run_cubes WIDTH HEIGHT ASCII_RAMP rgbAt fuel V P cs st = Some (cs', st') ->
  exists f, cubes_fragments fuel V P cs = Some f /\
            calls st' = rev f ++ calls st.
Proof.
  induction cs as [|cube cs IH]; intros st cs' st' H; cbn [run_cubes] in H.
  - injection H as _ <-. exists []. split; reflexivity.
  - unbind H. destruct a as [cube1 st1]. unbind H. destruct a as [rest st2].
    cbn [fst snd] in *. injection H as _ <-.
    destruct (renderCube_fragments _ _ _ _ _ _ _ Ha) as (f & F & C).
    destruct (IH _ _ _ Ha0) as (fs & Fs & Cs).
    exists (f ++ fs). cbn [cubes_fragments]. cbv zeta in F.
    rewrite F; cbn [bind]; rewrite Fs; cbn [bind]. split; [reflexivity|].
    rewrite Cs, C, rev_app_distr, <- app_assoc. reflexivity.
Qed.

Context {ext : Extended N}.

Lemma renderFrame_fragments fuel scene scene' (st : Buffers N) :
  renderFrame WIDTH HEIGHT ASCII_RAMP rgbAt fuel scene = Some (scene', st) ->
  exists f, frame_fragments fuel scene = Some f /\ calls st = rev f.
Proof.
  unfold renderFrame. intros H. unbind H. destruct a as [cs' st'].
  cbn [fst snd] in H. injection H as _ <-.
  destruct (run_cubes_fragments _ _ _ _ _ _ _ Ha) as (f & F & C).
  exists f. split; [exact F|]. rewrite C. cbn [fresh_buffers calls].
  apply app_nil_r.
Qed.

End Fragments.

Section ZBufferFrame.
Local Open Scope num_scope.

Lemma depths_at_rev {N} {num : Number N} W H k (l : list (Fragment N)) d :
  In d (depths_at W H k (rev l)) <-> In d (depths_at W H k l).
Proof.
  unfold depths_at. rewrite !in_map_iff.
  split; intros (f & Hf & Hin); exists f; (split; [exact Hf|]);
    rewrite filter_In in *; destruct Hin as [Hin Ha]; (split; [|exact Ha]).
  - now apply in_rev.
  - now apply in_rev in Hin.
Qed.

Lemma is_min_same {N} {num : Number N} (m : N) (l l' : list N) :
  (forall d, In d l <-> In d l') -> is_min m l -> is_min m l'.
Proof.
  intros E (Hm & Hin & Hlow). split; [exact Hm|]. split; [now apply E|].
  intros d Hd. apply Hlow. now apply E.
Qed.

End ZBufferFrame.

(** C1.  A frame that completes has sent to [drawPixel] exactly the
    fragments of its geometry, in their order ([frame_fragments], which
    involves no buffer), and afterwards every cell of the depth buffer
    holds a minimum of [Infinity] (its initial value) and the depths of
    those fragments whose rounded coordinates addressed the cell.  The
    minimum is a property of that collection, not of the order of the
    calls, and it is unique up to [===]. *)
Theorem zbuffer_holds_minimum (WIDTH HEIGHT : nat) (ASCII_RAMP : string)
    (rgbAt : float -> Rgb float) (trig : Trig float) (fuel : nat)
    (scene scene' : Scene) (st : Buffers float) :
  renderFrame WIDTH HEIGHT ASCII_RAMP rgbAt fuel scene = Some (scene', st) ->
  exists fragments,
    frame_fragments WIDTH HEIGHT fuel scene = Some fragments /\
    calls st = rev fragments /\
    List.length (zBuffer st) = (WIDTH * HEIGHT)%nat /\
    forall k, (k < WIDTH * HEIGHT)%nat ->
    exists m,
      nth_error (zBuffer st) k = Some m /\
      is_min m (Infinity :: depths_at WIDTH HEIGHT k fragments) /\
      forall m', is_min m' (Infinity :: depths_at WIDTH HEIGHT k fragments) ->
                 (m' === m)%num = true.
Proof.
  intros Hframe.
  destruct (renderFrame_fragments _ _ _ _ _ _ _ _ Hframe) as (f & Hf & Hc).
  destruct (renderFrame_correct _ _ _ _ _ _ _ _ Hframe) as [Hlen Hinv].
  exists f. split; [exact Hf|]. split; [exact Hc|]. split; [exact Hlen|].
  intros k Hk. destruct (Hinv k Hk) as (m & Hnth & Hmin).
  assert (E : forall d, In d (Infinity :: depths_at WIDTH HEIGHT k (calls st)) <->
                        In d (Infinity :: depths_at WIDTH HEIGHT k f)).
  { intros d. rewrite Hc. cbn [In]. now rewrite depths_at_rev. }
  exists m. split; [assumption|]. split; [exact (is_min_same _ _ _ E Hmin)|].
  intros m' Hm'. eapply is_min_unique; [|exact Hm'].
  exact (is_min_same _ _ _ E Hmin).
Qed.

(** One cube, turned to the camera, on a 24 by 12 grid. *)
Definition facing_scene : Scene :=
  mkScene [mkCube (mkVec3 3 (-2) 1) (mkVec3 0 0 0) (mkVec3 1 1 1)]%float 0%float.

Lemma zbuffer_holds_minimum_witness :
  exists scene' st fragments m,
    @renderFrame float _ 24 12 default_ramp sample_rgbAt series_trig _ 100
      facing_scene = Some (scene', st) /\
    @frame_fragments float _ series_trig 24 12 100 facing_scene = Some fragments /\
    calls st = rev fragments /\
    List.length fragments = 390%nat /\
    List.length (depths_at 24 12 43 fragments) = 3%nat /\
    nth_error (zBuffer st) 43 = Some m /\
    (m <? Infinity)%num = true /\
    is_min m (Infinity :: depths_at 24 12 43 fragments).
Proof.
  destruct (@renderFrame float _ 24 12 default_ramp sample_rgbAt series_trig _
              100 facing_scene) as [[scene' st]|] eqn:E;
    [|vm_compute in E; discriminate E].
  destruct (zbuffer_holds_minimum 24 12 default_ramp sample_rgbAt series_trig
              100 facing_scene scene' st E) as (f & Hf & Hc & _ & Hk).
  destruct (Hk 43%nat ltac:(lia)) as (m & Hm & Hmin & _).
  exists scene', st, f, m.
  split; [reflexivity|]. split; [exact Hf|]. split; [exact Hc|].
  vm_compute in Hf. injection Hf as <-.
  split; [reflexivity|]. split; [vm_compute; reflexivity|].
  split; [exact Hm|]. split; [|exact Hmin].
  vm_compute in E. injection E as _ <-.
  vm_compute in Hm. injection Hm as <-. reflexivity.
Defined.

Section WalkTotal.
Context {N : Type} {num : Number N} {safe : Z -> Prop} {laws : IntegerLaws N safe}.
Local Open Scope Z_scope.
Variable C : Z.
Hypothesis C_pos : 1 <= C.
Hypothesis safe_C : forall n, Z.abs n <= 8 * C -> safe n.

(** The grid distance from a loop state to the rounded end point. *)
Definition remaining (l : @Line N) (s : LineState) : option Z :=
  match to_int (x0 s), to_int (y0 s), to_int (x1 l), to_int (y1 l) with
  | Some a, Some b, Some c, Some d => Some (Z.abs (c - a) + Z.abs (d - b))
  | _, _, _, _ => None
  end.

Lemma remaining_rep l c s zs :
  rep_line l c -> rep_state s zs -> remaining l s = Some (ZLine.distance c zs).
Proof.
  intros (L1 & L2 & _) (S1 & S2 & _). unfold remaining, ZLine.distance.
  now rewrite S1, S2, L1, L2.
Qed.

Lemma Forall2_nth {A B} (R : A -> B -> Prop) w zw :
  Forall2 R w zw -> forall i a, nth_error w i = Some a ->
  exists b, nth_error zw i = Some b /\ R a b.
Proof.
  induction 1 as [|a0 b0 w zw H0 HF IH]; intros [|i] a; simpl; try discriminate.
  - intros [= <-]. eauto.
  - apply IH.
Qed.

Lemma line_walk_head fuel (l : @Line N) s w :
  line_walk fuel l s = Some w -> exists w', w = s :: w'.
Proof.
  destruct fuel; simpl; [discriminate|].
  destruct (line_done l s); [intros [= <-]; eauto|].
  destruct (line_walk fuel l (line_step l s)); [|discriminate].
  intros [= <-]; eauto.
Qed.

(** Each state of the walk is the step of the one before it. *)
Lemma line_walk_next fuel (l : @Line N) : forall s0 w,
  line_walk fuel l s0 = Some w ->
  forall i s s', nth_error w i = Some s -> nth_error w (S i) = Some s' ->
  s' = line_step l s.
Proof.
  induction fuel as [|f IH]; intros s0 w Hw i s s' Hs Hs'; simpl in Hw;
    [discriminate|].
  destruct (line_done l s0).
  - assert (w = [s0]) by congruence. subst w.
    destruct i; simpl in Hs'; [discriminate|destruct i; discriminate].
  - destruct (line_walk f l (line_step l s0)) as [w'|] eqn:Hw'; [|discriminate].
    simpl in Hw. assert (w = s0 :: w') by congruence. subst w.
    destruct i as [|i].
    + simpl in Hs, Hs'. assert (s = s0) by congruence. subst s0.
      destruct (line_walk_head _ _ _ _ Hw') as [w'' ->].
      simpl in Hs'. congruence.
    + simpl in Hs, Hs'. exact (IH _ _ Hw' _ _ _ Hs Hs').
Qed.

(** The walk of [drawLine] between rounded end points within [C], and the
    integer walk it follows. *)
Lemma line_walk_total (p1 p2 : Vec3 N) ix0 iy0 ix1 iy1 fuel :
  to_int (Math_round (x p1)) = Some ix0 ->
  to_int (Math_round (y p1)) = Some iy0 ->
  to_int (Math_round (x p2)) = Some ix1 ->
  to_int (Math_round (y p2)) = Some iy1 ->
  Z.abs ix0 <= C -> Z.abs iy0 <= C -> Z.abs ix1 <= C -> Z.abs iy1 <= C ->
  Z.abs (ix1 - ix0) + Z.abs (iy1 - iy0) < Z.of_nat fuel ->
  let l := fst (line_init p1 p2) in
  let c := fst (ZLine.init ix0 iy0 ix1 iy1) in
  let zs0 := snd (ZLine.init ix0 iy0 ix1 iy1) in
  exists w zw,
    line_walk fuel l (snd (line_init p1 p2)) = Some w /\
    Forall2 rep_state w zw /\ ZLine.chain c zs0 zw /\
    rep_line l c /\ ZLine.inv c zs0 /\ ZLine.taken c zs0 0 0 /\
    ZLine.distance c zs0 = Z.abs (ix1 - ix0) + Z.abs (iy1 - iy0).
Proof.
  intros X0 Y0 X1 Y1 B1 B2 B3 B4 Hfuel l c zs0.
  destruct (init_sim C C_pos safe_C p1 p2 ix0 iy0 ix1 iy1) as (Hl & Hs & Hb); auto.
  pose proof (ZLine.init_inv ix0 iy0 ix1 iy1) as Hi.
  destruct (ZLine.init ix0 iy0 ix1 iy1) as [c' zs0'] eqn:Hinit.
  destruct Hi as [Hinv Htaken]. cbn [fst snd] in *. subst c zs0.
  assert (Hdist : ZLine.distance c' zs0' = Z.abs (ix1 - ix0) + Z.abs (iy1 - iy0)).
  { unfold ZLine.init in Hinit. injection Hinit as <- <-. reflexivity. }
  destruct (ZLine.walk_terminates fuel c' zs0' Hinv) as [zw Hzw]; [lia|].
  destruct (walk_sim C C_pos safe_C _ _ fuel Hl Hb _ _ zw Hs Hinv Hzw)
    as (w & Hw & HF).
  exists w, zw.
  split; [exact Hw|]. split; [exact HF|]. split; [exact (ZLine.walk_chain fuel _ _ _ Hzw)|].
  split; [exact Hl|]. split; [exact Hinv|]. split; [exact Htaken|exact Hdist].
Qed.

(** What the walk is like, on the carrier. *)
Lemma line_walk_props (p1 p2 : Vec3 N) ix0 iy0 ix1 iy1 :
  to_int (Math_round (x p1)) = Some ix0 ->
  to_int (Math_round (y p1)) = Some iy0 ->
  to_int (Math_round (x p2)) = Some ix1 ->
  to_int (Math_round (y p2)) = Some iy1 ->
  Z.abs ix0 <= C -> Z.abs iy0 <= C -> Z.abs ix1 <= C -> Z.abs iy1 <= C ->
  forall fuel, Z.abs (ix1 - ix0) + Z.abs (iy1 - iy0) < Z.of_nat fuel ->
  let l := fst (line_init p1 p2) in
  exists w,
    line_walk fuel l (snd (line_init p1 p2)) = Some w /\
    Z.of_nat (List.length w) <= Z.abs (ix1 - ix0) + Z.abs (iy1 - iy0) + 1 /\
    (exists sl, nth_error w (List.length w - 1) = Some sl /\
                to_int (x0 sl) = Some ix1 /\ to_int (y0 sl) = Some iy1 /\
                line_done l sl = true) /\
    (forall i s s', nth_error w i = Some s -> nth_error w (S i) = Some s' ->
       s' = line_step l s /\
       exists d d', remaining l s = Some d /\ remaining l s' = Some d' /\ d' < d).
Proof.
  intros X0 Y0 X1 Y1 B1 B2 B3 B4 fuel Hfuel l.
  destruct (line_walk_total p1 p2 ix0 iy0 ix1 iy1 fuel)
    as (w & zw & Hw & HF & Hch & Hl & Hinv & _ & Hdist); auto.
  fold l in Hw, Hl.
  set (c := fst (ZLine.init ix0 iy0 ix1 iy1)) in *.
  set (zs0 := snd (ZLine.init ix0 iy0 ix1 iy1)) in *.
  destruct (init_sim C C_pos safe_C p1 p2 ix0 iy0 ix1 iy1) as (_ & _ & Hb); auto.
  fold c in Hb.
  exists w. split; [assumption|]. split; [|split].
  - pose proof (ZLine.chain_length _ _ _ Hch Hinv) as Hlen.
    rewrite <- (Forall2_length HF) in Hlen. lia.
  - destruct (ZLine.chain_last _ _ _ Hch) as (zl & Hzl & Hdone).
    rewrite <- (Forall2_length HF) in Hzl.
    destruct (nth_error w (List.length w - 1)) as [sl|] eqn:Hsl.
    2:{ apply nth_error_None in Hsl.
        assert (nth_error zw (List.length w - 1) = None)
          by (apply nth_error_None; rewrite <- (Forall2_length HF); assumption).
        congruence. }
    destruct (Forall2_nth _ _ _ HF _ _ Hsl) as (zl' & Hzl' & Hrep).
    assert (zl' = zl) by congruence. subst zl'.
    pose proof (ZLine.chain_inv _ _ _ Hch Hinv) as Hall.
    rewrite Forall_forall in Hall.
    pose proof (Hall zl (nth_error_In _ _ Hzl)) as Hinvl.
    exists sl. split; [reflexivity|].
    unfold ZLine.done in Hdone. apply andb_prop in Hdone.
    destruct Hdone as [Dx Dy]. apply Z.eqb_eq in Dx, Dy.
    rewrite (done_sim C C_pos safe_C l c sl zl Hl Hrep Hinvl Hb).
    destruct Hrep as (R1 & R2 & _).
    assert (HX1 : ZLine.X1 c = ix1) by reflexivity.
    assert (HY1 : ZLine.Y1 c = iy1) by reflexivity.
    split; [congruence|split; [congruence|]].
    unfold ZLine.done. now rewrite Dx, Dy, !Z.eqb_refl.
  - intros i s s' Hs Hs'.
    destruct (Forall2_nth _ _ _ HF _ _ Hs) as (zs & Hzs & Hrep).
    destruct (Forall2_nth _ _ _ HF _ _ Hs') as (zs' & Hzs' & Hrep').
    destruct (ZLine.chain_next _ _ _ Hch Hinv i zs zs' Hzs Hzs')
      as (Hinvs & Hnd & Hstep & Hlt).
    split.
    + exact (line_walk_next _ _ _ _ Hw _ _ _ Hs Hs').
    + exists (ZLine.distance c zs), (ZLine.distance c zs').
      repeat split; auto using remaining_rep.
Qed.

End WalkTotal.

(** ** Termination of [drawLine] on doubles *)

Section DrawLineDouble.
Local Open Scope Z_scope.

Lemma safe_grid : forall n, Z.abs n <= 8 * (2 ^ 50 - 1) -> DoubleInt.safe n.
Proof. intros n Hn. unfold DoubleInt.safe. lia. Qed.

Lemma grid_pos : 1 <= 2 ^ 50 - 1.
Proof. lia. Qed.

(** C9, within the exactly representable range.  When the rounded end
    points of a line lie below [2^50] in magnitude, the loop of [drawLine]
    on doubles reaches its [break]: the walk exists with at most one state
    more than the grid distance between the rounded end points, [drawLine]
    returns whenever it is given more iterations than that distance, the
    last state is the rounded end point [p2], and each iteration strictly
    decreases the remaining grid distance. *)
Theorem drawLine_terminates (WIDTH HEIGHT : nat) (p1 p2 : Vec3 float)
    (ix0 iy0 ix1 iy1 : Z) char color (st : Buffers float) :
  to_int (Math_round (x p1)) = Some ix0 ->
  to_int (Math_round (y p1)) = Some iy0 ->
  to_int (Math_round (x p2)) = Some ix1 ->
  to_int (Math_round (y p2)) = Some iy1 ->
  Z.abs ix0 < 2 ^ 50 -> Z.abs iy0 < 2 ^ 50 ->
  Z.abs ix1 < 2 ^ 50 -> Z.abs iy1 < 2 ^ 50 ->
  forall fuel, Z.abs (ix1 - ix0) + Z.abs (iy1 - iy0) < Z.of_nat fuel ->
  let l := fst (line_init p1 p2) in
  exists w st',
    line_walk fuel l (snd (line_init p1 p2)) = Some w /\
    drawLine WIDTH HEIGHT fuel p1 p2 char color st = Some st' /\
    calls st' = rev (List.map (line_fragment l) w) ++ calls st /\
    Z.of_nat (List.length w) <= Z.abs (ix1 - ix0) + Z.abs (iy1 - iy0) + 1 /\
    (exists sl, nth_error w (List.length w - 1) = Some sl /\
                to_int (x0 sl) = Some ix1 /\ to_int (y0 sl) = Some iy1 /\
                line_done l sl = true) /\
    (forall i s s', nth_error w i = Some s -> nth_error w (S i) = Some s' ->
       s' = line_step l s /\
       exists d d', remaining l s = Some d /\ remaining l s' = Some d' /\ d' < d).
Proof.
  intros X0 Y0 X1 Y1 B1 B2 B3 B4 fuel Hfuel l.
  destruct (line_walk_props (2 ^ 50 - 1) grid_pos safe_grid p1 p2 ix0 iy0 ix1 iy1)
    with (fuel := fuel)
    as (w & Hw & Hlen & Hlast & Hstep); try assumption; try lia.
  fold l in Hw, Hlen, Hlast, Hstep.
  pose proof (drawLine_loop_walk WIDTH HEIGHT fuel l char color
                (snd (line_init p1 p2)) st) as Hloop.
  rewrite Hw in Hloop. destruct Hloop as (st' & Hst' & Hcalls).
  exists w, st'. split; [exact Hw|]. split.
  - unfold drawLine. subst l. destruct (line_init p1 p2). exact Hst'.
  - split; [exact Hcalls|]. split; [exact Hlen|]. split; [exact Hlast|exact Hstep].
Qed.

End DrawLineDouble.

(** A line the loop never leaves: from [2^53] to [2^53 + 2] along a row.
    All coordinates are finite; [x0 + sx] rounds back to [x0]. *)
Definition far_p1 : Vec3 float := mkVec3 0x1p53%float 0%float 0%float.
Definition far_p2 : Vec3 float := mkVec3 0x1.0000000000001p53%float 0%float 0%float.

(** C9 as stated fails on doubles: both end points of this line have finite
    coordinates, the rounded end point differs from the start, and no
    number of iterations completes [drawLine]. *)
Lemma drawLine_diverges :
  (Double.is_finite (x far_p1) && Double.is_finite (y far_p1) &&
   Double.is_finite (x far_p2) && Double.is_finite (y far_p2) = true) /\
  to_int (Math_round (x far_p1)) = Some (2 ^ 53)%Z /\
  to_int (Math_round (x far_p2)) = Some (2 ^ 53 + 2)%Z /\
  line_step (fst (line_init far_p1 far_p2)) (snd (line_init far_p1 far_p2))
    = snd (line_init far_p1 far_p2) /\
  ~ exists fuel char color st st',
      drawLine 80 24 fuel far_p1 far_p2 char color st = Some st'.
Proof.
  split; [reflexivity|]. split; [reflexivity|]. split; [reflexivity|].
  assert (Hstep : line_step (fst (line_init far_p1 far_p2))
                    (snd (line_init far_p1 far_p2))
                  = snd (line_init far_p1 far_p2)) by reflexivity.
  split; [exact Hstep|].
  assert (Hdone : line_done (fst (line_init far_p1 far_p2))
                    (snd (line_init far_p1 far_p2)) = false) by reflexivity.
  intros (fuel & char & color & st & st' & H).
  unfold drawLine in H.
  destruct (line_init far_p1 far_p2) as [l s]. cbn [fst snd] in Hstep, Hdone.
  rewrite (stuck_loop 80 24 l s char color Hdone Hstep) in H. discriminate.
Qed.

Definition near_p1 : Vec3 float := mkVec3 0.25%float 0%float 0%float.
Definition near_p2 : Vec3 float := mkVec3 4.25%float 2.5%float 1%float.
Definition white : Rgb float := mkRgb 255%float 255%float 255%float.

Lemma drawLine_terminates_witness :
  exists w st',
    line_walk 8 (fst (line_init near_p1 near_p2)) (snd (line_init near_p1 near_p2))
      = Some w /\
    drawLine 24 12 8 near_p1 near_p2 (Some "#"%char) white sample_buffers = Some st' /\
    List.length w = 5%nat.
Proof.
  destruct (drawLine_terminates 24 12 near_p1 near_p2 0 0 4 3 (Some "#"%char)
              white sample_buffers) with (fuel := 8%nat)
    as (w & st' & Hw & Hd & _); try reflexivity.
  exists w, st'. split; [exact Hw|]. split; [exact Hd|].
  vm_compute in Hw. injection Hw as <-. reflexivity.
Defined.

(** ** The projection of the origin *)

Section OriginProjection.

(** A double that is a zero or NaN. *)
Definition zero_or_nan (a : float) : Prop :=
  match Prim2SF a with
  | S754_zero _ | S754_nan => True
  | _ => False
  end.

Lemma zn_mul_r (a z : float) : zero_or_nan z -> zero_or_nan (a * z).
Proof.
  unfold zero_or_nan. rewrite mul_spec.
  destruct (Prim2SF z) as [sz|sz| |sz mz ez]; try contradiction; intros _;
    now destruct (Prim2SF a) as [[]|[]| |[] ? ?].
Qed.

Lemma zn_mul_l (z a : float) : zero_or_nan z -> zero_or_nan (z * a).
Proof.
  unfold zero_or_nan. rewrite mul_spec.
  destruct (Prim2SF z) as [sz|sz| |sz mz ez]; try contradiction; intros _;
    now destruct (Prim2SF a) as [[]|[]| |[] ? ?].
Qed.

Lemma zn_add (a b : float) : zero_or_nan a -> zero_or_nan b -> zero_or_nan (a + b).
Proof.
  unfold zero_or_nan. rewrite add_spec.
  destruct (Prim2SF a) as [[]|sa| |sa ma ea]; try contradiction; intros _;
    destruct (Prim2SF b) as [[]|sb| |sb mb eb]; try contradiction; intros _;
    exact I.
Qed.

Lemma zn_div (a b : float) :
  zero_or_nan a -> zero_or_nan b -> Prim2SF (a / b) = S754_nan.
Proof.
  unfold zero_or_nan. rewrite div_spec.
  destruct (Prim2SF a) as [sa|sa| |sa ma ea]; try contradiction; intros _;
    destruct (Prim2SF b) as [sb|sb| |sb mb eb]; try contradiction; intros _;
    reflexivity.
Qed.

Lemma nan_opp (a : float) : Prim2SF a = S754_nan -> Prim2SF (- a) = S754_nan.
Proof. intros Ha. now rewrite opp_spec, Ha. Qed.

Ltac zn :=
  lazymatch goal with
  | |- zero_or_nan (PrimFloat.add _ _) => apply zn_add; zn
  | |- zero_or_nan (PrimFloat.mul _ _) =>
      first [ apply zn_mul_r; exact I | apply zn_mul_l; exact I ]
  | |- zero_or_nan _ => exact I
  end.

(** C4 on the code as written.  [renderFrame] builds its transform as
    [multiply(projection, multiply(view, world))] and [transformPoint]
    multiplies the row vector [(x,y,z,1)] from the left, so the projection
    is applied to the point first.  For the origin the homogeneous [w] is
    then [0 * p0_3 + ... + 1 * (p * V)_15 = 0] and the perspective divide
    is [0 / 0]: on doubles both screen coordinates of the origin are NaN,
    whatever [fov], [aspect], [near], [far] and the screen size are. *)
Theorem origin_projects_to_NaN (trig : Trig float) (WIDTH HEIGHT : nat)
    (fov aspect near far : float) (n : Vec3 float) :
  let transform :=
    mat4.multiply (createProjectionMatrix fov aspect near far)
      (mat4.multiply (createViewMatrix camera) mat4.create) in
  let tv := toScreen WIDTH HEIGHT transform
              (mkVertex (vec3.create #0 #0 #0)%num n) in
  Prim2SF (x tv) = S754_nan /\ Prim2SF (y tv) = S754_nan.
Proof.
  cbv zeta.
  set (V := mat4.multiply (createViewMatrix camera) mat4.create).
  vm_compute in V.
  unfold createProjectionMatrix, projectionMatrix_of.
  set (p0 := ((#1 / Math_tan (fov / #2)) / aspect)%num).
  set (p5 := (#1 / Math_tan (fov / #2))%num).
  set (p10 := ((near + far) * (#1 / (near - far)))%num).
  set (p14 := (near * far * (#1 / (near - far)) * #2)%num).
  clearbody p0 p5 p10 p14.
  unfold toScreen. cbn [x y pos].
  set (w := @num_of_Z float _ (Z.of_nat WIDTH)).
  set (h := @num_of_Z float _ (Z.of_nat HEIGHT)). clearbody w h.
  unfold dec.
  repeat match goal with
  | |- context [@num_of_Z float float_number ?k] =>
      let v := eval vm_compute in (@num_of_Z float float_number k) in
      change (@num_of_Z float float_number k) with v
  end.
  cbv [mat4.transformPoint mat4.multiply mat4.create mat4.at_
       fold_left List.seq set_nth nth Nat.add Nat.mul vec3.create V
       x y z add mul div opp sub float_number].
  split.
  - apply nan_mul_l, nan_add_l, nan_mul_l, zn_div; zn.
  - apply nan_mul_l, nan_add_l, nan_mul_l, nan_opp, zn_div; zn.
Qed.

End OriginProjection.

(** ** [vec3.normalize] *)

(** The length of a vector, as [normalize] computes it. *)
Definition norm {N : Type} {num : Number N} (v : Vec3 N) : N :=
  Math_sqrt (vec3.dot v v).

Section NormalizeFacts.
Local Open Scope R_scope.

Lemma ltb_R_true (a b : R) : a < b -> Exact.ltb a b = true.
Proof.
  intros. unfold Exact.ltb. destruct (Rlt_dec a b); [reflexivity|contradiction].
Qed.

Lemma normalize_unit_R (v : Vec3 R) : 0 < norm v -> norm (vec3.normalize v) = 1.
Proof.
  destruct v as [a b c].
  cbv [norm vec3.normalize vec3.dot x y z Math_sqrt add mul div lt num_of_Z
       real_number].
  set (S := a * a + b * b + c * c). intros Hlen.
  assert (HS : 0 < S).
  { destruct (Rle_or_lt S 0) as [Hle|]; [|assumption].
    rewrite sqrt_neg_0 in Hlen by assumption. lra. }
  rewrite (ltb_R_true _ _ Hlen).
  replace (a / sqrt S * (a / sqrt S) + b / sqrt S * (b / sqrt S)
           + c / sqrt S * (c / sqrt S))
    with (S / (sqrt S * sqrt S)) by (unfold S; field; exact (Rgt_not_eq _ _ Hlen)).
  rewrite sqrt_sqrt by lra. replace (S / S) with 1 by (field; lra).
  apply sqrt_1.
Qed.

Lemma normalize_fixed_R (v : Vec3 R) : norm v <= 0 -> vec3.normalize v = v.
Proof.
  destruct v as [a b c].
  cbv [norm vec3.normalize vec3.dot x y z Math_sqrt add mul div lt num_of_Z
       real_number].
  intros Hlen. unfold Exact.ltb. destruct (Rlt_dec 0 _); [lra|reflexivity].
Qed.




End NormalizeFacts.





(** ** The transform of a cube *)

Section Rotation.
Local Open Scope R_scope.

Ltac expand_matrices :=
  cbv [mat4.transformPoint mat4.multiply mat4.fromXRotation mat4.fromYRotation
       mat4.create mat4.at_ fold_left List.seq set_nth nth Nat.add Nat.mul
       x y z Math_cos Math_sin add mul div opp sub num_of_Z
       real_number real_trig].

(** [transformPoint] multiplies the row vector [(x, y, z, 1)] by the
    matrix, so the left factor of [multiply] reaches the point first. *)
Lemma world_applies_X_then_Y (ax ay : R) (p : Vec3 R) :
  mat4.transformPoint
    (mat4.multiply (mat4.fromXRotation ax) (mat4.fromYRotation ay)) p
  = mat4.transformPoint (mat4.fromYRotation ay)
      (mat4.transformPoint (mat4.fromXRotation ax) p).
Proof.
  destruct p as [a b c]. expand_matrices.
  f_equal; field; split;
    match goal with |- ?e <> 0 => replace e with 1 by ring end; lra.
Qed.

(** Only the rotation of a cube reaches its frame. *)
Lemma renderCube_rotation_only {N : Type} {num : Number N} {trig : Trig N}
    (WIDTH HEIGHT : nat) ASCII_RAMP rgbAt fuel (V P : Mat4 N)
    (cube cube' : Cube N) st :
  rotation cube' = rotation cube ->
  option_map snd (renderCube WIDTH HEIGHT ASCII_RAMP rgbAt fuel V P cube' st)
  = option_map snd (renderCube WIDTH HEIGHT ASCII_RAMP rgbAt fuel V P cube st).
Proof.
  intros Hrot. unfold renderCube, cubeTransform, spin. cbn [rotation].
  rewrite Hrot.
  destruct (run_triangles _ _ _ _ _ _ _ _ _); reflexivity.
Qed.

(** C3 as stated fails: at a quarter turn on both axes the world matrix
    sends [(0, 1, 0)] to [(1, 0, 0)]; rotating about Y first and about X
    second, with the same two matrices, sends it to [(0, 0, -1)]. *)
Lemma world_not_Y_then_X :
  let RX := mat4.fromXRotation (PI / 2) in
  let RY := mat4.fromYRotation (PI / 2) in
  let p := mkVec3 0 1 0 in
  mat4.transformPoint (mat4.multiply RX RY) p = mkVec3 1 0 0 /\
  mat4.transformPoint RX (mat4.transformPoint RY p) = mkVec3 0 0 (-1) /\
  mat4.transformPoint (mat4.multiply RX RY) p
  <> mat4.transformPoint RX (mat4.transformPoint RY p).
Proof.
  cbv zeta.
  assert (H1 : mat4.transformPoint
                 (mat4.multiply (mat4.fromXRotation (PI / 2))
                                (mat4.fromYRotation (PI / 2))) (mkVec3 0 1 0)
               = mkVec3 1 0 0).
  { expand_matrices. rewrite cos_PI2, sin_PI2. f_equal; field; lra. }
  assert (H2 : mat4.transformPoint (mat4.fromXRotation (PI / 2))
                 (mat4.transformPoint (mat4.fromYRotation (PI / 2)) (mkVec3 0 1 0))
               = mkVec3 0 0 (-1)).
  { expand_matrices. rewrite cos_PI2, sin_PI2. f_equal; field; lra. }
  split; [exact H1|]. split; [exact H2|].
  rewrite H1, H2. intros H. apply (f_equal (@x R)) in H. cbn [x] in H. lra.
Qed.

End Rotation.

(** ** The view matrix and the order of the factors *)

Section View.
Local Open Scope R_scope.

Lemma normalize_R (v : Vec3 R) (len : R) :
  0 < len -> x v * x v + y v * y v + z v * z v = len * len ->
  vec3.normalize v = mkVec3 (x v / len) (y v / len) (z v / len).
Proof.
  intros Hlen Hsq. destruct v as [a b c].
  cbv [vec3.normalize x y z Math_sqrt add mul div lt num_of_Z real_number] in *.
  rewrite Hsq, sqrt_square by lra. now rewrite ltb_R_true.
Qed.

Ltac expand_vectors :=
  cbv [vec3.cross vec3.dot vec3.subtract vec3.create x y z
       position target up camera
       sub mul add opp div num_of_Z real_number].

(** The view matrix of the script's camera, in exact arithmetic. *)
Lemma viewMatrix_R :
  createViewMatrix (@camera R _) =
  [ -1; 0; 0; 0;
    0; 1; 0; 0;
    0; 0; -1; 0;
    0; 0; -5; 1 ].
Proof.
  assert (Hz : vec3.normalize
                 (vec3.subtract (position (@camera R _)) (target (@camera R _)))
               = mkVec3 0 0 (-1)).
  { rewrite (normalize_R _ 5); [|lra|expand_vectors; ring].
    expand_vectors. f_equal; field. }
  assert (Hx : vec3.normalize (vec3.cross (up (@camera R _)) (mkVec3 0 0 (-1)))
               = mkVec3 (-1) 0 0).
  { rewrite (normalize_R _ 1); [|lra|expand_vectors; ring].
    expand_vectors. f_equal; field. }
  unfold createViewMatrix. rewrite Hz, Hx. expand_vectors.
  repeat (f_equal; try ring).
Qed.

(** With the factors in the order [transformPoint] expects, world then
    view then projection, the origin has [w = 5] and lands on the centre
    of the screen, in exact arithmetic. *)
Lemma origin_centre_in_row_order (WIDTH HEIGHT : nat)
    (fov aspect near far : R) (n : Vec3 R) :
  let transform :=
    mat4.multiply (mat4.multiply mat4.create (createViewMatrix camera))
      (createProjectionMatrix fov aspect near far) in
  let tv := toScreen WIDTH HEIGHT transform
              (mkVertex (vec3.create 0 0 0) n) in
  x tv = IZR (Z.of_nat WIDTH) / 2 /\ y tv = IZR (Z.of_nat HEIGHT) / 2.
Proof.
  cbv zeta. rewrite viewMatrix_R.
  unfold createProjectionMatrix, projectionMatrix_of, toScreen, dec.
  cbv [mat4.transformPoint mat4.multiply mat4.create mat4.at_
       fold_left List.seq set_nth nth Nat.add Nat.mul vec3.create pos
       x y z Math_tan add mul div opp sub num_of_Z real_number real_trig].
  set (f := 1 / tan (fov / 2)). set (q := f / aspect).
  set (ri := 1 / (near - far)). clearbody f q ri.
  split; field.
Qed.

End View.

(** ** The transform of a cube, as the frame uses it *)

Section CubeOnScreen.
Local Open Scope R_scope.

(** The mean of a list of numbers. *)
Definition mean (l : list R) : R := fold_right Rplus 0 l / INR (List.length l).

(** The frame's view and projection matrices, in exact arithmetic. *)
Lemma projectionMatrix_R (WIDTH HEIGHT : nat) :
  createProjectionMatrix (Math_PI / #2)%num
    (#(Z.of_nat WIDTH) / #(Z.of_nat HEIGHT))%num (dec 1 10) (#100)%num
  = [ 1 / 1 / (IZR (Z.of_nat WIDTH) / IZR (Z.of_nat HEIGHT)); 0; 0; 0;
      0; 1 / 1; 0; 0;
      0; 0; (1 / 10 + 100) * (1 / (1 / 10 - 100)); - (1);
      0; 0; 1 / 10 * 100 * (1 / (1 / 10 - 100)) * 2; 0 ].
Proof.
  unfold createProjectionMatrix, projectionMatrix_of, dec.
  cbv [Math_tan Math_PI add mul div opp sub num_of_Z real_number real_trig].
  replace (PI / 2 / 2) with (PI / 4) by field. rewrite tan_PI4. reflexivity.
Qed.

(** Where the code puts a cube.  The vertices go through the projection
    first, then the view, then the two rotations, so the rotations swing
    the projected cube around the origin of clip space: the mean of the
    eight screen vertices is [(1/2 + k cos a sin b) * WIDTH] across and
    [(1/2 + k sin a) * HEIGHT] down, with [k = 2998 / 999], for the
    rotation [(a, b)] the cube has after its increment. *)
Lemma cube_screen_mean (WIDTH HEIGHT : nat) (a b : R) :
  (0 < WIDTH)%nat -> (0 < HEIGHT)%nat ->
  let M := mat4.multiply
             (createProjectionMatrix (Math_PI / #2)%num
                (#(Z.of_nat WIDTH) / #(Z.of_nat HEIGHT))%num (dec 1 10) (#100)%num)
             (mat4.multiply (createViewMatrix camera)
                (mat4.multiply (mat4.fromXRotation a) (mat4.fromYRotation b))) in
  let tvs := List.map (toScreen WIDTH HEIGHT M) (vertices cubeMesh) in
  mean (List.map (@x R) tvs)
  = (1 / 2 + 2998 / 999 * (cos a * sin b)) * IZR (Z.of_nat WIDTH) /\
  mean (List.map (@y R) tvs)
  = (1 / 2 + 2998 / 999 * sin a) * IZR (Z.of_nat HEIGHT).
Proof.
  intros HW HH. cbv zeta.
  rewrite projectionMatrix_R, viewMatrix_R.
  assert (Hw : 0 < IZR (Z.of_nat WIDTH)) by (apply IZR_lt; lia).
  assert (Hh : 0 < IZR (Z.of_nat HEIGHT)) by (apply IZR_lt; lia).
  unfold mean, toScreen, dec.
  cbv [cubeMesh vertices cubeMesh_vertices List.map List.length fold_right
       vec3.create pos
       mat4.transformPoint mat4.multiply mat4.fromXRotation mat4.fromYRotation
       mat4.create mat4.at_ fold_left List.seq set_nth nth Nat.add Nat.mul
       x y z Math_cos Math_sin add mul div opp sub num_of_Z
       real_number real_trig INR].
  set (W := IZR (Z.of_nat WIDTH)) in *. set (H := IZR (Z.of_nat HEIGHT)) in *.
  set (c := cos a). set (s := sin a). set (c' := cos b). set (s' := sin b).
  clearbody W H c s c' s'.
  split; field; lra.
Qed.

End CubeOnScreen.
(** C3 on the code as written.  What a cube sends to [drawPixel] is the
    fragment stream of the mesh under
    [multiply(projection, multiply(view, multiply(RX, RY)))], with the two
    rotation matrices of the rotation the cube has after its increment:
    neither its position nor its scale takes part.  [transformPoint]
    applies the left factor of a product first, so within the world matrix
    the rotation about X comes before the one about Y, and the projection
    comes before everything else: the rotations turn the projected cube
    about the origin of clip space, and the mean of its eight screen
    vertices is [((1/2 + k cos a sin b) * WIDTH, (1/2 + k sin a) * HEIGHT)]
    with [k = 2998 / 999], not the centre of the screen.  In the sample
    frame (rotation [(0.5, 0.25)] on a 24 by 12 grid, on doubles) none of
    the 370 fragments of the cube addresses a cell and the frame stays
    blank. *)
Theorem cube_drawn_off_centre :
  (forall (N : Type) (num : Number N) (trig : Trig N) (WIDTH HEIGHT : nat)
          ASCII_RAMP rgbAt fuel (V P : Mat4 N) (cube cube' : Cube N)
          (st st' : Buffers N),
     renderCube WIDTH HEIGHT ASCII_RAMP rgbAt fuel V P cube st = Some (cube', st') ->
     let RX := mat4.fromXRotation (x (rotation cube) + dec 1 100)%num in
     let RY := mat4.fromYRotation (y (rotation cube) + dec 1 100)%num in
     exists f,
       transform_fragments WIDTH HEIGHT fuel
         (mat4.multiply P (mat4.multiply V (mat4.multiply RX RY))) = Some f /\
       calls st' = rev f ++ calls st) /\
  (forall (ax ay : R) (p : Vec3 R),
     mat4.transformPoint
       (mat4.multiply (mat4.fromXRotation ax) (mat4.fromYRotation ay)) p
     = mat4.transformPoint (mat4.fromYRotation ay)
         (mat4.transformPoint (mat4.fromXRotation ax) p)) /\
  (forall (WIDTH HEIGHT : nat) (a b : R),
     (0 < WIDTH)%nat -> (0 < HEIGHT)%nat ->
     let M := mat4.multiply
                (createProjectionMatrix (Math_PI / #2)%num
                   (#(Z.of_nat WIDTH) / #(Z.of_nat HEIGHT))%num (dec 1 10) (#100)%num)
                (mat4.multiply (createViewMatrix camera)
                   (mat4.multiply (mat4.fromXRotation a) (mat4.fromYRotation b))) in
     let tvs := List.map (toScreen WIDTH HEIGHT M) (vertices cubeMesh) in
     mean (List.map (@x R) tvs)
     = (1 / 2 + 2998 / 999 * (cos a * sin b)) * IZR (Z.of_nat WIDTH) /\
     mean (List.map (@y R) tvs)
     = (1 / 2 + 2998 / 999 * sin a) * IZR (Z.of_nat HEIGHT))%R /\
  (exists scene' st,
     sample_frame = Some (scene', st) /\
     List.length (calls st) = 370%nat /\
     (forall f, In f (calls st) -> fragment_cell 24 12 f = None) /\
     frameBuffer st = repeat Blank (24 * 12)).
Proof.
  split; [|split; [|split]].
  - intros N num trig WIDTH HEIGHT ASCII_RAMP rgbAt fuel V P cube cube' st st' H.
    exact (renderCube_fragments WIDTH HEIGHT ASCII_RAMP rgbAt fuel V P
             cube cube' st st' H).
  - exact world_applies_X_then_Y.
  - exact cube_screen_mean.
  - destruct sample_frame as [[scene' st]|] eqn:E;
      [|vm_compute in E; discriminate E].
    exists scene', st. split; [reflexivity|].
    vm_compute in E. injection E as _ <-.
    split; [reflexivity|]. split; [|reflexivity].
    match goal with
    | |- forall f, In f ?log -> _ =>
        assert (Hb : forallb (fun f => match fragment_cell 24 12 f with
                                       | None => true
                                       | Some _ => false
                                       end) log = true)
          by (vm_compute; reflexivity);
        intros f Hf; rewrite forallb_forall in Hb; specialize (Hb f Hf)
    end.
    destruct (fragment_cell 24 12 f); [discriminate|reflexivity].
Qed.

(** ** Integers in exact arithmetic *)

Section ExactIntegers.
Local Open Scope R_scope.

Lemma to_Z_IZR (a : R) (n : Z) : Exact.to_Z a = Some n <-> a = IZR n.
Proof.
  unfold Exact.to_Z. destruct (Req_dec_T a (IZR (Zfloor a))) as [E|E]; split.
  - intros [= <-]. exact E.
  - intros ->. now rewrite ZfloorZ.
  - discriminate.
  - intros ->. rewrite ZfloorZ in E. contradiction.
Qed.


Lemma ltb_IZR m n : Exact.ltb (IZR m) (IZR n) = (m <? n)%Z.
Proof.
  unfold Exact.ltb. destruct (Rlt_dec (IZR m) (IZR n)) as [H|H];
    destruct (Z.ltb_spec m n) as [H'|H']; try reflexivity.
  - apply lt_IZR in H. lia.
  - apply IZR_lt in H'. contradiction.
Qed.

Lemma leb_IZR m n : Exact.leb (IZR m) (IZR n) = (m <=? n)%Z.
Proof.
  unfold Exact.leb. destruct (Rle_dec (IZR m) (IZR n)) as [H|H];
    destruct (Z.leb_spec m n) as [H'|H']; try reflexivity.
  - apply le_IZR in H. lia.
  - apply IZR_le in H'. contradiction.
Qed.

Lemma eqb_IZR m n : Exact.eqb (IZR m) (IZR n) = (m =? n)%Z.
Proof.
  unfold Exact.eqb. destruct (Req_dec_T (IZR m) (IZR n)) as [H|H];
    destruct (Z.eqb_spec m n) as [H'|H']; try reflexivity.
  - apply eq_IZR in H. contradiction.
  - subst. contradiction.
Qed.

End ExactIntegers.

#[export] Instance real_integers : IntegerLaws R (fun _ => True).
Proof.
  split; try (intros; exact I); cbn [to_int num_of_Z add sub mul opp lt le seq
                                      Math_abs real_number].
  - intros n _. now apply to_Z_IZR.
  - intros a b m n Ha Hb _ _ _. apply to_Z_IZR in Ha, Hb. subst.
    apply to_Z_IZR. now rewrite plus_IZR.
  - intros a b m n Ha Hb _ _ _. apply to_Z_IZR in Ha, Hb. subst.
    apply to_Z_IZR. now rewrite minus_IZR.
  - intros a b m n Ha Hb _ _ _. apply to_Z_IZR in Ha, Hb. subst.
    apply to_Z_IZR. now rewrite mult_IZR.
  - intros a m Ha _. apply to_Z_IZR in Ha. subst.
    apply to_Z_IZR. now rewrite opp_IZR.
  - intros a m Ha _. apply to_Z_IZR in Ha. subst.
    apply to_Z_IZR. now rewrite abs_IZR.
  - intros a b m n Ha Hb _ _. apply to_Z_IZR in Ha, Hb. subst. apply ltb_IZR.
  - intros a b m n Ha Hb _ _. apply to_Z_IZR in Ha, Hb. subst. apply leb_IZR.
  - intros a b m n Ha Hb _ _. apply to_Z_IZR in Ha, Hb. subst. apply eqb_IZR.
Qed.

(** ** Depths along a line *)

Section DepthAlongLine.
Local Open Scope R_scope.
Variable WIDTH HEIGHT : nat.







Lemma init_start (ix0 iy0 ix1 iy1 : Z) :
  let c := fst (ZLine.init ix0 iy0 ix1 iy1) in
  (ZLine.X1 c - ZLine.SX c * ZLine.DX c = ix0 /\
   ZLine.Y1 c - ZLine.SY c * ZLine.DY c = iy0)%Z.
Proof.
  unfold ZLine.init. cbn [fst ZLine.X1 ZLine.Y1 ZLine.SX ZLine.SY ZLine.DX ZLine.DY].
  destruct (Z.ltb_spec ix0 ix1), (Z.ltb_spec iy0 iy1); lia.
Qed.






End DepthAlongLine.






(** ** Doubles: a product with a factor at most 1 *)

Module DoubleBelow.
Import DoubleInt.
Local Open Scope Z_scope.

Lemma shr_1_m mrs : 0 <= shr_m mrs ->
  shr_m (shr_1 mrs) = shr_m mrs / 2 /\ 0 <= shr_m (shr_1 mrs).
Proof.
  destruct mrs as [m r s]. cbn [shr_m]. intros Hm.
  destruct m as [|[p|p|]|]; try lia; cbn [shr_1 shr_m].
  - split; [reflexivity|lia].
  - split; [|lia]. rewrite (Pos2Z.inj_xI p).
    apply Z.div_unique with 1; lia.
  - split; [|lia]. rewrite (Pos2Z.inj_xO p).
    apply Z.div_unique with 0; lia.
  - split; [reflexivity|lia].
Qed.

Lemma iter_shr_m p : forall mrs, 0 <= shr_m mrs ->
  shr_m (SpecFloat.iter_pos shr_1 p mrs) = shr_m mrs / 2 ^ Zpos p /\
  0 <= shr_m (SpecFloat.iter_pos shr_1 p mrs).
Proof.
  induction p as [p IH|p IH|]; intros mrs Hm; cbn [SpecFloat.iter_pos].
  - destruct (shr_1_m mrs Hm) as [E1 P1].
    destruct (IH _ P1) as [E2 P2]. destruct (IH _ P2) as [E3 P3].
    split; [|assumption]. rewrite E3, E2, E1.
    rewrite !Z.div_div by (try apply pow2_pos; lia).
    f_equal. rewrite (Pos2Z.inj_xI p).
    replace (2 * Zpos p + 1) with (1 + Zpos p + Zpos p) by lia.
    rewrite !Z.pow_add_r by lia. change (2 ^ 1) with 2. ring.
  - destruct (IH _ Hm) as [E2 P2]. destruct (IH _ P2) as [E3 P3].
    split; [|assumption]. rewrite E3, E2.
    rewrite !Z.div_div by (try apply pow2_pos; lia).
    f_equal. rewrite (Pos2Z.inj_xO p).
    replace (2 * Zpos p) with (Zpos p + Zpos p) by lia.
    rewrite !Z.pow_add_r by lia. ring.
  - apply shr_1_m. assumption.
Qed.

(** A shift right: the mantissa is divided, and nothing is lost when the
    division is exact. *)
Lemma shr_gen m e n : 0 <= m ->
  exists mrs, shr (Build_shr_record m false false) e n = (mrs, e + Z.max n 0) /\
    shr_m mrs = m / 2 ^ Z.max n 0 /\
    (m mod 2 ^ Z.max n 0 = 0 -> loc_of_shr_record mrs = loc_Exact).
Proof.
  intros Hm. destruct n as [|p|p]; unfold shr.
  - eexists. split; [now rewrite Z.add_0_r|].
    split; [now rewrite Z.div_1_r|reflexivity].
  - replace (Z.max (Zpos p) 0) with (Zpos p) by lia.
    eexists. split; [reflexivity|]. split.
    + now destruct (iter_shr_m p (Build_shr_record m false false) Hm).
    + intros Hmod. now rewrite iter_shr_exact.
  - replace (Z.max (Zneg p) 0) with 0 by lia.
    eexists. split; [now rewrite Z.add_0_r|].
    split; [now rewrite Z.div_1_r|reflexivity].
Qed.

Lemma rne_bounds m l : m <= round_nearest_even m l <= m + 1.
Proof.
  destruct l as [|[| |]]; cbn [round_nearest_even]; try lia.
  destruct (Z.even m); lia.
Qed.


(** Rounding a positive mantissa that stays under [W * 2 ^ j]: so does the
    result, which is a zero or a finite double, never an infinity. *)
Lemma binary_round_aux_below (P : positive) e W j :
  0 <= j -> 0 < W < 2 ^ 53 -> Zpos P <= W * 2 ^ j ->
  fexp prec emax (digits P + e) - e <= j -> e + j <= 971 ->
  binary_round_aux prec emax false (Zpos P) e loc_Exact = S754_zero false \/
  exists M K,
    binary_round_aux prec emax false (Zpos P) e loc_Exact
    = S754_finite false M (e + K) /\
    0 <= K <= j /\ Zpos M * 2 ^ K <= W * 2 ^ j.
Proof.
  intros Hj HW HP Hk Hmax.
  unfold binary_round_aux, shr_fexp. cbn [Zdigits2 shr_record_of_loc].
  fold (digits P). set (k := fexp prec emax (digits P + e) - e) in *.
  destruct (shr_gen (Zpos P) e k ltac:(lia)) as (mrs & E1 & Hm1 & Hex1).
  rewrite E1. set (k1 := Z.max k 0) in *.
  assert (Hk1 : 0 <= k1 <= j) by (unfold k1; lia).
  pose proof (pow2_pos k1 ltac:(lia)) as Pk1.
  set (M1 := round_nearest_even (shr_m mrs) (loc_of_shr_record mrs)).
  pose proof (rne_bounds (shr_m mrs) (loc_of_shr_record mrs)) as HM1. fold M1 in HM1.
  assert (Hfexp : -1074 <= e + k1).
  { unfold k1, k. rewrite fexp_eq. lia. }
  assert (Hdig : digits P <= k1 + 53).
  { unfold k1, k. rewrite fexp_eq. lia. }
  assert (Hm1lt : shr_m mrs < 2 ^ 53).
  { rewrite Hm1. apply Z.div_lt_upper_bound; [lia|].
    rewrite <- Z.pow_add_r by lia.
    apply Z.lt_le_trans with (2 ^ digits P); [apply digits_bounds|].
    apply Z.pow_le_mono_r; lia. }
  assert (Hm1pos : 0 <= shr_m mrs) by (rewrite Hm1; apply Z.div_pos; lia).
  assert (HWj : W * 2 ^ j = W * 2 ^ (j - k1) * 2 ^ k1).
  { rewrite <- Z.mul_assoc, <- Z.pow_add_r by lia. do 2 f_equal. lia. }
  pose proof (pow2_pos (j - k1) ltac:(lia)) as Pjk.
  assert (HM1le : M1 * 2 ^ k1 <= W * 2 ^ j).
  { pose proof (Z.div_mod (Zpos P) (2 ^ k1) ltac:(lia)) as Hdm.
    pose proof (Z.mod_pos_bound (Zpos P) (2 ^ k1) Pk1) as Hmb.
    rewrite <- Hm1 in Hdm.
    destruct (Z.eq_dec (Zpos P mod 2 ^ k1) 0) as [Hz|Hnz].
    - assert (EM1 : M1 = shr_m mrs) by (unfold M1; now rewrite (Hex1 Hz)).
      rewrite EM1. nia.
    - rewrite HWj in *.
      assert (shr_m mrs < W * 2 ^ (j - k1)) by nia.
      nia. }
  set (e1 := e + k1) in *.
  set (k2 := fexp prec emax (Zdigits2 M1 + e1) - e1).
  destruct (shr_gen M1 e1 k2 ltac:(lia)) as (mrs2 & E2 & Hm2 & _).
  change (Build_shr_record M1 false false) with (shr_record_of_loc M1 loc_Exact) in E2.
  cbn [shr_record_of_loc] in E2 |- *. fold k2. rewrite E2.
  set (k3 := Z.max k2 0) in *.
  assert (Hk3 : 0 <= k3 <= 1 /\ (k3 = 1 -> 2 ^ 53 <= M1)).
  { unfold k3, k2. rewrite fexp_eq.
    destruct M1 as [|q|q] eqn:EM1; cbn [Zdigits2]; [lia| |lia].
    fold (digits q).
    assert (Hq : digits q <= 54).
    { apply digits_lt_pow. change (2 ^ 54) with (2 * 2 ^ 53). lia. }
    split; [lia|]. intros Hk3.
    assert (Hd54 : digits q = 54) by lia.
    pose proof (digits_bounds q) as [Hlo _]. rewrite Hd54 in Hlo.
    exact Hlo. }
  destruct Hk3 as [Hk3 Hk3one].
  pose proof (pow2_pos k3 ltac:(lia)) as Pk3.
  assert (HK : k1 + k3 <= j).
  { destruct (Z.eq_dec k3 1) as [H1|H1]; [|lia].
    specialize (Hk3one H1).
    assert (2 ^ k1 < 2 ^ j) by nia.
    apply Z.pow_lt_mono_r_iff in H; lia. }
  assert (HM : shr_m mrs2 * 2 ^ (k1 + k3) <= W * 2 ^ j).
  { rewrite Hm2, Z.pow_add_r by lia.
    pose proof (Z.mul_div_le M1 (2 ^ k3) Pk3). nia. }
  cbn [fst snd].
  destruct (shr_m mrs2) as [|M|M] eqn:EM.
  - left. reflexivity.
  - right. exists M, (k1 + k3).
    replace (e1 + k3) with (e + (k1 + k3)) by (unfold e1; lia).
    destruct (Z.leb_spec (e + (k1 + k3)) (emax - prec)) as [Hle|Hgt].
    + split; [reflexivity|]. split; [lia|exact HM].
    + change (emax - prec) with 971 in Hgt. lia.
  - exfalso. pose proof (Z.div_pos M1 (2 ^ k3) ltac:(lia) Pk3). lia.
Qed.


Lemma valid_exponent s m e :
  valid_binary (S754_finite s m e) = true -> -1074 <= e <= 971.
Proof.
  unfold valid_binary, SpecFloat.valid_binary, SpecFloat.bounded,
    SpecFloat.canonical_mantissa.
  rewrite fexp_eq. intros Hv. apply andb_prop in Hv. destruct Hv as [Hc He].
  apply Z.eqb_eq in Hc. apply Z.leb_le in He.
  change (emax - prec) with 971 in He. lia.
Qed.

(** The product of a positive double at most [1] and a positive double
    [y] is at most [y]. *)
Lemma SFmul_below mI eI mm em :
  valid_binary (S754_finite false mI eI) = true ->
  valid_binary (S754_finite false mm em) = true ->
  eI <= 0 -> Zpos mI <= 2 ^ (- eI) ->
  SF64mul (S754_finite false mI eI) (S754_finite false mm em) = S754_zero false \/
  exists M K,
    SF64mul (S754_finite false mI eI) (S754_finite false mm em)
    = S754_finite false M (eI + em + K) /\
    0 <= K <= - eI /\ Zpos M * 2 ^ K <= Zpos mm * 2 ^ (- eI).
Proof.
  intros HvI Hvm HeI HmI. unfold SF64mul. cbn [SFmul xorb].
  change IntDef.Z.add with Z.add.
  pose proof (valid_digits _ _ _ Hvm) as Hdm.
  pose proof (valid_exponent _ _ _ Hvm) as Hem.
  pose proof (digits_bounds mm) as [_ Hmm].
  assert (Hmm53 : Zpos mm < 2 ^ 53).
  { apply Z.lt_le_trans with (2 ^ digits mm); [assumption|].
    apply Z.pow_le_mono_r; pose proof (digits_pos mm); lia. }
  pose proof (pow2_pos (- eI) ltac:(lia)) as PeI.
  assert (HP : Zpos (mI * mm) <= Zpos mm * 2 ^ (- eI)).
  { rewrite Pos2Z.inj_mul. nia. }
  assert (Hdig : digits (mI * mm) <= 53 - eI).
  { apply digits_lt_pow. replace (53 - eI) with (- eI + 53) by lia.
    rewrite Z.pow_add_r by lia. rewrite Pos2Z.inj_mul. nia. }
  apply (binary_round_aux_below (mI * mm) (eI + em) (Zpos mm) (- eI));
    try lia.
  rewrite fexp_eq. lia.
Qed.

(** [Math.floor] of a positive finite double. *)
Lemma floor_positive (x : float) M E :
  Prim2SF x = S754_finite false M E ->
  Double.to_Z (Double.floor x)
  = Some (if 0 <=? E then Zpos M * 2 ^ E else Zpos M / 2 ^ (- E)).
Proof.
  intros Hx. pose proof (Prim2SF_valid x) as Hv. rewrite Hx in Hv.
  unfold Double.to_Z, Double.floor. rewrite Hx.
  destruct (SFint_is_int false _ Hv I) as [Hv' _].
  rewrite Prim2SF_SF2Prim by assumption.
  unfold Double.SFint. destruct (Z.leb_spec 0 E) as [HE|HE].
  - unfold Double.SFto_Z. destruct (Z.leb_spec 0 E); [reflexivity|lia].
  - cbn [cond_Zopp]. set (n := Zpos M / 2 ^ (- E)).
    pose proof (pow2_pos (- E) ltac:(lia)) as PE.
    assert (Hn : 0 <= n) by (apply Z.div_pos; lia).
    destruct (Z.eqb_spec n 0) as [Hz|Hz]; [now rewrite Hz|].
    apply is_int_to_Z. apply normalize_int; [lia|simpl; ring|].
    pose proof (valid_digits _ _ _ Hv) as Hd.
    pose proof (digits_bounds M) as [_ HM].
    assert (2 ^ digits M <= 2 ^ 53)
      by (apply Z.pow_le_mono_r; pose proof (digits_pos M); lia).
    assert (n <= Zpos M).
    { unfold n. apply Z.div_le_upper_bound; [lia|]. nia. }
    lia.
Qed.

End DoubleBelow.

(** ** The glyph of an intensity *)

Section GlyphRange.
Import DoubleInt DoubleBelow.
Local Open Scope Z_scope.

Lemma get_in_range (s : string) : forall k,
  (k < String.length s)%nat -> exists c, String.get k s = Some c.
Proof.
  induction s as [|a s IH]; intros [|k] Hk; simpl in *; try lia; eauto.
  apply IH. lia.
Qed.

(** A double above [0] and at most [1]. *)
Lemma at_most_one (I : float) :
  (I >? #0)%num = true -> (I <=? #1)%num = true ->
  exists mI eI, Prim2SF I = S754_finite false mI eI /\
                eI <= 0 /\ Zpos mI <= 2 ^ (- eI).
Proof.
  cbn [lt le float_number num_of_Z]. rewrite ltb_spec, leb_spec.
  assert (E0 : Prim2SF (Double.of_Z 0) = S754_zero false) by reflexivity.
  assert (E1 : Prim2SF (Double.of_Z 1)
               = S754_finite false 4503599627370496 (-52)) by reflexivity.
  rewrite E0, E1. pose proof (Prim2SF_valid I) as Hv.
  destruct (Prim2SF I) as [s|s| |s m e]; try discriminate.
  - destruct s; discriminate.
  - destruct s; [discriminate|]. intros _.
    unfold SFleb, SFcompare.
    pose proof (valid_digits _ _ _ Hv) as Hd.
    pose proof (digits_bounds m) as [_ Hm].
    assert (2 ^ digits m <= 2 ^ 53)
      by (apply Z.pow_le_mono_r; pose proof (digits_pos m); lia).
    destruct (Z.compare_spec e (-52)) as [He|He|He]; try discriminate.
    + subst e. intros Hc. exists m, (-52). split; [reflexivity|]. split; [lia|].
      assert (Hcc : forall a b, PosDef.Pos.compare_cont Eq a b = Pos.compare a b)
        by reflexivity.
      rewrite Hcc in Hc.
      change (2 ^ (- (-52))) with 4503599627370496.
      destruct (Pos.compare_spec m 4503599627370496) as [Heq|Hlt|Hgt].
      * rewrite Heq. apply Z.le_refl.
      * apply Z.lt_le_incl. exact (Pos2Z.pos_lt_pos _ _ Hlt).
      * discriminate Hc.
    + intros _. exists m, e. split; [reflexivity|]. split; [lia|].
      apply Z.le_trans with (2 ^ 53); [lia|].
      apply Z.pow_le_mono_r; lia.
Qed.

(** The index of the glyph is within the ramp. *)
Lemma glyph_index (len : Z) (I : float) :
  1 <= len < 2 ^ 53 ->
  (I >? #0)%num = true -> (I <=? #1)%num = true ->
  exists k, to_int (Math_floor (I * (#len - #1))%num) = Some k /\ 0 <= k < len.
Proof.
  intros Hlen Hpos Hle.
  destruct (at_most_one I Hpos Hle) as (mI & eI & HI & HeI & HmI).
  pose proof (Prim2SF_valid I) as HvI. rewrite HI in HvI.
  assert (Sl : safe len) by (unfold safe; lia).
  assert (S1 : safe 1) by (unfold safe; lia).
  assert (Sm : safe (len - 1)) by (unfold safe; lia).
  pose proof (sub_exact _ _ _ _ (of_Z_exact len Sl) (of_Z_exact 1 S1) Sl S1 Sm)
    as Hsub.
  cbn [to_int Math_floor mul sub num_of_Z float_number].
  set (y := (Double.of_Z len - Double.of_Z 1)%float) in *.
  pose proof (to_Z_int y _ Hsub Sm) as Hy.
  pose proof (Prim2SF_valid y) as Hvy.
  destruct Hy as [[Hz [s Hs]]|(s & p & Hn & Hp & Hs)].
  - (* the ramp has one glyph *)
    exists 0. split; [|lia].
    unfold Double.to_Z, Double.floor. rewrite mul_spec, HI, Hs.
    cbn [SF64mul SFmul]. cbn [Double.SFint].
    rewrite Prim2SF_SF2Prim by reflexivity. reflexivity.
  - destruct s; [cbn [cond_Zopp] in Hn; lia|]. cbn [cond_Zopp] in Hn.
    destruct (canon_exponent false p Hp) as (mm & Hcanon & Hmm).
    rewrite Hcanon in Hs. rewrite Hs in Hvy.
    pose proof (mul_spec I y) as Hmul. rewrite HI, Hs in Hmul.
    destruct (SFmul_below mI eI mm (digits p - 53) HvI Hvy HeI HmI)
      as [Hzero|(M & K & Hfin & HK & Hbound)].
    + exists 0. split; [|lia].
      unfold Double.to_Z, Double.floor. rewrite Hmul, Hzero.
      cbn [Double.SFint]. rewrite Prim2SF_SF2Prim by reflexivity. reflexivity.
    + rewrite Hfin in Hmul. rewrite (floor_positive _ _ _ Hmul).
      eexists. split; [reflexivity|].
      pose proof (digits_pos p) as Hdp.
      clear - Hlen Hn Hp HK Hbound Hmm HeI Hdp.
      set (a := - eI) in *. set (d := 53 - digits p) in *.
      set (t := a + d - K).
      assert (Ht : 0 <= t) by (unfold t, d; lia).
      replace (eI + (digits p - 53) + K) with (- t) by (unfold t, a, d; lia).
      rewrite Z.opp_involutive.
      pose proof (pow2_pos K ltac:(lia)) as PK.
      pose proof (pow2_pos t Ht) as Pt.
      assert (Hpow : 2 ^ d * 2 ^ a = 2 ^ t * 2 ^ K).
      { rewrite <- !Z.pow_add_r by (unfold d; lia). f_equal. unfold t. lia. }
      assert (HM : Zpos M <= Zpos p * 2 ^ t).
      { apply Z.mul_le_mono_pos_r with (2 ^ K); [assumption|].
        rewrite Hmm in Hbound.
        replace (Zpos p * 2 ^ t * 2 ^ K) with (Zpos p * (2 ^ t * 2 ^ K)) by ring.
        rewrite <- Hpow.
        replace (Zpos p * (2 ^ d * 2 ^ a)) with (Zpos p * 2 ^ d * 2 ^ a) by ring.
        exact Hbound. }
      destruct (Z.leb_spec 0 (- t)) as [Hle0|Hlt0].
      * assert (t = 0) by lia. subst t.
        replace (a + d - K) with 0 in * by lia.
        change (- 0) with 0. rewrite Z.pow_0_r in *. lia.
      * split.
        -- apply Z.div_pos; lia.
        -- apply Z.le_lt_trans with (Zpos p); [|lia].
           apply Z.div_le_upper_bound; [assumption|].
           rewrite Z.mul_comm. exact HM.
Qed.

Lemma glyph_some (ramp : string) (I : float) :
  ramp <> EmptyString -> Z.of_nat (String.length ramp) < 2 ^ 53 ->
  (I >? #0)%num = true -> (I <=? #1)%num = true ->
  exists c, glyph ramp I = Some c.
Proof.
  intros Hne Hlen Hpos Hle.
  assert (H1 : 1 <= Z.of_nat (String.length ramp)).
  { destruct ramp; [contradiction|]. cbn [String.length]. lia. }
  destruct (glyph_index _ I (conj H1 Hlen) Hpos Hle) as (k & Hk & Hrange).
  unfold glyph, sget, element. rewrite Hk.
  destruct (Z.leb_spec 0 k); [|lia].
  destruct (Z.ltb_spec k (Z.of_nat (String.length ramp))); [|lia].
  cbn [andb]. apply get_in_range. lia.
Qed.

(** The ramp is the default one unless a non-empty one is given. *)
Lemma customAsciiRamp_not_empty (args : list string) :
  customAsciiRamp args <> EmptyString.
Proof.
  unfold customAsciiRamp.
  destruct (indexOf "--ascii" args) as [k|]; [|discriminate].
  destruct (nth_error args (k + 1)) as [[|a s]|]; cbn [truthy]; discriminate.
Qed.

Lemma customAsciiRamp_default (args : list string) k :
  indexOf "--ascii" args = Some k ->
  nth_error args (k + 1) = Some EmptyString \/ nth_error args (k + 1) = None ->
  customAsciiRamp args = default_ramp.
Proof.
  unfold customAsciiRamp. intros -> [-> | ->]; reflexivity.
Qed.

(** The faces of the cube have an intensity of at most [1]. *)
Lemma cube_intensities i i1 i2 i3 (v1 v2 v3 : Vertex float) :
  In i (triangle_starts (List.length (indices (@cubeMesh float _)))) ->
  nth_error (indices cubeMesh) i = Some i1 ->
  nth_error (indices cubeMesh) (i + 1) = Some i2 ->
  nth_error (indices cubeMesh) (i + 2) = Some i3 ->
  nth_error (vertices cubeMesh) i1 = Some v1 ->
  nth_error (vertices cubeMesh) i2 = Some v2 ->
  nth_error (vertices cubeMesh) i3 = Some v3 ->
  (faceIntensity v1 v2 v3 <=? #1)%num = true.
Proof.
  intros Hin. vm_compute in Hin.
  repeat (destruct Hin as [<-|Hin]; [intros [= <-] [= <-] [= <-];
    intros [= <-] [= <-] [= <-]; vm_compute; reflexivity|]).
  contradiction.
Qed.

End GlyphRange.

(** C8, as the code has it.  The ramp in use is never empty: an empty or
    missing [--ascii] value leaves the default ramp in place and nothing is
    rejected.  For every ramp (its length is below [2^53]) and every
    intensity above [0] and at most [1], the index
    [floor(intensity * (length - 1))] is an integer within the ramp and the
    lookup yields a glyph; the lit faces of the cube have such an
    intensity. *)
Theorem glyph_index_in_range (args : list string) :
  let ASCII_RAMP := customAsciiRamp args in
  (Z.of_nat (String.length ASCII_RAMP) < 2 ^ 53)%Z ->
  ASCII_RAMP <> EmptyString /\
  (forall k, indexOf "--ascii" args = Some k ->
     nth_error args (k + 1) = Some EmptyString \/ nth_error args (k + 1) = None ->
     ASCII_RAMP = default_ramp) /\
  (forall intensity : float,
     (intensity >? #0)%num = true -> (intensity <=? #1)%num = true ->
     exists k c,
       to_int (Math_floor
                 (intensity * (#(Z.of_nat (String.length ASCII_RAMP)) - #1))%num)
       = Some k /\
       (0 <= k < Z.of_nat (String.length ASCII_RAMP))%Z /\
       glyph ASCII_RAMP intensity = Some c) /\
  (forall i i1 i2 i3 (v1 v2 v3 : Vertex float),
     In i (triangle_starts (List.length (indices (@cubeMesh float _)))) ->
     nth_error (indices cubeMesh) i = Some i1 ->
     nth_error (indices cubeMesh) (i + 1) = Some i2 ->
     nth_error (indices cubeMesh) (i + 2) = Some i3 ->
     nth_error (vertices cubeMesh) i1 = Some v1 ->
     nth_error (vertices cubeMesh) i2 = Some v2 ->
     nth_error (vertices cubeMesh) i3 = Some v3 ->
     (faceIntensity v1 v2 v3 >? #0)%num = true ->
     exists c, glyph ASCII_RAMP (faceIntensity v1 v2 v3) = Some c).
Proof.
  intros ASCII_RAMP Hlen.
  pose proof (customAsciiRamp_not_empty args) as Hne. fold ASCII_RAMP in Hne.
  assert (H1 : (1 <= Z.of_nat (String.length ASCII_RAMP))%Z).
  { destruct ASCII_RAMP; [contradiction|]. cbn [String.length]. lia. }
  split; [exact Hne|]. split; [exact (customAsciiRamp_default args)|]. split.
  - intros intensity Hpos Hle.
    destruct (glyph_index _ intensity (conj H1 Hlen) Hpos Hle) as (k & Hk & Hr).
    destruct (glyph_some ASCII_RAMP intensity Hne Hlen Hpos Hle) as [c Hc].
    exists k, c. split; [exact Hk|]. split; [exact Hr|exact Hc].
  - intros i i1 i2 i3 v1 v2 v3 Hin E1 E2 E3 V1 V2 V3 Hpos.
    apply glyph_some; try assumption.
    exact (cube_intensities i i1 i2 i3 v1 v2 v3 Hin E1 E2 E3 V1 V2 V3).
Qed.

(** [--ascii] followed by an empty argument. *)
Definition empty_ramp_args : list string := ["--ascii"%string; EmptyString].

(** C8 as stated fails: the empty ramp is not rejected.  The script takes
    the default ramp instead and renders its frames with it. *)
Lemma empty_ramp_not_rejected :
  indexOf "--ascii" empty_ramp_args = Some 0%nat /\
  nth_error empty_ramp_args 1 = Some EmptyString /\
  customAsciiRamp empty_ramp_args = default_ramp /\
  @renderFrame float _ 24 12 (customAsciiRamp empty_ramp_args) sample_rgbAt
     series_trig _ 100 sample_scene = sample_frame /\
  sample_frame <> None.
Proof.
  split; [reflexivity|]. split; [reflexivity|]. split; [reflexivity|].
  split.
  - change (customAsciiRamp empty_ramp_args) with default_ramp.
    unfold sample_frame. reflexivity.
  - destruct sample_frame as [frame|] eqn:E; [discriminate|].
    vm_compute in E. discriminate E.
Qed.

Lemma glyph_index_in_range_witness :
  customAsciiRamp empty_ramp_args <> EmptyString /\
  exists c, glyph (customAsciiRamp empty_ramp_args) 0.5%float = Some c.
Proof.
  destruct (glyph_index_in_range empty_ramp_args) as (Hne & _ & Hg & _).
  - vm_compute. reflexivity.
  - split; [exact Hne|].
    destruct (Hg 0.5%float) as (k & c & _ & _ & Hc); try reflexivity.
    exists c. exact Hc.
Defined.


(* ================================================================= *)
(** * Further properties of the engine *)

(** ** Matrices in exact arithmetic *)

Section MatrixAlgebra.
Local Open Scope R_scope.

(** The homogeneous coordinate [w] of [transformPoint]. *)
Definition homogeneous_w {N : Type} {num : Number N} (m : Mat4 N) (p : Vec3 N) : N :=
  (mat4.at_ m 3 * x p + mat4.at_ m 7 * y p + mat4.at_ m 11 * z p + mat4.at_ m 15)%num.

Ltac sixteen A :=
  do 16 (destruct A as [|? A]; [discriminate|]); destruct A; [|discriminate].

Ltac expand_mat4 :=
  cbv [mat4.transformPoint mat4.multiply mat4.fromXRotation mat4.fromYRotation
       mat4.fromZRotation mat4.fromTranslation homogeneous_w
       mat4.create mat4.at_ fold_left List.seq set_nth nth Nat.add Nat.mul
       vec3.add vec3.dot norm
       x y z Math_cos Math_sin Math_sqrt add mul div opp sub num_of_Z
       real_number real_trig].

Lemma multiply_length {N : Type} {num : Number N} (a b : Mat4 N) :
  List.length (mat4.multiply a b) = 16%nat.
Proof.
  unfold mat4.multiply. cbn [List.seq fold_left].
  rewrite !set_nth_length. reflexivity.
Qed.

(** [multiply] on 16-entry matrices is associative, with [create()] (the
    identity) neutral on both sides, in exact arithmetic; its result always
    has 16 entries. *)
Theorem multiply_monoid (A B C : Mat4 R) :
  List.length A = 16%nat -> List.length B = 16%nat -> List.length C = 16%nat ->
  mat4.multiply (mat4.multiply A B) C = mat4.multiply A (mat4.multiply B C) /\
  mat4.multiply mat4.create A = A /\ mat4.multiply A mat4.create = A /\
  List.length (mat4.multiply A B) = 16%nat.
Proof.
  intros HA HB HC. split; [|split; [|split]].
  - sixteen A. sixteen B. sixteen C.
    expand_mat4. repeat (f_equal; try ring).
  - sixteen A. expand_mat4. repeat (f_equal; try ring).
  - sixteen A. expand_mat4. repeat (f_equal; try ring).
  - apply multiply_length.
Qed.

(** [transformPoint] of a product is [transformPoint] of the right factor
    after [transformPoint] of the left factor, as long as neither
    perspective divide is by zero: the left factor of [multiply] acts on
    the point first. *)
Theorem transformPoint_multiply (A B : Mat4 R) (p : Vec3 R) :
  List.length A = 16%nat -> List.length B = 16%nat ->
  homogeneous_w A p <> 0 -> homogeneous_w (mat4.multiply A B) p <> 0 ->
  mat4.transformPoint (mat4.multiply A B) p
  = mat4.transformPoint B (mat4.transformPoint A p).
Proof.
  intros HA HB. sixteen A. sixteen B. destruct p as [px py pz].
  expand_mat4. intros Hw Hw'.
  f_equal; field; (split; [exact Hw|]);
    intros E; apply Hw'; rewrite <- E; ring.
Qed.

(** The three axis rotations keep the length of a point, in exact
    arithmetic. *)
Theorem rotations_preserve_length (angle : R) (p : Vec3 R) :
  norm (mat4.transformPoint (mat4.fromXRotation angle) p) = norm p /\
  norm (mat4.transformPoint (mat4.fromYRotation angle) p) = norm p /\
  norm (mat4.transformPoint (mat4.fromZRotation angle) p) = norm p.
Proof.
  destruct p as [px py pz]. pose proof (sin2_cos2 angle) as H. unfold Rsqr in H.
  expand_mat4. set (c := cos angle) in *. set (s := sin angle) in *.
  replace (0 * px + 0 * py + 0 * pz + 1) with 1 by ring.
  split; [|split]; f_equal; unfold Rdiv; rewrite Rinv_1.
  - replace ((1 * px + 0 * py + 0 * pz + 0) * 1 * ((1 * px + 0 * py + 0 * pz + 0) * 1)
             + (0 * px + c * py + s * pz + 0) * 1 * ((0 * px + c * py + s * pz + 0) * 1)
             + (0 * px + - s * py + c * pz + 0) * 1 * ((0 * px + - s * py + c * pz + 0) * 1))
      with (px * px + (s * s + c * c) * (py * py + pz * pz)) by ring.
    rewrite H. ring.
  - replace ((c * px + 0 * py + - s * pz + 0) * 1 * ((c * px + 0 * py + - s * pz + 0) * 1)
             + (0 * px + 1 * py + 0 * pz + 0) * 1 * ((0 * px + 1 * py + 0 * pz + 0) * 1)
             + (s * px + 0 * py + c * pz + 0) * 1 * ((s * px + 0 * py + c * pz + 0) * 1))
      with (py * py + (s * s + c * c) * (px * px + pz * pz)) by ring.
    rewrite H. ring.
  - replace ((c * px + s * py + 0 * pz + 0) * 1 * ((c * px + s * py + 0 * pz + 0) * 1)
             + (- s * px + c * py + 0 * pz + 0) * 1 * ((- s * px + c * py + 0 * pz + 0) * 1)
             + (0 * px + 0 * py + 1 * pz + 0) * 1 * ((0 * px + 0 * py + 1 * pz + 0) * 1))
      with (pz * pz + (s * s + c * c) * (px * px + py * py)) by ring.
    rewrite H. ring.
Qed.

(** Two rotations about the same axis compose to the rotation by the sum
    of the angles, in exact arithmetic. *)
Theorem rotations_add_angles (a b : R) :
  mat4.multiply (mat4.fromXRotation a) (mat4.fromXRotation b)
  = mat4.fromXRotation (a + b) /\
  mat4.multiply (mat4.fromYRotation a) (mat4.fromYRotation b)
  = mat4.fromYRotation (a + b) /\
  mat4.multiply (mat4.fromZRotation a) (mat4.fromZRotation b)
  = mat4.fromZRotation (a + b).
Proof.
  expand_mat4. rewrite cos_plus, sin_plus.
  split; [|split]; repeat (f_equal; try ring).
Qed.

(** [fromTranslation(v)] moves every point by [v], and translations
    compose by adding their vectors, in exact arithmetic. *)
Theorem translation_moves_points (u v p : Vec3 R) :
  mat4.transformPoint (mat4.fromTranslation v) p = vec3.add p v /\
  mat4.multiply (mat4.fromTranslation u) (mat4.fromTranslation v)
  = mat4.fromTranslation (vec3.add u v).
Proof.
  destruct u as [ux uy uz], v as [vx vy vz], p as [px py pz].
  expand_mat4. split.
  - f_equal; field.
  - repeat (f_equal; try ring).
Qed.

End MatrixAlgebra.

Definition sample_translation : Mat4 R := mat4.fromTranslation (mkVec3 1 2 3)%R.

Lemma multiply_monoid_witness :
  mat4.multiply (mat4.multiply sample_translation mat4.create) sample_translation
  = mat4.multiply sample_translation (mat4.multiply mat4.create sample_translation).
Proof.
  exact (proj1 (multiply_monoid sample_translation mat4.create sample_translation
                  eq_refl eq_refl eq_refl)).
Defined.

Lemma transformPoint_multiply_witness :
  mat4.transformPoint (mat4.multiply sample_translation sample_translation)
    (mkVec3 0 0 0)%R
  = mat4.transformPoint sample_translation
      (mat4.transformPoint sample_translation (mkVec3 0 0 0)%R).
Proof.
  apply transformPoint_multiply; try reflexivity;
    cbv [sample_translation mat4.multiply mat4.fromTranslation homogeneous_w
         mat4.create mat4.at_ fold_left List.seq set_nth nth Nat.add Nat.mul
         x y z add mul num_of_Z real_number]; lra.
Defined.

(** ** Vectors in exact arithmetic *)

Section VectorAlgebra.
Local Open Scope R_scope.

Ltac expand_vec3 :=
  cbv [vec3.cross vec3.dot vec3.subtract vec3.add vec3.scale vec3.create norm
       x y z Math_sqrt sub mul add opp div num_of_Z real_number].

(** The cross product is orthogonal to both of its arguments and changes
    sign when they are swapped, in exact arithmetic. *)
Theorem cross_orthogonal (a b : Vec3 R) :
  vec3.dot (vec3.cross a b) a = 0 /\
  vec3.dot (vec3.cross a b) b = 0 /\
  vec3.cross b a = vec3.scale (vec3.cross a b) (-1).
Proof.
  destruct a as [ax ay az], b as [bx cy bz]. expand_vec3.
  split; [ring|]. split; [ring|]. f_equal; ring.
Qed.

Lemma dot_self_nonneg (v : Vec3 R) : 0 <= vec3.dot v v.
Proof. destruct v as [a b c]. expand_vec3. nra. Qed.

Lemma norm_not_positive (v : Vec3 R) : ~ 0 < norm v -> v = mkVec3 0 0 0.
Proof.
  intros Hn. pose proof (dot_self_nonneg v) as Hd.
  assert (Hz : vec3.dot v v = 0).
  { destruct (Req_dec (vec3.dot v v) 0) as [E|E]; [assumption|].
    exfalso. apply Hn. unfold norm. cbn [Math_sqrt real_number].
    apply sqrt_lt_R0. lra. }
  destruct v as [a b c]. revert Hz. expand_vec3. intros Hz.
  assert (a = 0) by nra. assert (b = 0) by nra. assert (c = 0) by nra.
  now subst.
Qed.

Lemma normalize_zero_R : vec3.normalize (mkVec3 0 0 0) = mkVec3 0 0 0.
Proof.
  apply normalize_fixed_R. expand_vec3.
  replace (0 * 0 + 0 * 0 + 0 * 0) with 0 by ring. rewrite sqrt_0. lra.
Qed.

Lemma normalize_positive_R (v : Vec3 R) : 0 < norm v ->
  vec3.normalize v = mkVec3 (x v / norm v) (y v / norm v) (z v / norm v).
Proof.
  intros Hn. apply normalize_R; [assumption|].
  unfold norm. cbn [Math_sqrt real_number]. rewrite sqrt_sqrt; [reflexivity|].
  apply dot_self_nonneg.
Qed.

(** [normalize] applied twice is [normalize] applied once, and scaling a
    vector by a positive factor does not change its normalization, in exact
    arithmetic. *)
Theorem normalize_idempotent (v : Vec3 R) (k : R) :
  vec3.normalize (vec3.normalize v) = vec3.normalize v /\
  (0 < k -> vec3.normalize (vec3.scale v k) = vec3.normalize v).
Proof.
  destruct (Rlt_dec 0 (norm v)) as [Hn|Hn].
  - pose proof (normalize_unit_R v Hn) as Hu.
    split.
    + rewrite (normalize_positive_R (vec3.normalize v)) by (rewrite Hu; lra).
      rewrite Hu. destruct (vec3.normalize v) as [a b c]. cbn [x y z].
      f_equal; field.
    + intros Hk.
      assert (Hs : norm (vec3.scale v k) = k * norm v).
      { destruct v as [a b c]. expand_vec3.
        replace (a * k * (a * k) + b * k * (b * k) + c * k * (c * k))
          with ((k * k) * (a * a + b * b + c * c)) by ring.
        rewrite sqrt_mult_alt by nra. rewrite sqrt_square by lra. reflexivity. }
      rewrite (normalize_positive_R (vec3.scale v k)) by (rewrite Hs; nra).
      rewrite Hs, (normalize_positive_R v Hn).
      destruct v as [a b c]. cbn [vec3.scale x y z mul real_number].
      f_equal; field; lra.
  - rewrite (norm_not_positive v Hn). split.
    + now rewrite !normalize_zero_R.
    + intros _. f_equal. expand_vec3. f_equal; ring.
Qed.

Lemma normalize_dot_le_1 (v : Vec3 R) :
  vec3.dot (vec3.normalize v) (vec3.normalize v) <= 1.
Proof.
  destruct (Rlt_dec 0 (norm v)) as [Hn|Hn].
  - pose proof (normalize_unit_R v Hn) as Hu. unfold norm in Hu.
    cbn [Math_sqrt real_number] in Hu.
    pose proof (dot_self_nonneg (vec3.normalize v)) as Hd.
    rewrite <- (sqrt_sqrt _ Hd), Hu. lra.
  - rewrite (norm_not_positive v Hn), normalize_zero_R. expand_vec3. lra.
Qed.

Lemma cauchy_schwarz (a b : Vec3 R) :
  vec3.dot a b * vec3.dot a b <= vec3.dot a a * vec3.dot b b.
Proof.
  destruct a as [a1 a2 a3], b as [b1 b2 b3]. expand_vec3.
  pose proof (Rle_0_sqr (a1 * b2 - a2 * b1)).
  pose proof (Rle_0_sqr (a1 * b3 - a3 * b1)).
  pose proof (Rle_0_sqr (a2 * b3 - a3 * b2)).
  unfold Rsqr in *. nra.
Qed.

(** The intensity of a face, the dot product of its normalized normal with
    the normalized light direction, lies between [-1] and [1] in exact
    arithmetic, for every triangle. *)
Theorem faceIntensity_bounded (v1 v2 v3 : Vertex R) :
  -1 <= faceIntensity v1 v2 v3 <= 1.
Proof.
  unfold faceIntensity, lightDir.
  set (n := vec3.normalize _). set (l := vec3.normalize _).
  pose proof (cauchy_schwarz n l) as Hcs.
  pose proof (normalize_dot_le_1 (vec3.cross (vec3.subtract (pos v2) (pos v1))
                                    (vec3.subtract (pos v3) (pos v1)))) as Hn.
  pose proof (normalize_dot_le_1 (vec3.create #1 #1 (- #1))%num) as Hl.
  fold n in Hn. fold l in Hl.
  pose proof (dot_self_nonneg n). pose proof (dot_self_nonneg l).
  nra.
Qed.

End VectorAlgebra.

Definition three_four_five : Vec3 R := mkVec3 3%R 4%R 5%R.

Lemma normalize_idempotent_witness :
  vec3.normalize (vec3.scale three_four_five 2%R) = vec3.normalize three_four_five.
Proof.
  apply (proj2 (normalize_idempotent three_four_five 2%R)). lra.
Defined.

(** ** The camera in exact arithmetic *)

Section CameraFacts.
Local Open Scope R_scope.

Lemma normalize_parallel (v : Vec3 R) :
  exists s, vec3.normalize v = mkVec3 (x v * s) (y v * s) (z v * s).
Proof.
  destruct (Rlt_dec 0 (norm v)) as [Hn|Hn].
  - exists (/ norm v). now rewrite normalize_positive_R.
  - exists 1. rewrite (norm_not_positive v Hn), normalize_zero_R.
    cbn [x y z]. f_equal; ring.
Qed.

(** The view matrix sends the eye to the origin, for every camera; when
    the eye is not the target, it sends the target to the point of the
    negative z axis at the distance between eye and target.  Exact
    arithmetic. *)
Theorem view_matrix_look_at (cam : Camera R) :
  mat4.transformPoint (createViewMatrix cam) (position cam) = mkVec3 0 0 0 /\
  (0 < norm (vec3.subtract (position cam) (target cam)) ->
   mat4.transformPoint (createViewMatrix cam) (target cam)
   = mkVec3 0 0 (- norm (vec3.subtract (position cam) (target cam)))).
Proof.
  destruct cam as [[ex ey ez] [tx ty tz] [ux uy uz]].
  unfold createViewMatrix. cbn [position target up].
  set (d := vec3.subtract (mkVec3 ex ey ez) (mkVec3 tx ty tz)).
  split.
  - destruct (vec3.normalize d) as [zx zy zz].
    destruct (vec3.normalize (vec3.cross (mkVec3 ux uy uz) (mkVec3 zx zy zz)))
      as [xx xy xz].
    cbv [mat4.transformPoint mat4.at_ nth vec3.cross vec3.dot x y z
         add mul div opp sub num_of_Z real_number].
    f_equal; field.
  - intros HL. rewrite (normalize_positive_R d HL).
    assert (HLL : norm d * norm d = vec3.dot d d).
    { unfold norm. cbn [Math_sqrt real_number]. apply sqrt_sqrt, dot_self_nonneg. }
    set (L := norm d) in *.
    destruct (normalize_parallel
                (vec3.cross (mkVec3 ux uy uz)
                            (mkVec3 (x d / L) (y d / L) (z d / L)))) as [s ->].
    revert HLL. unfold d.
    cbv [mat4.transformPoint mat4.at_ nth vec3.cross vec3.dot vec3.subtract x y z
         add mul div opp sub num_of_Z real_number].
    intros HLL. f_equal; try (field; lra).
    apply Rmult_eq_reg_r with L; [|lra].
    field_simplify; [|lra]. nra.
Qed.

(** The projection sends the points at depth [-near] (where [w = near]) to
    depth [-1] and the points at depth [-far] (where [w = far]) to depth
    [1].  For a field of view between [0] and [PI], an aspect that is not
    [0] and a point with [pz <> 0], the divisor is [w = -pz] and the point
    goes to [x = - px / (aspect * tan (fov / 2) * pz)] and
    [y = - py / (tan (fov / 2) * pz)]: the points of the view axis other
    than the eye go to the centre [x = y = 0].  Exact arithmetic. *)
Theorem projection_depth_range (fov aspect near far px py pz : R) :
  0 < near -> near < far ->
  let P := createProjectionMatrix fov aspect near far in
  (homogeneous_w P (mkVec3 px py (- near)) = near /\
   z (mat4.transformPoint P (mkVec3 px py (- near))) = -1) /\
  (homogeneous_w P (mkVec3 px py (- far)) = far /\
   z (mat4.transformPoint P (mkVec3 px py (- far))) = 1) /\
  (0 < fov < PI -> aspect <> 0 -> pz <> 0 ->
   tan (fov / 2) <> 0 /\
   homogeneous_w P (mkVec3 px py pz) = - pz /\
   x (mat4.transformPoint P (mkVec3 px py pz))
   = - px / (aspect * tan (fov / 2) * pz) /\
   y (mat4.transformPoint P (mkVec3 px py pz))
   = - py / (tan (fov / 2) * pz) /\
   x (mat4.transformPoint P (mkVec3 0 0 pz)) = 0 /\
   y (mat4.transformPoint P (mkVec3 0 0 pz)) = 0).
Proof.
  intros Hn Hf. cbv zeta.
  unfold createProjectionMatrix, projectionMatrix_of.
  cbv [homogeneous_w mat4.transformPoint mat4.at_ nth x y z Math_tan
       add mul div opp sub num_of_Z real_number real_trig].
  split; [split; [ring|field; lra]|]. split; [split; [ring|field; lra]|].
  intros Hfov Ha Hz.
  assert (Ht : 0 < tan (fov / 2)) by (apply tan_gt_0; lra).
  split; [lra|]. split; [ring|].
  repeat split; field; repeat split; lra.
Qed.

End CameraFacts.

Lemma view_matrix_look_at_witness :
  mat4.transformPoint (createViewMatrix camera) (target (@camera R _))
  = mkVec3 0%R 0%R (- norm (vec3.subtract (position (@camera R _))
                                           (target (@camera R _))))%R.
Proof.
  apply (proj2 (view_matrix_look_at camera)).
  cbv [norm camera position target vec3.subtract vec3.create vec3.dot x y z
       Math_sqrt sub mul add opp num_of_Z real_number].
  apply sqrt_lt_R0. lra.
Defined.

Lemma projection_depth_range_witness :
  z (mat4.transformPoint (createProjectionMatrix (PI / 2) 2 1 100)%R
       (mkVec3 0 0 (- 1))%R) = (-1)%R /\
  x (mat4.transformPoint (createProjectionMatrix (PI / 2) 2 1 100)%R
       (mkVec3 0 0 (- 3))%R) = 0%R.
Proof.
  pose proof PI_RGT_0 as Hpi.
  split.
  - apply (projection_depth_range (PI / 2) 2 1 100 0 0 (- 3))%R; lra.
  - apply (projection_depth_range (PI / 2) 2 1 100 0 0 (- 3))%R; lra.
Defined.

(** ** The depth test over a whole line *)

Section DepthOnlyDecreases.
Context {N : Type} {num : Number N} {laws : OrderLaws N}.
Variable WIDTH HEIGHT : nat.
Local Open Scope num_scope.

Lemma lt_irrefl (a : N) : (a <? a) = false.
Proof.
  destruct (a <? a) eqn:E; [|reflexivity].
  pose proof (lt_number _ _ E) as Hn.
  pose proof (seq_not_lt _ _ Hn). congruence.
Qed.

Lemma aget_aset_same {A} (a : list A) (i : N) u v :
  aget a i = Some u -> aget (aset a i v) i = Some v.
Proof.
  intros H. destruct (aget_Some _ _ _ H) as (k & Hk & _).
  unfold aget. rewrite aset_length, Hk, nth_error_aset, Hk.
  now rewrite Nat.eqb_refl.
Qed.

Lemma aset_aset_same {A} (a : list A) (i : N) v :
  aset (aset a i v) i v = aset a i v.
Proof.
  apply nth_error_ext. intros j.
  rewrite !nth_error_aset, aset_length.
  destruct (element i (List.length a)) as [k|]; [|reflexivity].
  destruct (Nat.eqb j k); reflexivity.
Qed.

(** Drawing the same pixel a second time changes neither buffer: the
    depth test is strict. *)
Theorem drawPixel_idempotent x y z char color (st : Buffers N) :
  let once := drawPixel WIDTH HEIGHT x y z char color st in
  let twice := drawPixel WIDTH HEIGHT x y z char color once in
  frameBuffer twice = frameBuffer once /\ zBuffer twice = zBuffer once.
Proof.
  cbv zeta. rewrite (drawPixel_cases WIDTH HEIGHT x y z char color (drawPixel _ _ _ _ _ _ _ st)).
  cbv zeta. set (index := pixel_index WIDTH (Math_round x) (Math_round y)).
  destruct (out_of_bounds _ _ _ _) eqn:Hout; [split; reflexivity|].
  destruct (aget (zBuffer (drawPixel WIDTH HEIGHT x y z char color st)) index)
    as [depth'|] eqn:Hget'; [|split; reflexivity].
  destruct (z <? depth') eqn:Hlt; [|split; reflexivity].
  exfalso. revert Hget' . rewrite drawPixel_cases. cbv zeta. fold index.
  rewrite Hout.
  destruct (aget (zBuffer st) index) as [depth|] eqn:Hget.
  - destruct (z <? depth) eqn:Hlt0; cbn [zBuffer logged].
    + rewrite (aget_aset_same _ _ _ z Hget). intros [= <-].
      rewrite lt_irrefl in Hlt. discriminate.
    + rewrite Hget. intros [= <-]. congruence.
  - cbn [zBuffer logged]. rewrite Hget. discriminate.
Qed.

(** A depth is [below] another when it is the same or strictly less. *)
Definition below (d' d : N) : Prop := d' = d \/ (d' <? d) = true.

Lemma below_trans a b c : below a b -> below b c -> below a c.
Proof.
  intros [->|H1] [->|H2]; [now left|now right|now right|].
  right. eapply lt_trans; eassumption.
Qed.

Lemma drawPixel_below x y z char color (st : Buffers N) k d :
  nth_error (zBuffer st) k = Some d ->
  exists d', nth_error (zBuffer (drawPixel WIDTH HEIGHT x y z char color st)) k
             = Some d' /\ below d' d.
Proof.
  intros Hk. rewrite drawPixel_cases. cbv zeta.
  set (index := pixel_index WIDTH (Math_round x) (Math_round y)).
  destruct (out_of_bounds _ _ _ _); [exists d; split; [assumption|now left]|].
  destruct (aget (zBuffer st) index) as [depth|] eqn:Hget;
    [|exists d; split; [assumption|now left]].
  destruct (z <? depth) eqn:Hlt; [|exists d; split; [assumption|now left]].
  cbn [zBuffer]. rewrite nth_error_aset.
  destruct (aget_Some _ _ _ Hget) as (k0 & Hk0 & Hn0). rewrite Hk0.
  destruct (Nat.eqb_spec k k0) as [->|Hne].
  - exists z. split; [reflexivity|]. right. congruence.
  - exists d. split; [assumption|now left].
Qed.

Lemma drawLine_loop_below fuel : forall l s char color (st st' : Buffers N) k d,
  drawLine_loop WIDTH HEIGHT fuel l s char color st = Some st' ->
  nth_error (zBuffer st) k = Some d ->
  exists d', nth_error (zBuffer st') k = Some d' /\ below d' d.
Proof.
  induction fuel as [|fuel IH]; intros l s char color st st' k d; simpl;
    [discriminate|].
  intros H Hk.
  destruct (drawPixel_below (x0 s) (y0 s) (line_depth l s) char color st k d Hk)
    as (d1 & Hd1 & Hb1).
  destruct (line_done l s).
  - injection H as <-. eauto.
  - destruct (IH _ _ _ _ _ _ _ _ H Hd1) as (d' & Hd' & Hb').
    exists d'. split; [assumption|]. eapply below_trans; eassumption.
Qed.

(** A line never raises a stored depth: after [drawLine], every cell of the
    depth buffer holds what it held or something strictly less, and both
    buffers have kept their lengths. *)
Theorem drawLine_depths_only_decrease fuel p1 p2 char color
    (st st' : Buffers N) :
  drawLine WIDTH HEIGHT fuel p1 p2 char color st = Some st' ->
  (forall k d, nth_error (zBuffer st) k = Some d ->
     exists d', nth_error (zBuffer st') k = Some d' /\ below d' d) /\
  List.length (zBuffer st') = List.length (zBuffer st) /\
  List.length (frameBuffer st') = List.length (frameBuffer st).
Proof.
  unfold drawLine. destruct (line_init p1 p2) as [l s]. intros H.
  split; [intros k d; now apply (drawLine_loop_below fuel l s char color st st')|].
  revert st st' H. generalize s. clear s.
  induction fuel as [|fuel IH]; intros s st st'; simpl; [discriminate|].
  pose proof (drawPixel_lengths WIDTH HEIGHT (x0 s) (y0 s) (line_depth l s)
                char color st) as [Hf Hz]. cbv zeta in Hf, Hz.
  destruct (line_done l s).
  - intros [= <-]. split; assumption.
  - intros H. destruct (IH _ _ _ H) as [Hz' Hf']. split; congruence.
Qed.

End DepthOnlyDecreases.

Lemma drawLine_depths_only_decrease_witness :
  exists st',
    drawLine 24 12 8 near_p1 near_p2 (Some "#"%char) white (fresh_buffers 24 12)
      = Some st' /\
    List.length (zBuffer st') = List.length (zBuffer (fresh_buffers 24 12 : Buffers float)).
Proof.
  destruct (drawLine 24 12 8 near_p1 near_p2 (Some "#"%char) white
              (fresh_buffers 24 12)) as [st'|] eqn:E;
    [|vm_compute in E; discriminate].
  exists st'. split; [reflexivity|].
  exact (proj1 (proj2 (drawLine_depths_only_decrease 24 12 8 near_p1 near_p2
                         (Some "#"%char) white (fresh_buffers 24 12) st' E))).
Defined.

(** ** Lines through NaN *)

Section LineNaN.
Local Open Scope num_scope.

(** [a !== a]: the double is NaN. *)
Lemma not_self_equal (a : float) : (a === a) = false <-> Prim2SF a = S754_nan.
Proof.
  cbn [seq float_number]. rewrite eqb_spec. unfold SFeqb, SFcompare.
  destruct (Prim2SF a) as [[]|[]| |[] m e]; split; try discriminate;
    try reflexivity; intros H; exfalso; revert H;
    rewrite Z.compare_refl;
    assert (Hcc : forall p, PosDef.Pos.compare_cont Eq p p = Eq)
      by (intros p; exact (Pos.compare_refl p));
    rewrite Hcc; discriminate.
Qed.

Lemma nan_sub_l (a b : float) : Prim2SF a = S754_nan -> Prim2SF (a - b)%float = S754_nan.
Proof. intros Ha. now rewrite sub_spec, Ha. Qed.

Lemma nan_sub_r (a b : float) : Prim2SF b = S754_nan -> Prim2SF (a - b)%float = S754_nan.
Proof.
  intros Hb. rewrite sub_spec, Hb. now destruct (Prim2SF a) as [[]|[]| |[] ? ?].
Qed.

Lemma nan_mul_r (a b : float) : Prim2SF b = S754_nan -> Prim2SF (a * b)%float = S754_nan.
Proof.
  intros Hb. rewrite mul_spec, Hb. now destruct (Prim2SF a) as [[]|[]| |[] ? ?].
Qed.

Lemma nan_abs (a : float) : Prim2SF a = S754_nan -> Prim2SF (PrimFloat.abs a) = S754_nan.
Proof. intros Ha. now rewrite abs_spec, Ha. Qed.

Lemma nan_round (a : float) : Prim2SF a = S754_nan -> Prim2SF (Double.round a) = S754_nan.
Proof.
  intros Ha. unfold Double.round. rewrite Ha. cbn [Double.SFint].
  now rewrite Prim2SF_SF2Prim.
Qed.

Lemma nan_ltb_l (a b : float) : Prim2SF a = S754_nan -> (a <? b)%float = false.
Proof. intros Ha. now rewrite ltb_spec, Ha. Qed.

Lemma nan_ltb_r (a b : float) : Prim2SF b = S754_nan -> (a <? b)%float = false.
Proof.
  intros Hb. rewrite ltb_spec, Hb. unfold SFltb, SFcompare.
  now destruct (Prim2SF a) as [[]|[]| |[] ? ?].
Qed.

Lemma nan_eqb_l (a b : float) : Prim2SF a = S754_nan -> (a =? b)%float = false.
Proof. intros Ha. now rewrite eqb_spec, Ha. Qed.

Lemma nan_eqb_r (a b : float) : Prim2SF b = S754_nan -> (a =? b)%float = false.
Proof.
  intros Hb. rewrite eqb_spec, Hb. unfold SFeqb, SFcompare.
  now destruct (Prim2SF a) as [[]|[]| |[] ? ?].
Qed.

(** With a NaN among the four coordinates a line is drawn between, the
    loop state never changes and the test of the [break] never passes. *)
Lemma nan_line_stuck (p1 p2 : Vec3 float) :
  Prim2SF (x p1) = S754_nan \/ Prim2SF (y p1) = S754_nan \/
  Prim2SF (x p2) = S754_nan \/ Prim2SF (y p2) = S754_nan ->
  let l := fst (line_init p1 p2) in
  let s := snd (line_init p1 p2) in
  line_done l s = false /\ line_step l s = s.
Proof.
  intros H. cbv zeta. unfold line_init.
  cbv [fst snd line_done line_step x0 y0 err x1 y1 dx dy sx sy
       Math_round Math_abs seq lt sub mul add opp num_of_Z float_number].
  set (rx0 := Double.round (x p1)). set (ry0 := Double.round (y p1)).
  set (rx1 := Double.round (x p2)). set (ry1 := Double.round (y p2)).
  assert (Herr : Prim2SF (PrimFloat.abs (rx1 - rx0) - PrimFloat.abs (ry1 - ry0))%float
                 = S754_nan).
  { destruct H as [H|[H|[H|H]]]; apply nan_round in H.
    - apply nan_sub_l, nan_abs, nan_sub_r, H.
    - apply nan_sub_r, nan_abs, nan_sub_r, H.
    - apply nan_sub_l, nan_abs, nan_sub_l, H.
    - apply nan_sub_r, nan_abs, nan_sub_l, H. }
  split.
  - destruct H as [H|[H|[H|H]]]; apply nan_round in H.
    + now rewrite (nan_eqb_l rx0 rx1 H).
    + rewrite (nan_eqb_l ry0 ry1 H). apply andb_false_r.
    + now rewrite (nan_eqb_r rx0 rx1 H).
    + rewrite (nan_eqb_r ry0 ry1 H). apply andb_false_r.
  - rewrite (nan_ltb_r _ _ (nan_mul_r (Double.of_Z 2) _ Herr)).
    rewrite (nan_ltb_l _ _ (nan_mul_r (Double.of_Z 2) _ Herr)).
    reflexivity.
Qed.

(** [drawLine] does not return when one of the [x], [y] coordinates of its
    end points is NaN: no number of iterations reaches the [break]. *)
Theorem drawLine_hangs_on_NaN (WIDTH HEIGHT : nat) (p1 p2 : Vec3 float)
    char color (st : Buffers float) :
  (x p1 === x p1) = false \/ (y p1 === y p1) = false \/
  (x p2 === x p2) = false \/ (y p2 === y p2) = false ->
  forall fuel, drawLine WIDTH HEIGHT fuel p1 p2 char color st = None.
Proof.
  intros H fuel. rewrite !not_self_equal in H.
  destruct (nan_line_stuck p1 p2 H) as [Hdone Hstep].
  unfold drawLine. destruct (line_init p1 p2) as [l s]. cbn [fst snd] in *.
  now apply stuck_loop.
Qed.

End LineNaN.

Definition nan_point : Vec3 float := mkVec3 nan 0%float 0%float.

Lemma drawLine_hangs_on_NaN_witness :
  drawLine 24 12 1000 nan_point near_p2 None white (fresh_buffers 24 12) = None.
Proof.
  apply drawLine_hangs_on_NaN. left. reflexivity.
Defined.

(** ** The shape of the Bresenham walk *)

Module ZShape.
Import ZLine.
Local Open Scope Z_scope.

(** How far the walk is off the ideal line after [a] steps along x and [b]
    along y. *)
Definition balance (c : Consts) (a b : Z) : Z := b * DX c - a * DY c.

(** Along the longer axis every iteration moves. *)
Definition major_inv (c : Consts) (s : State) (a b : Z) : Prop :=
  taken c s a b /\
  (DY c <= DX c -> 0 < DX c ->
     DY c - 2 * DX c < 2 * balance c a b < DX c) /\
  (DX c < DY c -> - DY c < 2 * balance c a b < 2 * DY c - DX c).

Definition major (c : Consts) (a b : Z) : Z := if DY c <=? DX c then a else b.

Lemma init_major x0 y0 x1 y1 :
  major_inv (fst (init x0 y0 x1 y1)) (snd (init x0 y0 x1 y1)) 0 0.
Proof.
  pose proof (init_inv x0 y0 x1 y1) as H.
  destruct (init x0 y0 x1 y1) as [c s] eqn:E. destruct H as [Hinv Ht].
  cbn [fst snd]. split; [assumption|].
  assert (0 <= DX c /\ 0 <= DY c) as [Hx Hy].
  { unfold init in E. injection E as <- _. cbn [DX DY]. lia. }
  unfold balance. split; intros; lia.
Qed.

Lemma step_major c s a b :
  signs c -> major_inv c s a b -> done c s = false ->
  exists a' b', major_inv c (step c s) a' b' /\
                major c a' b' = major c a b + 1.
Proof.
  intros Hs (Ht & Jx & Jy) Hd.
  assert (Hnd : ~ (a = DX c /\ b = DY c)).
  { intros H. apply (done_taken c s a b Hs Ht) in H. congruence. }
  destruct Ht as (Ha & Hb & Hx & Hy & He).
  unfold major_inv, major, balance in *. unfold step. cbv zeta.
  destruct (Z.ltb_spec (- DY c) (2 * Err s)) as [Cx|Cx];
    destruct (Z.ltb_spec (2 * Err s) (DX c)) as [Cy|Cy];
    cbn [X0 Y0 Err]; rewrite He in Cx, Cy.
  - assert (a < DX c) by nia. assert (b < DY c) by nia.
    exists (a + 1), (b + 1). split.
    + split; [|split].
      * unfold taken. cbn [X0 Y0 Err].
        repeat split; try lia; try (rewrite ?Hx, ?Hy; ring); try (rewrite He; ring).
      * intros H1 H2. specialize (Jx H1 H2). lia.
      * intros H1. specialize (Jy H1). lia.
    + destruct (DY c <=? DX c); lia.
  - assert (a < DX c) by nia.
    exists (a + 1), b. split.
    + split; [|split].
      * unfold taken. cbn [X0 Y0 Err].
        repeat split; try lia; try (rewrite ?Hx, ?Hy; ring); try (rewrite He; ring).
      * intros H1 H2. specialize (Jx H1 H2). lia.
      * intros H1. specialize (Jy H1). lia.
    + destruct (Z.leb_spec (DY c) (DX c)) as [H1|H1]; [lia|].
      specialize (Jy H1). lia.
  - assert (b < DY c) by nia.
    exists a, (b + 1). split.
    + split; [|split].
      * unfold taken. cbn [X0 Y0 Err].
        repeat split; try lia; try (rewrite ?Hx, ?Hy; ring); try (rewrite He; ring).
      * intros H1 H2. specialize (Jx H1 H2). lia.
      * intros H1. specialize (Jy H1). lia.
    + destruct (Z.leb_spec (DY c) (DX c)) as [H1|H1]; [|lia].
      assert (H2 : 0 < DX c) by lia. specialize (Jx H1 H2). lia.
  - exfalso. apply Hnd. nia.
Qed.

(** The walk has one state more than the longer side of the box. *)
Lemma chain_count c s w :
  chain c s w -> signs c -> forall a b, major_inv c s a b ->
  Z.of_nat (List.length w) = Z.max (DX c) (DY c) - major c a b + 1.
Proof.
  induction 1 as [s Hd|s w Hd Hc IH]; intros Hs a b Hm.
  - destruct Hm as (Ht & _).
    apply (done_taken c s a b Hs Ht) in Hd. destruct Hd as [-> ->].
    unfold major. cbn [List.length]. destruct (Z.leb_spec (DY c) (DX c)); lia.
  - destruct (step_major c s a b Hs Hm Hd) as (a' & b' & Hm' & Hinc).
    cbn [List.length]. rewrite Nat2Z.inj_succ, (IH Hs a' b' Hm'). lia.
Qed.

(** Where the states of the walk are, and how they follow each other. *)
Lemma chain_box c s w : chain c s w -> inv c s ->
  forall i si, nth_error w i = Some si ->
  exists a b, 0 <= a <= DX c /\ 0 <= b <= DY c /\
    X0 si = X1 c - SX c * (DX c - a) /\ Y0 si = Y1 c - SY c * (DY c - b).
Proof.
  intros Hch Hinv i si Hi.
  pose proof (chain_inv _ _ _ Hch Hinv) as Hall. rewrite Forall_forall in Hall.
  destruct (Hall si (nth_error_In _ _ Hi)) as (_ & _ & a & b & Ha & Hb & Hx & Hy & _).
  exists a, b. repeat split; lia.
Qed.

Lemma chain_connected c s w : chain c s w -> inv c s ->
  forall i s1 s2, nth_error w i = Some s1 -> nth_error w (S i) = Some s2 ->
  (X0 s2 = X0 s1 \/ X0 s2 = X0 s1 + SX c) /\
  (Y0 s2 = Y0 s1 \/ Y0 s2 = Y0 s1 + SY c) /\
  (X0 s2 <> X0 s1 \/ Y0 s2 <> Y0 s1).
Proof.
  intros Hch Hinv i s1 s2 H1 H2.
  destruct (chain_next _ _ _ Hch Hinv i s1 s2 H1 H2)
    as ((Hsg & _ & a & b & Ht) & Hnd & -> & _).
  destruct (step_taken c s1 a b Hsg Ht Hnd) as (a' & b' & Ht' & Ha' & Hb' & Hlt).
  destruct Ht as (_ & _ & Hx & Hy & _). destruct Ht' as (_ & _ & Hx' & Hy' & _).
  destruct Hsg as [[Sx|Sx] [Sy|Sy]]; rewrite Hx, Hy, Hx', Hy', Sx, Sy;
    repeat split; lia.
Qed.

End ZShape.

Section WalkShape.
Context {N : Type} {num : Number N} {safe : Z -> Prop} {laws : IntegerLaws N safe}.
Local Open Scope Z_scope.
Variable C : Z.
Hypothesis C_pos : 1 <= C.
Hypothesis safe_C : forall n, Z.abs n <= 8 * C -> safe n.

Lemma line_walk_shape (p1 p2 : Vec3 N) ix0 iy0 ix1 iy1 fuel :
  to_int (Math_round (x p1)) = Some ix0 ->
  to_int (Math_round (y p1)) = Some iy0 ->
  to_int (Math_round (x p2)) = Some ix1 ->
  to_int (Math_round (y p2)) = Some iy1 ->
  Z.abs ix0 <= C -> Z.abs iy0 <= C -> Z.abs ix1 <= C -> Z.abs iy1 <= C ->
  Z.abs (ix1 - ix0) + Z.abs (iy1 - iy0) < Z.of_nat fuel ->
  exists w,
    line_walk fuel (fst (line_init p1 p2)) (snd (line_init p1 p2)) = Some w /\
    Z.of_nat (List.length w) = Z.max (Z.abs (ix1 - ix0)) (Z.abs (iy1 - iy0)) + 1 /\
    (forall i s, nth_error w i = Some s ->
       exists X Y, to_int (x0 s) = Some X /\ to_int (y0 s) = Some Y /\
         Z.min ix0 ix1 <= X <= Z.max ix0 ix1 /\
         Z.min iy0 iy1 <= Y <= Z.max iy0 iy1) /\
    (forall i s s', nth_error w i = Some s -> nth_error w (S i) = Some s' ->
       exists X Y X' Y',
         to_int (x0 s) = Some X /\ to_int (y0 s) = Some Y /\
         to_int (x0 s') = Some X' /\ to_int (y0 s') = Some Y' /\
         Z.abs (X' - X) <= 1 /\ Z.abs (Y' - Y) <= 1 /\
         (X' <> X \/ Y' <> Y) /\
         Z.abs (ix1 - X') <= Z.abs (ix1 - X) /\
         Z.abs (iy1 - Y') <= Z.abs (iy1 - Y)).
Proof.
  intros HX0 HY0 HX1 HY1 B1 B2 B3 B4 Hfuel.
  destruct (line_walk_total C C_pos safe_C p1 p2 ix0 iy0 ix1 iy1 fuel)
    as (w & zw & Hw & HF & Hch & Hl & Hinv & _ & _); auto.
  pose proof (ZShape.init_major ix0 iy0 ix1 iy1) as Hmajor.
  pose proof (init_start ix0 iy0 ix1 iy1) as Hstart. cbv zeta in Hstart.
  set (c := fst (ZLine.init ix0 iy0 ix1 iy1)) in *.
  set (zs0 := snd (ZLine.init ix0 iy0 ix1 iy1)) in *.
  assert (Hc : ZLine.X1 c = ix1 /\ ZLine.Y1 c = iy1 /\
               ZLine.DX c = Z.abs (ix1 - ix0) /\ ZLine.DY c = Z.abs (iy1 - iy0))
    by (repeat split; reflexivity).
  destruct Hc as (HcX & HcY & HcDX & HcDY). destruct Hstart as [HsX HsY].
  pose proof Hinv as (Hsg & _).
  exists w. split; [exact Hw|]. split; [|split].
  - rewrite (Forall2_length HF).
    rewrite (ZShape.chain_count c zs0 zw Hch Hsg 0 0 Hmajor).
    rewrite HcDX, HcDY. unfold ZShape.major.
    destruct (ZLine.DY c <=? ZLine.DX c); lia.
  - intros i s Hs.
    destruct (Forall2_nth _ _ _ HF _ _ Hs) as (zs & Hzs & (R1 & R2 & _)).
    destruct (ZShape.chain_box c zs0 zw Hch Hinv i zs Hzs)
      as (a & b & Ha & Hb & Hx & Hy).
    exists (ZLine.X0 zs), (ZLine.Y0 zs).
    split; [exact R1|]. split; [exact R2|].
    destruct Hsg as [[Sx|Sx] [Sy|Sy]]; rewrite Sx, Sy in *; lia.
  - intros i s s' Hs Hs'.
    destruct (Forall2_nth _ _ _ HF _ _ Hs) as (zs & Hzs & (R1 & R2 & _)).
    destruct (Forall2_nth _ _ _ HF _ _ Hs') as (zs' & Hzs' & (R1' & R2' & _)).
    destruct (ZShape.chain_connected c zs0 zw Hch Hinv i zs zs' Hzs Hzs')
      as (Cx & Cy & Cn).
    destruct (ZShape.chain_box c zs0 zw Hch Hinv i zs Hzs)
      as (a & b & Ha & Hb & Hx & Hy).
    destruct (ZShape.chain_box c zs0 zw Hch Hinv (S i) zs' Hzs')
      as (a' & b' & Ha' & Hb' & Hx' & Hy').
    exists (ZLine.X0 zs), (ZLine.Y0 zs), (ZLine.X0 zs'), (ZLine.Y0 zs').
    split; [exact R1|]. split; [exact R2|]. split; [exact R1'|]. split; [exact R2'|].
    destruct Hsg as [[Sx|Sx] [Sy|Sy]]; rewrite Sx, Sy in *;
      repeat split; try lia; try exact Cn.
Qed.

End WalkShape.

Section LineShapeDouble.
Local Open Scope Z_scope.

(** On doubles, between rounded end points below [2^50] in magnitude,
    [drawLine] calls [drawPixel] exactly once more than the longer side of
    the box spanned by the rounded end points. *)
Theorem drawLine_pixel_count (WIDTH HEIGHT : nat) (p1 p2 : Vec3 float)
    (ix0 iy0 ix1 iy1 : Z) char color (st : Buffers float) :
  to_int (Math_round (x p1)) = Some ix0 ->
  to_int (Math_round (y p1)) = Some iy0 ->
  to_int (Math_round (x p2)) = Some ix1 ->
  to_int (Math_round (y p2)) = Some iy1 ->
  Z.abs ix0 < 2 ^ 50 -> Z.abs iy0 < 2 ^ 50 ->
  Z.abs ix1 < 2 ^ 50 -> Z.abs iy1 < 2 ^ 50 ->
  forall fuel, Z.abs (ix1 - ix0) + Z.abs (iy1 - iy0) < Z.of_nat fuel ->
  exists st',
    drawLine WIDTH HEIGHT fuel p1 p2 char color st = Some st' /\
    Z.of_nat (List.length (calls st'))
    = Z.of_nat (List.length (calls st))
      + Z.max (Z.abs (ix1 - ix0)) (Z.abs (iy1 - iy0)) + 1.
Proof.
  intros X0 Y0 X1 Y1 B1 B2 B3 B4 fuel Hfuel.
  destruct (line_walk_shape (2 ^ 50 - 1) grid_pos safe_grid p1 p2
              ix0 iy0 ix1 iy1 fuel) as (w & Hw & Hlen & _);
    try assumption; try lia.
  pose proof (drawLine_loop_walk WIDTH HEIGHT fuel (fst (line_init p1 p2))
                char color (snd (line_init p1 p2)) st) as Hloop.
  rewrite Hw in Hloop. destruct Hloop as (st' & Hst' & Hcalls).
  exists st'. split.
  - unfold drawLine. destruct (line_init p1 p2). exact Hst'.
  - rewrite Hcalls, List.length_app, List.length_rev, List.length_map. lia.
Qed.

(** On doubles, between rounded end points below [2^50] in magnitude, the
    pixels of a line stay in the box spanned by the rounded end points,
    and each one is a neighbour of the one before it (one cell away along
    x, along y, or along both), never farther from the end point on either
    axis. *)
Theorem drawLine_path_connected (WIDTH HEIGHT : nat) (p1 p2 : Vec3 float)
    (ix0 iy0 ix1 iy1 : Z) char color (st : Buffers float) :
  to_int (Math_round (x p1)) = Some ix0 ->
  to_int (Math_round (y p1)) = Some iy0 ->
  to_int (Math_round (x p2)) = Some ix1 ->
  to_int (Math_round (y p2)) = Some iy1 ->
  Z.abs ix0 < 2 ^ 50 -> Z.abs iy0 < 2 ^ 50 ->
  Z.abs ix1 < 2 ^ 50 -> Z.abs iy1 < 2 ^ 50 ->
  forall fuel, Z.abs (ix1 - ix0) + Z.abs (iy1 - iy0) < Z.of_nat fuel ->
  exists st' path,
    drawLine WIDTH HEIGHT fuel p1 p2 char color st = Some st' /\
    calls st' = rev path ++ calls st /\
    (forall i f, nth_error path i = Some f ->
       exists X Y, to_int (fx f) = Some X /\ to_int (fy f) = Some Y /\
         Z.min ix0 ix1 <= X <= Z.max ix0 ix1 /\
         Z.min iy0 iy1 <= Y <= Z.max iy0 iy1) /\
    (forall i f f', nth_error path i = Some f -> nth_error path (S i) = Some f' ->
       exists X Y X' Y',
         to_int (fx f) = Some X /\ to_int (fy f) = Some Y /\
         to_int (fx f') = Some X' /\ to_int (fy f') = Some Y' /\
         Z.abs (X' - X) <= 1 /\ Z.abs (Y' - Y) <= 1 /\
         (X' <> X \/ Y' <> Y) /\
         Z.abs (ix1 - X') <= Z.abs (ix1 - X) /\
         Z.abs (iy1 - Y') <= Z.abs (iy1 - Y)).
Proof.
  intros X0 Y0 X1 Y1 B1 B2 B3 B4 fuel Hfuel.
  destruct (line_walk_shape (2 ^ 50 - 1) grid_pos safe_grid p1 p2
              ix0 iy0 ix1 iy1 fuel) as (w & Hw & _ & Hbox & Hnext);
    try assumption; try lia.
  set (l := fst (line_init p1 p2)) in *.
  pose proof (drawLine_loop_walk WIDTH HEIGHT fuel l
                char color (snd (line_init p1 p2)) st) as Hloop.
  rewrite Hw in Hloop. destruct Hloop as (st' & Hst' & Hcalls).
  exists st', (List.map (line_fragment l) w). split.
  { unfold drawLine. subst l. destruct (line_init p1 p2). exact Hst'. }
  split; [exact Hcalls|]. split.
  - intros i f Hf. rewrite nth_error_map in Hf.
    destruct (nth_error w i) as [s|] eqn:Hs; [|discriminate].
    injection Hf as <-. exact (Hbox i s Hs).
  - intros i f f' Hf Hf'. rewrite nth_error_map in Hf, Hf'.
    destruct (nth_error w i) as [s|] eqn:Hs; [|discriminate].
    destruct (nth_error w (S i)) as [s'|] eqn:Hs'; [|discriminate].
    injection Hf as <-. injection Hf' as <-. exact (Hnext i s s' Hs Hs').
Qed.

End LineShapeDouble.

Lemma drawLine_pixel_count_witness :
  exists st',
    drawLine 24 12 8 near_p1 near_p2 (Some "#"%char) white (fresh_buffers 24 12)
      = Some st' /\
    List.length (calls st') = 5%nat.
Proof.
  destruct (drawLine_pixel_count 24 12 near_p1 near_p2 0 0 4 3 (Some "#"%char)
              white (fresh_buffers 24 12)) with (fuel := 8%nat)
    as (st' & Hd & Hlen); try reflexivity.
  exists st'. split; [exact Hd|].
  apply Nat2Z.inj. rewrite Hlen. reflexivity.
Defined.

Lemma drawLine_path_connected_witness :
  exists st' path,
    drawLine 24 12 8 near_p1 near_p2 (Some "#"%char) white (fresh_buffers 24 12)
      = Some st' /\
    calls st' = rev path ++ calls (fresh_buffers 24 12 : Buffers float).
Proof.
  destruct (drawLine_path_connected 24 12 near_p1 near_p2 0 0 4 3 (Some "#"%char)
              white (fresh_buffers 24 12)) with (fuel := 8%nat)
    as (st' & path & Hd & Hc & _); try reflexivity.
  exists st', path. split; assumption.
Defined.

(** ** Rounding an integer *)

Section RoundInteger.
Import DoubleInt.
Local Open Scope Z_scope.

Lemma round_of_int (a : float) n :
  Double.to_Z a = Some n -> safe n -> Double.to_Z (Double.round a) = Some n.
Proof.
  intros Ha Sn. pose proof (to_Z_int a n Ha Sn) as Hint.
  pose proof (Prim2SF_valid a) as Hv.
  unfold Double.to_Z, Double.round.
  destruct (SFint_is_int true (Prim2SF a) Hv) as [Hv' _].
  { destruct Hint as [[_ [s ->]]|(s & p & _ & _ & ->)]; exact I. }
  rewrite Prim2SF_SF2Prim by assumption.
  destruct Hint as [[-> [s ->]]|(s & p & -> & Hp & E)]; [reflexivity|].
  destruct (canon_exponent s p Hp) as (m & Hc & Hm). rewrite E, Hc.
  pose proof (digits_pos p) as Hdp.
  cbn [Double.SFint]. destruct (Z.leb_spec 0 (digits p - 53)) as [He|He].
  - rewrite <- Hc. apply canon_to_Z. assumption.
  - set (d := 2 ^ (- (digits p - 53))).
    assert (Hd : 0 < d) by (apply pow2_pos; lia).
    assert (Hmd : Zpos m = Zpos p * d)
      by (rewrite Hm; unfold d; do 2 f_equal; lia).
    assert (Hn : (2 * cond_Zopp s (Zpos m) + d) / (2 * d) = cond_Zopp s (Zpos p)).
    { symmetry. apply Z.div_unique with d; [lia|].
      destruct s; cbn [cond_Zopp]; rewrite Hmd; ring. }
    rewrite Hn.
    destruct (Z.eqb_spec (cond_Zopp s (Zpos p)) 0) as [H0|H0];
      [destruct s; discriminate|].
    apply is_int_to_Z, normalize_int; [lia|simpl; ring|exact Sn].
Qed.

End RoundInteger.

(** ** A line that is a single grid point *)

Section PointLine.
Import DoubleInt.
Local Open Scope num_scope.

Lemma int_zero (a : float) :
  Double.to_Z a = Some 0%Z -> exists s, Prim2SF a = S754_zero s.
Proof.
  intros H. apply to_Z_int in H; [|unfold safe; simpl; lia].
  destruct H as [[_ Hs]|(s & p & Hn & _)]; [exact Hs|].
  destruct s; discriminate.
Qed.

(** The distance between two equal integers, as [drawLine] computes it. *)
Lemma planar_zero (a b c d : float) (m n : Z) :
  Double.to_Z a = Some m -> Double.to_Z b = Some m ->
  Double.to_Z c = Some n -> Double.to_Z d = Some n ->
  safe m -> safe n ->
  Prim2SF (Math_sqrt (Math_pow2 (a - b) + Math_pow2 (c - d)))
  = S754_zero false.
Proof.
  intros Ha Hb Hc Hd Sm Sn.
  assert (S0 : safe 0) by (unfold safe; simpl; lia).
  pose proof (sub_exact a b m m Ha Hb Sm Sm) as H1.
  pose proof (sub_exact c d n n Hc Hd Sn Sn) as H2.
  rewrite Z.sub_diag in H1, H2. specialize (H1 S0). specialize (H2 S0).
  destruct (int_zero _ H1) as [s1 E1]. destruct (int_zero _ H2) as [s2 E2].
  cbv [Math_sqrt Math_pow2 add mul sub float_number].
  rewrite sqrt_spec, add_spec, !mul_spec, E1, E2.
  destruct s1, s2; reflexivity.
Qed.

(** When the first end point [p] lies on the grid and the second end point
    [q] rounds to it, the only pixel of the
    line gets the depth [0 / 0]: [drawLine] makes one [drawPixel] call, with
    a NaN depth, and both buffers are left as they were. *)
Theorem drawLine_point_draws_nothing (WIDTH HEIGHT : nat) (p q : Vec3 float)
    (ix iy : Z) char color (st : Buffers float) fuel :
  to_int (x p) = Some ix -> to_int (y p) = Some iy ->
  to_int (Math_round (x q)) = Some ix -> to_int (Math_round (y q)) = Some iy ->
  (Z.abs ix < 2 ^ 53)%Z -> (Z.abs iy < 2 ^ 53)%Z ->
  exists st' depth,
    drawLine WIDTH HEIGHT (S fuel) p q char color st = Some st' /\
    calls st' = mkFragment (Math_round (x p)) (Math_round (y p)) depth :: calls st /\
    (depth === depth) = false /\
    frameBuffer st' = frameBuffer st /\ zBuffer st' = zBuffer st.
Proof.
  intros Hx Hy Hrx2 Hry2 Bx By.
  assert (Hrx : to_int (Math_round (x p)) = Some ix)
    by exact (round_of_int _ _ Hx Bx).
  assert (Hry : to_int (Math_round (y p)) = Some iy)
    by exact (round_of_int _ _ Hy By).
  unfold drawLine, line_init. cbn [drawLine_loop].
  set (l := mkLine _ _ _ _ _ _ _ _). set (s := mkLineState _ _ _).
  assert (Hdone : line_done l s = true).
  { unfold line_done, l, s. cbn [x0 y0 x1 y1 seq float_number].
    rewrite (eqb_exact _ _ ix ix Hrx Hrx2 Bx Bx).
    rewrite (eqb_exact _ _ iy iy Hry Hry2 By By).
    now rewrite !Z.eqb_refl. }
  rewrite Hdone.
  assert (Hnan : Prim2SF (line_depth l s) = S754_nan).
  { unfold line_depth, l, s. cbn [x0 y0 x1 y1 p1 p2].
    pose proof (planar_zero _ _ _ _ ix iy Hrx Hx Hry Hy Bx By) as P1.
    pose proof (planar_zero _ _ _ _ ix iy Hrx2 Hx Hry2 Hy Bx By) as P2.
    cbv [Math_sqrt Math_pow2 Math_round add mul sub div float_number] in P1, P2 |- *.
    apply nan_add_r, nan_mul_r. rewrite div_spec, P1, P2.
    reflexivity. }
  eexists. exists (line_depth l s). split; [reflexivity|].
  split; [apply drawPixel_calls|]. split; [now apply not_self_equal|].
  rewrite drawPixel_cases. cbv zeta.
  destruct (out_of_bounds _ _ _ _); [split; reflexivity|].
  destruct (aget _ _); [|split; reflexivity].
  cbn [lt float_number]. rewrite (nan_ltb_l _ _ Hnan). split; reflexivity.
Qed.

End PointLine.

Definition grid_point : Vec3 float := mkVec3 3%float 4%float 0.5%float.
Definition near_grid_point : Vec3 float := mkVec3 3.25%float 3.75%float 0.25%float.

Lemma drawLine_point_draws_nothing_witness :
  exists st' depth,
    drawLine 24 12 1 grid_point near_grid_point (Some "#"%char) white
      (fresh_buffers 24 12) = Some st' /\
    calls st' = mkFragment (Math_round (x grid_point)) (Math_round (y grid_point))
                  depth :: calls (fresh_buffers 24 12 : Buffers float) /\
    (depth === depth)%num = false /\
    frameBuffer st' = frameBuffer (fresh_buffers 24 12 : Buffers float) /\
    zBuffer st' = zBuffer (fresh_buffers 24 12 : Buffers float).
Proof.
  apply (drawLine_point_draws_nothing 24 12 grid_point near_grid_point 3 4);
    reflexivity.
Defined.

(** ** The [--ascii] argument *)

Section Arguments.

Lemma indexOf_first (flag : string) (pre rest : list string) :
  ~ In flag pre -> indexOf flag (pre ++ flag :: rest) = Some (List.length pre).
Proof.
  induction pre as [|a pre IH]; intros Hn; cbn [app indexOf List.length].
  - now rewrite String.eqb_refl.
  - destruct (String.eqb_spec a flag) as [->|Hne].
    + exfalso. apply Hn. now left.
    + rewrite IH; [reflexivity|]. intros H. apply Hn. now right.
Qed.

Lemma indexOf_absent (flag : string) (args : list string) :
  ~ In flag args -> indexOf flag args = None.
Proof.
  induction args as [|a args IH]; intros Hn; cbn [indexOf]; [reflexivity|].
  destruct (String.eqb_spec a flag) as [->|Hne].
  - exfalso. apply Hn. now left.
  - rewrite IH; [reflexivity|]. intros H. apply Hn. now right.
Qed.

(** The ramp is the argument that follows the first [--ascii], taken as it
    is whenever it is not empty (also when it is itself a flag such as
    [--colors], or a second [--ascii]); later occurrences of [--ascii] are
    not looked at; with no [--ascii] at all, or with [--ascii] as the last
    argument, the ramp is the default one. *)
Theorem customAsciiRamp_first_flag (pre rest : list string) (value : string) :
  ~ In "--ascii"%string pre ->
  (value <> EmptyString ->
   customAsciiRamp (pre ++ "--ascii"%string :: value :: rest) = value) /\
  customAsciiRamp (pre ++ ["--ascii"%string]) = default_ramp /\
  customAsciiRamp pre = default_ramp.
Proof.
  intros Hn. unfold customAsciiRamp. split; [|split].
  - intros Hv. rewrite (indexOf_first _ pre _ Hn).
    rewrite nth_error_app2 by lia.
    replace (List.length pre + 1 - List.length pre)%nat with 1%nat by lia.
    cbn [nth_error]. destruct value; [contradiction|reflexivity].
  - rewrite (indexOf_first _ pre _ Hn).
    rewrite nth_error_app2 by lia.
    replace (List.length pre + 1 - List.length pre)%nat with 1%nat by lia.
    reflexivity.
  - now rewrite (indexOf_absent _ pre Hn).
Qed.

End Arguments.

Lemma customAsciiRamp_first_flag_witness :
  customAsciiRamp (["-v"%string] ++ "--ascii"%string :: "--colors"%string
                     :: ["--ascii"%string; "ab"%string])
  = "--colors"%string.
Proof.
  apply (proj1 (customAsciiRamp_first_flag ["-v"%string]
                  ["--ascii"%string; "ab"%string] "--colors"%string
                  ltac:(intros [H|[]]; discriminate))).
  discriminate.
Defined.

(** ** The scene from frame to frame *)

Section SceneSteps.
Context {N : Type} {num : Number N} {trig : Trig N} {ext : Extended N}.
Variable WIDTH HEIGHT : nat.
Variable ASCII_RAMP : string.
Variable rgbAt : N -> Rgb N.

Lemma run_cubes_spins fuel V P : forall (cs : list (Cube N)) st cs' st',
  run_cubes WIDTH HEIGHT ASCII_RAMP rgbAt fuel V P cs st = Some (cs', st') ->
  cs' = List.map spin cs.
Proof.
  induction cs as [|cube cs IH]; intros st cs' st'; cbn [run_cubes].
  - intros [= <- _]. reflexivity.
  - unfold bind at 1.
    destruct (renderCube WIDTH HEIGHT ASCII_RAMP rgbAt fuel V P cube st)
      as [[cube1 st1]|] eqn:E1; [|discriminate].
    unfold bind at 1. cbn [fst snd].
    destruct (run_cubes WIDTH HEIGHT ASCII_RAMP rgbAt fuel V P cs st1)
      as [[rest st2]|] eqn:E2; [|discriminate].
    cbn [fst snd]. intros [= <- _].
    rewrite (IH _ _ _ E2). cbn [List.map]. f_equal.
    unfold renderCube in E1. unfold bind in E1.
    destruct (run_triangles _ _ _ _ _ _ _ _ _); [|discriminate].
    now injection E1 as <- _.
Qed.

End SceneSteps.


(** ** What [drawPixel] preserves, a frame preserves *)

Section Preserved.
Context {N : Type} {num : Number N}.
Variable WIDTH HEIGHT : nat.
Variable ASCII_RAMP : string.
Variable rgbAt : N -> Rgb N.
Variable P : Buffers N -> Prop.
Hypothesis P_drawPixel : forall x y z char color st,
  P st -> P (drawPixel WIDTH HEIGHT x y z char color st).

Lemma drawLine_preserves fuel p q char color st st' :
  P st -> drawLine WIDTH HEIGHT fuel p q char color st = Some st' -> P st'.
Proof.
  unfold drawLine. destruct (line_init p q) as [l s]. revert s st.
  induction fuel as [|fuel IH]; intros s st Hst; simpl; [discriminate|].
  destruct (line_done l s).
  - intros [= <-]. now apply P_drawPixel.
  - apply IH. now apply P_drawPixel.
Qed.

Lemma renderTriangle_preserves fuel mesh tvs i st st' :
  P st ->
  renderTriangle WIDTH HEIGHT ASCII_RAMP rgbAt fuel mesh tvs i st = Some st' ->
  P st'.
Proof.
  intros Hst H. unfold renderTriangle in H.
  do 6 unbind H.
  destruct (lt _ _).
  - do 3 unbind H. unbind H. unbind H.
    eauto using drawLine_preserves.
  - now injection H as <-.
Qed.

Lemma run_triangles_preserves fuel mesh tvs starts : forall st st',
  P st ->
  run_triangles WIDTH HEIGHT ASCII_RAMP rgbAt fuel mesh tvs starts st = Some st' ->
  P st'.
Proof.
  induction starts as [|i starts IH]; intros st st' Hst H; simpl in H.
  - now injection H as <-.
  - unbind H. eauto using renderTriangle_preserves.
Qed.

Context {trig : Trig N} {ext : Extended N}.

Lemma run_cubes_preserves fuel vm pm cs : forall st res,
  P st ->
  run_cubes WIDTH HEIGHT ASCII_RAMP rgbAt fuel vm pm cs st = Some res ->
  P (snd res).
Proof.
  induction cs as [|cube cs IH]; intros st res Hst H; simpl in H.
  - now injection H as <-.
  - unbind H. unbind H. injection H as <-. simpl.
    apply (IH (snd a)); [|assumption].
    unfold renderCube in Ha. unbind Ha. injection Ha as <-. simpl.
    eauto using run_triangles_preserves.
Qed.

Lemma renderFrame_preserves fuel scene scene' st :
  P (fresh_buffers WIDTH HEIGHT) ->
  renderFrame WIDTH HEIGHT ASCII_RAMP rgbAt fuel scene = Some (scene', st) ->
  P st.
Proof.
  unfold renderFrame. intros H0 H. unbind H. injection H as _ <-.
  eapply run_cubes_preserves; eassumption.
Qed.

End Preserved.

(** ** The text of a frame *)

Section Output.
Context {N : Type} {num : Number N}.
Variable WIDTH HEIGHT : nat.

(** What is appended to [output]: [frameBuffer[j * WIDTH + i]], which is a
    cell or [undefined], or a line break. *)
Inductive Piece : Type :=
| Shown (c : option (Cell N))
| LineBreak.

(** Lines 290-298: [output], as the list of the pieces appended to it.
    The loop counters are small integers, exact in the arithmetic of the
    script. *)
Definition output (frameBuffer : list (Cell N)) : list Piece :=
  fold_left (fun output j =>
    let output :=
      fold_left (fun output i =>
                   output ++ [Shown (nth_error frameBuffer (j * WIDTH + i))])
                (List.seq 0 WIDTH) output in
    if (j <? HEIGHT - 1)%nat then output ++ [LineBreak] else output)
    (List.seq 0 HEIGHT) [].

(** The cells of a text, line breaks dropped. *)
Definition cells_of (text : list Piece) : list (option (Cell N)) :=
  flat_map (fun p => match p with Shown c => [c] | LineBreak => [] end) text.

(** Row [j] of the text. *)
Definition text_row (frameBuffer : list (Cell N)) (j : nat) : list Piece :=
  List.map (fun c => Shown (Some c)) (firstn WIDTH (skipn (j * WIDTH) frameBuffer))
  ++ (if (j <? HEIGHT - 1)%nat then [LineBreak] else []).

Lemma inner_loop (f : nat -> Piece) l : forall out,
  fold_left (fun output i => output ++ [f i]) l out = out ++ List.map f l.
Proof.
  induction l as [|i l IH]; intros out; cbn [fold_left List.map].
  - now rewrite app_nil_r.
  - rewrite IH, <- app_assoc. reflexivity.
Qed.

Lemma outer_loop (g : list Piece -> nat -> list Piece) (row : nat -> list Piece) l :
  (forall out j, g out j = out ++ row j) ->
  forall out, fold_left g l out = out ++ flat_map row l.
Proof.
  intros Hg. induction l as [|j l IH]; intros out; cbn [fold_left flat_map].
  - now rewrite app_nil_r.
  - rewrite IH, Hg, <- app_assoc. reflexivity.
Qed.

Lemma output_flat (fb : list (Cell N)) :
  output fb =
  flat_map (fun j =>
    List.map (fun i => Shown (nth_error fb (j * WIDTH + i))) (List.seq 0 WIDTH)
    ++ (if (j <? HEIGHT - 1)%nat then [LineBreak] else [])) (List.seq 0 HEIGHT).
Proof.
  unfold output. rewrite outer_loop with (row := fun j =>
    List.map (fun i => Shown (nth_error fb (j * WIDTH + i))) (List.seq 0 WIDTH)
    ++ (if (j <? HEIGHT - 1)%nat then [LineBreak] else [])); [reflexivity|].
  intros out j. cbv zeta. rewrite inner_loop.
  destruct (j <? HEIGHT - 1)%nat.
  - now rewrite <- app_assoc.
  - now rewrite app_nil_r.
Qed.

Lemma row_cells (l : list (Cell N)) n : (n <= List.length l)%nat ->
  List.map (fun i => Shown (nth_error l i)) (List.seq 0 n)
  = List.map (fun c => Shown (Some c)) (firstn n l).
Proof.
  revert l. induction n as [|n IH]; intros l Hn; [reflexivity|].
  destruct l as [|c l]; [simpl in Hn; lia|].
  cbn [List.seq firstn List.map nth_error]. f_equal.
  rewrite <- seq_shift, List.map_map. cbn [nth_error].
  apply IH. simpl in Hn. lia.
Qed.

Lemma output_rows_text (fb : list (Cell N)) :
  List.length fb = (WIDTH * HEIGHT)%nat ->
  output fb = flat_map (text_row fb) (List.seq 0 HEIGHT).
Proof.
  intros Hlen. rewrite output_flat, !flat_map_concat_map. f_equal.
  apply List.map_ext_in.
  intros j Hj. apply in_seq in Hj. unfold text_row. f_equal.
  rewrite <- row_cells.
  - apply List.map_ext. intros i. now rewrite nth_error_skipn.
  - rewrite List.length_skipn. nia.
Qed.

Lemma chunks (n : nat) : forall fb : list (Cell N),
  List.length fb = (n * WIDTH)%nat ->
  flat_map (fun j => firstn WIDTH (skipn (j * WIDTH) fb)) (List.seq 0 n) = fb.
Proof.
  induction n as [|n IH]; intros fb Hlen.
  - destruct fb; [reflexivity|discriminate].
  - cbn [List.seq flat_map]. rewrite <- seq_shift, flat_map_concat_map,
      List.map_map, <- flat_map_concat_map.
    cbn [Nat.mul skipn].
    transitivity (firstn WIDTH fb ++ skipn WIDTH fb); [|apply firstn_skipn].
    f_equal.
    transitivity (flat_map (fun j => firstn WIDTH (skipn (j * WIDTH) (skipn WIDTH fb)))
                    (List.seq 0 n)).
    + apply flat_map_ext. intros j. f_equal.
      rewrite skipn_skipn. f_equal. lia.
    + apply IH. rewrite List.length_skipn. lia.
Qed.

Lemma cells_of_app a b : cells_of (a ++ b) = cells_of a ++ cells_of b.
Proof. unfold cells_of. apply flat_map_app. Qed.

Lemma cells_of_shown (l : list (Cell N)) :
  cells_of (List.map (fun c => Shown (Some c)) l) = List.map Some l.
Proof. induction l as [|c l IH]; [reflexivity|]. cbn. now f_equal. Qed.

Lemma cells_of_rows (fb : list (Cell N)) l :
  cells_of (flat_map (text_row fb) l)
  = List.map Some (flat_map (fun j => firstn WIDTH (skipn (j * WIDTH) fb)) l).
Proof.
  induction l as [|j l IH]; [reflexivity|].
  cbn [flat_map]. rewrite cells_of_app, List.map_app, IH. f_equal.
  unfold text_row. rewrite cells_of_app, cells_of_shown.
  destruct (j <? HEIGHT - 1)%nat; cbn; now rewrite app_nil_r.
Qed.

Context {trig : Trig N} {ext : Extended N}.
Variable ASCII_RAMP : string.
Variable rgbAt : N -> Rgb N.

(** The text of a frame that completes: the frame buffer has
    [WIDTH * HEIGHT] cells, the text is its [HEIGHT] rows of [WIDTH] cells
    each, with a line break after every row but the last, and every cell
    is printed once, in order, none of them [undefined]. *)
Theorem frame_text_prints_every_cell fuel (scene scene' : @Scene N)
    (st : Buffers N) :
  renderFrame WIDTH HEIGHT ASCII_RAMP rgbAt fuel scene = Some (scene', st) ->
  List.length (frameBuffer st) = (WIDTH * HEIGHT)%nat /\
  output (frameBuffer st) = flat_map (text_row (frameBuffer st)) (List.seq 0 HEIGHT) /\
  (forall j, (j < HEIGHT)%nat ->
     List.length (firstn WIDTH (skipn (j * WIDTH) (frameBuffer st))) = WIDTH) /\
  cells_of (output (frameBuffer st)) = List.map Some (frameBuffer st).
Proof.
  intros H.
  assert (Hlen : List.length (frameBuffer st) = (WIDTH * HEIGHT)%nat).
  { apply (renderFrame_preserves WIDTH HEIGHT ASCII_RAMP rgbAt
             (fun st => List.length (frameBuffer st) = (WIDTH * HEIGHT)%nat))
      with (trig := trig) (ext := ext)
           (fuel := fuel) (scene := scene) (scene' := scene'); [| |exact H].
    - intros x y z char color st0 H0.
      pose proof (drawPixel_lengths WIDTH HEIGHT x y z char color st0) as [Hf _].
      cbv zeta in Hf. congruence.
    - unfold fresh_buffers. cbn [frameBuffer]. apply repeat_length. }
  split; [exact Hlen|]. split; [now apply output_rows_text|]. split.
  - intros j Hj. rewrite List.length_firstn, List.length_skipn. nia.
  - rewrite (output_rows_text _ Hlen), cells_of_rows, chunks; [reflexivity|].
    rewrite Hlen. apply Nat.mul_comm.
Qed.

End Output.

Lemma frame_text_prints_every_cell_witness :
  cells_of (output 24 12 (frameBuffer sample_buffers))
  = List.map Some (frameBuffer sample_buffers).
Proof.
  refine (proj2 (proj2 (proj2
    (frame_text_prints_every_cell (trig := series_trig) 24 12
       default_ramp sample_rgbAt 100 sample_scene sample_scene' sample_buffers _)))).
  vm_compute. reflexivity.
Defined.

(** ** Pixels that are not numbers *)

Section NotNumbers.
Import DoubleInt.
Local Open Scope num_scope.

(** [drawPixel] leaves both buffers as they are when [x] or [y] is NaN or
    infinite, or when the depth [z] is NaN.  (A NaN coordinate passes the
    bounds test of line 179, every comparison with it being false, and is
    stopped by the depth test against [zBuffer[NaN]], which is
    [undefined].) *)
Theorem drawPixel_ignores_non_numbers (WIDTH HEIGHT : nat) (x y z : float)
    char color (st : Buffers float) :
  (Z.of_nat WIDTH < 2 ^ 53)%Z -> (Z.of_nat HEIGHT < 2 ^ 53)%Z ->
  Double.is_finite x = false \/ Double.is_finite y = false \/ (z === z) = false ->
  let st' := drawPixel WIDTH HEIGHT x y z char color st in
  frameBuffer st' = frameBuffer st /\ zBuffer st' = zBuffer st.
Proof.
  intros HW HH [Hx|[Hy|Hz]]; cbv zeta.
  - destruct (no_cell_unchanged WIDTH HEIGHT x y z char color st HW HH) as [A B];
      [left; now apply round_not_finite|]. split; assumption.
  - destruct (no_cell_unchanged WIDTH HEIGHT x y z char color st HW HH) as [A B];
      [right; now apply round_not_finite|]. split; assumption.
  - apply not_self_equal in Hz.
    rewrite drawPixel_cases. cbv zeta.
    destruct (out_of_bounds _ _ _ _); [split; reflexivity|].
    destruct (aget _ _); [|split; reflexivity].
    cbn [lt float_number]. rewrite (nan_ltb_l _ _ Hz). split; reflexivity.
Qed.

End NotNumbers.

Lemma drawPixel_ignores_non_numbers_witness :
  frameBuffer (drawPixel 24 12 nan 3%float 0.5%float None white (fresh_buffers 24 12))
  = frameBuffer (fresh_buffers 24 12 : Buffers float).
Proof.
  refine (proj1 (drawPixel_ignores_non_numbers 24 12 nan 3%float 0.5%float None
                   white (fresh_buffers 24 12) _ _ _)).
  - reflexivity.
  - reflexivity.
  - left. reflexivity.
Defined.

(** ** The eye in view space, on doubles *)

Section EyeOrigin.
Local Open Scope num_scope.

Lemma add_opp_self (a : float) :
  Double.is_finite a = true -> Prim2SF (a + - a)%float = S754_zero false.
Proof.
  unfold Double.is_finite. rewrite add_spec, opp_spec.
  destruct (Prim2SF a) as [[]|[]| |s m e]; try discriminate; intros _;
    try reflexivity.
  cbn [SFopp]. unfold SF64add, SFadd. cbv zeta.
  rewrite Z.min_id. unfold shl_align.
  change (IntDef.Z.sub e e) with (e - e)%Z. rewrite Z.sub_diag. cbn [fst].
  destruct s; cbn [negb cond_Zopp];
    [rewrite Z.add_opp_diag_l|rewrite Z.add_opp_diag_r]; reflexivity.
Qed.

Lemma finite_opp (a : float) : Double.is_finite (- a)%float = Double.is_finite a.
Proof.
  unfold Double.is_finite. rewrite opp_spec.
  now destruct (Prim2SF a) as [[]|[]| |[] ? ?].
Qed.

(** The [w] of a point with finite coordinates under a matrix whose last
    column is [0, 0, 0, 1]. *)
Lemma affine_w (a b c : float) :
  Double.is_finite a = true -> Double.is_finite b = true ->
  Double.is_finite c = true ->
  Prim2SF (#0 * a + #0 * b + #0 * c + #1)
  = S754_finite false 4503599627370496 (-52).
Proof.
  unfold Double.is_finite.
  cbv [add mul num_of_Z float_number].
  rewrite !add_spec, !mul_spec.
  assert (E0 : Prim2SF (Double.of_Z 0) = S754_zero false) by reflexivity.
  assert (E1 : Prim2SF (Double.of_Z 1)
               = S754_finite false 4503599627370496 (-52)) by reflexivity.
  rewrite E0, E1.
  destruct (Prim2SF a) as [[]|[]| |[] ? ?]; try discriminate; intros _;
    destruct (Prim2SF b) as [[]|[]| |[] ? ?]; try discriminate; intros _;
    destruct (Prim2SF c) as [[]|[]| |[] ? ?]; try discriminate; intros _;
    reflexivity.
Qed.

Lemma zero_over_one (n w : float) :
  Prim2SF n = S754_zero false ->
  Prim2SF w = S754_finite false 4503599627370496 (-52) ->
  (n / w)%float = 0%float.
Proof.
  intros Hn Hw. apply Prim2SF_inj. rewrite div_spec, Hn, Hw. reflexivity.
Qed.

(** On doubles the view matrix sends the eye to exactly [(0, 0, 0)],
    whenever the coordinates of the eye and the three translation entries
    of the matrix are finite. *)
Theorem view_matrix_eye_to_origin (cam : Camera float) :
  let V := createViewMatrix cam in
  Double.is_finite (x (position cam)) = true ->
  Double.is_finite (y (position cam)) = true ->
  Double.is_finite (z (position cam)) = true ->
  Double.is_finite (mat4.at_ V 12) = true ->
  Double.is_finite (mat4.at_ V 13) = true ->
  Double.is_finite (mat4.at_ V 14) = true ->
  mat4.transformPoint V (position cam) = mkVec3 0%float 0%float 0%float.
Proof.
  cbv zeta. unfold createViewMatrix.
  set (zAxis := vec3.normalize _).
  set (xAxis := vec3.normalize _).
  set (yAxis := vec3.cross _ _).
  destruct (position cam) as [ex ey ez]. cbn [x y z].
  cbn [mat4.at_ nth]. rewrite !finite_opp.
  intros Fx Fy Fz F12 F13 F14.
  unfold mat4.transformPoint. cbn [mat4.at_ nth x y z].
  pose proof (affine_w ex ey ez Fx Fy Fz) as Hw.
  f_equal; (apply zero_over_one; [|exact Hw]).
  - exact (add_opp_self _ F12).
  - exact (add_opp_self _ F13).
  - exact (add_opp_self _ F14).
Qed.

End EyeOrigin.

Lemma view_matrix_eye_to_origin_witness :
  mat4.transformPoint (createViewMatrix camera) (position (@camera float _))
  = mkVec3 0%float 0%float 0%float.
Proof.
  apply (view_matrix_eye_to_origin camera); reflexivity.
Defined.

(** ** Setting the scene up and running it *)

Section Start.
Context {N : Type} {num : Number N}.
Local Open Scope num_scope.

Definition numCubes : nat := 20.

(** Lines 220-236.  [random k] is what the [k]-th call of [Math.random()]
    returns (counting from 0); a cube takes six of them, in the order the
    script evaluates them.  [cubes] is empty before. *)
Definition setupScene (random : nat -> N) : list (Cube N) :=
  fold_left (fun cubes i =>
    cubes ++
    [ mkCube
        (vec3.create ((random (6 * i)%nat - dec 1 2) * #20)
                     ((random (6 * i + 1)%nat - dec 1 2) * #20)
                     ((random (6 * i + 2)%nat - dec 1 2) * #20))
        (vec3.create (random (6 * i + 3)%nat * Math_PI * #2)
                     (random (6 * i + 4)%nat * Math_PI * #2)
                     (random (6 * i + 5)%nat * Math_PI * #2))
        (vec3.create #1 #1 #1) ])
    (List.seq 0 numCubes) [].

Context {trig : Trig N} {ext : Extended N}.
Variable WIDTH HEIGHT : nat.
Variable ASCII_RAMP : string.
Variable rgbAt : N -> Rgb N.

(** Lines 315-323: the first [n] ticks of the timer, each one a call of
    [renderFrame] on the scene the one before left. *)
Fixpoint frames (n : nat) (fuel : nat) (scene : @Scene N) : option (@Scene N) :=
  match n with
  | O => Some scene
  | S n' =>
      match renderFrame WIDTH HEIGHT ASCII_RAMP rgbAt fuel scene with
      | Some (scene', _) => frames n' fuel scene'
      | None => None
      end
  end.

(** After [n] frames the scene has the same cubes in the same order, each
    one spun [n] times (its rotation advanced [n] times by [0.01] about x
    and about y), and [time] advanced [n] times by [0.01]. *)
Theorem frames_spin_every_cube n fuel : forall (scene scene' : @Scene N),
  frames n fuel scene = Some scene' ->
  cubes scene' = List.map (Nat.iter n spin) (cubes scene) /\
  time scene' = Nat.iter n (fun t => t + dec 1 100) (time scene).
Proof.
  induction n as [|n IH]; intros scene scene'; cbn [frames].
  - intros [= <-]. split; [|reflexivity].
    cbn [Nat.iter]. now rewrite List.map_id.
  - destruct (renderFrame WIDTH HEIGHT ASCII_RAMP rgbAt fuel scene)
      as [[scene1 st1]|] eqn:E; [|discriminate].
    intros H. destruct (IH _ _ H) as [Hc Ht].
    unfold renderFrame, bind in E.
    destruct (run_cubes _ _ _ _ _ _ _ _ _) as [[cs' st']|] eqn:E'; [|discriminate].
    cbn [fst snd] in E. injection E as <- _. cbn [cubes time] in Hc, Ht.
    rewrite (run_cubes_spins _ _ _ _ _ _ _ _ _ _ _ E') in Hc.
    split.
    + rewrite Hc, List.map_map. apply List.map_ext. intros c.
      symmetry. exact (Nat.iter_succ_r n _ spin c).
    + rewrite Ht. symmetry.
      exact (Nat.iter_succ_r n _ (fun t => t + dec 1 100) (time scene)).
Qed.

End Start.

Section SceneRanges.
Local Open Scope R_scope.

Lemma push_loop {A} (f : nat -> A) l : forall acc,
  fold_left (fun cubes i => cubes ++ [f i]) l acc = acc ++ List.map f l.
Proof.
  induction l as [|i l IH]; intros acc; cbn [fold_left List.map].
  - now rewrite app_nil_r.
  - rewrite IH, <- app_assoc. reflexivity.
Qed.

(** [setupScene] makes 20 cubes.  With every [Math.random()] in [[0, 1)],
    and in exact arithmetic, each position coordinate lies in [[-10, 10)],
    each rotation angle in [[0, 2 * PI)], and every scale is [(1, 1, 1)]. *)
Theorem setupScene_ranges (random : nat -> R) :
  (forall k, 0 <= random k < 1) ->
  List.length (setupScene random) = 20%nat /\
  forall cube, In cube (setupScene random) ->
    (-10 <= x (cube_position cube) < 10 /\
     -10 <= y (cube_position cube) < 10 /\
     -10 <= z (cube_position cube) < 10) /\
    (0 <= x (rotation cube) < 2 * PI /\
     0 <= y (rotation cube) < 2 * PI /\
     0 <= z (rotation cube) < 2 * PI) /\
    scale cube = mkVec3 1 1 1.
Proof.
  intros Hr. unfold setupScene. rewrite push_loop, app_nil_l.
  split; [now rewrite List.length_map, List.length_seq|].
  intros cube Hin. apply in_map_iff in Hin. destruct Hin as (i & <- & _).
  pose proof PI_RGT_0 as Hpi.
  cbv [cube_position rotation scale vec3.create x y z dec
       sub mul div num_of_Z Math_PI real_number].
  pose proof (Hr (6 * i)%nat). pose proof (Hr (6 * i + 1)%nat).
  pose proof (Hr (6 * i + 2)%nat). pose proof (Hr (6 * i + 3)%nat).
  pose proof (Hr (6 * i + 4)%nat). pose proof (Hr (6 * i + 5)%nat).
  repeat split; try lra; try nra.
Qed.

End SceneRanges.

Lemma setupScene_ranges_witness :
  List.length (setupScene (fun _ => (1 / 2)%R)) = 20%nat.
Proof.
  apply (setupScene_ranges (fun _ => (1 / 2)%R)). intros k. lra.
Defined.

Lemma frames_spin_every_cube_witness :
  time sample_scene' = (time sample_scene + dec 1 100)%num.
Proof.
  refine (proj2 (frames_spin_every_cube (trig := series_trig) 24 12 default_ramp
                   sample_rgbAt 1 100 sample_scene sample_scene' _)).
  vm_compute. reflexivity.
Defined.

(** ** How close the walk stays to the line *)

Module ZAccuracy.
Import ZLine ZShape.
Local Open Scope Z_scope.

Definition accurate_inv (c : Consts) (s : State) (a b : Z) : Prop :=
  major_inv c s a b /\
  (DY c <= DX c -> - DX c <= 2 * balance c a b) /\
  (DX c < DY c -> 2 * balance c a b <= DY c).

Lemma init_accurate x0 y0 x1 y1 :
  accurate_inv (fst (init x0 y0 x1 y1)) (snd (init x0 y0 x1 y1)) 0 0.
Proof.
  split; [apply init_major|].
  assert (0 <= DX (fst (init x0 y0 x1 y1)) /\ 0 <= DY (fst (init x0 y0 x1 y1)))
    as [Hx Hy] by (cbn [init fst DX DY]; lia).
  unfold balance. split; intros; lia.
Qed.

Lemma step_accurate c s a b :
  signs c -> accurate_inv c s a b -> done c s = false ->
  exists a' b', accurate_inv c (step c s) a' b'.
Proof.
  intros Hs (Hm & Ax & Ay) Hd. pose proof Hm as (Ht & Jx & Jy).
  assert (Hnd : ~ (a = DX c /\ b = DY c)).
  { intros H. apply (done_taken c s a b Hs Ht) in H. congruence. }
  destruct Ht as (Ha & Hb & Hx & Hy & He).
  unfold accurate_inv, major_inv, balance in *. unfold step. cbv zeta.
  destruct (Z.ltb_spec (- DY c) (2 * Err s)) as [Cx|Cx];
    destruct (Z.ltb_spec (2 * Err s) (DX c)) as [Cy|Cy];
    cbn [X0 Y0 Err]; rewrite He in Cx, Cy.
  - assert (a < DX c) by nia. assert (b < DY c) by nia.
    exists (a + 1), (b + 1).
    split; [split; [|split]|split].
    + unfold taken. cbn [X0 Y0 Err].
      repeat split; try lia; try (rewrite ?Hx, ?Hy; ring); try (rewrite He; ring).
    + intros H1 H2. specialize (Jx H1 H2). lia.
    + intros H1. specialize (Jy H1). lia.
    + intros H1. lia.
    + intros H1. specialize (Jy H1). lia.
  - assert (a < DX c) by nia.
    exists (a + 1), b.
    split; [split; [|split]|split].
    + unfold taken. cbn [X0 Y0 Err].
      repeat split; try lia; try (rewrite ?Hx, ?Hy; ring); try (rewrite He; ring).
    + intros H1 H2. specialize (Jx H1 H2). lia.
    + intros H1. specialize (Jy H1). lia.
    + intros H1. lia.
    + intros H1. specialize (Jy H1). lia.
  - assert (b < DY c) by nia.
    exists a, (b + 1).
    split; [split; [|split]|split].
    + unfold taken. cbn [X0 Y0 Err].
      repeat split; try lia; try (rewrite ?Hx, ?Hy; ring); try (rewrite He; ring).
    + intros H1 H2. specialize (Jx H1 H2). lia.
    + intros H1. specialize (Jy H1). lia.
    + intros H1. assert (H2 : 0 < DX c) by lia. specialize (Jx H1 H2). lia.
    + intros H1. lia.
  - exfalso. apply Hnd. nia.
Qed.

(** Every state of the walk is within half a cell of the line, along the
    shorter side of the box. *)
Lemma chain_accurate c s w : chain c s w -> signs c ->
  forall a b, accurate_inv c s a b ->
  forall si, In si w ->
  exists a' b', taken c si a' b' /\
    2 * Z.abs (b' * DX c - a' * DY c) <= Z.max (DX c) (DY c).
Proof.
  assert (Hacc : forall s a b, accurate_inv c s a b ->
            taken c s a b /\
            2 * Z.abs (b * DX c - a * DY c) <= Z.max (DX c) (DY c)).
  { intros s0 a b ((Ht & Jx & Jy) & Ax & Ay). split; [assumption|].
    unfold balance in *. destruct Ht as (Ha & Hb & _).
    destruct (Z.le_gt_cases (DY c) (DX c)) as [H1|H1].
    - specialize (Ax H1).
      destruct (Z.eq_dec (DX c) 0) as [H0|H0].
      + assert (DY c = 0) by lia. assert (a = 0) by lia. assert (b = 0) by lia.
        subst a b. rewrite H0. lia.
      + assert (H2 : 0 < DX c) by lia. specialize (Jx H1 H2). lia.
    - specialize (Jy H1). specialize (Ay H1). lia. }
  induction 1 as [s Hd|s w Hd Hc IH]; intros Hs a b Hinv si Hin.
  - destruct Hin as [<-|[]]. exists a, b. now apply Hacc.
  - destruct Hin as [<-|Hin]; [exists a, b; now apply Hacc|].
    destruct (step_accurate c s a b Hs Hinv Hd) as (a' & b' & Hinv').
    exact (IH Hs a' b' Hinv' si Hin).
Qed.

End ZAccuracy.

Section WalkAccuracy.
Context {N : Type} {num : Number N} {safe : Z -> Prop} {laws : IntegerLaws N safe}.
Local Open Scope Z_scope.
Variable C : Z.
Hypothesis C_pos : 1 <= C.
Hypothesis safe_C : forall n, Z.abs n <= 8 * C -> safe n.

Lemma line_walk_accurate (p1 p2 : Vec3 N) ix0 iy0 ix1 iy1 fuel :
  to_int (Math_round (x p1)) = Some ix0 ->
  to_int (Math_round (y p1)) = Some iy0 ->
  to_int (Math_round (x p2)) = Some ix1 ->
  to_int (Math_round (y p2)) = Some iy1 ->
  Z.abs ix0 <= C -> Z.abs iy0 <= C -> Z.abs ix1 <= C -> Z.abs iy1 <= C ->
  Z.abs (ix1 - ix0) + Z.abs (iy1 - iy0) < Z.of_nat fuel ->
  exists w,
    line_walk fuel (fst (line_init p1 p2)) (snd (line_init p1 p2)) = Some w /\
    forall s, In s w ->
      exists X Y, to_int (x0 s) = Some X /\ to_int (y0 s) = Some Y /\
        2 * Z.abs ((Y - iy0) * (ix1 - ix0) - (X - ix0) * (iy1 - iy0))
        <= Z.max (Z.abs (ix1 - ix0)) (Z.abs (iy1 - iy0)).
Proof.
  intros HX0 HY0 HX1 HY1 B1 B2 B3 B4 Hfuel.
  destruct (line_walk_total C C_pos safe_C p1 p2 ix0 iy0 ix1 iy1 fuel)
    as (w & zw & Hw & HF & Hch & Hl & Hinv & _ & _); auto.
  pose proof (ZAccuracy.init_accurate ix0 iy0 ix1 iy1) as Hacc.
  pose proof (init_start ix0 iy0 ix1 iy1) as Hstart. cbv zeta in Hstart.
  set (c := fst (ZLine.init ix0 iy0 ix1 iy1)) in *.
  set (zs0 := snd (ZLine.init ix0 iy0 ix1 iy1)) in *.
  assert (Hc : ZLine.X1 c = ix1 /\ ZLine.Y1 c = iy1 /\
               ZLine.DX c = Z.abs (ix1 - ix0) /\ ZLine.DY c = Z.abs (iy1 - iy0))
    by (repeat split; reflexivity).
  destruct Hc as (HcX & HcY & HcDX & HcDY). destruct Hstart as [HsX HsY].
  pose proof Hinv as (Hsg & _).
  exists w. split; [exact Hw|].
  intros s Hs. apply In_nth_error in Hs. destruct Hs as [i Hs].
  destruct (Forall2_nth _ _ _ HF _ _ Hs) as (zs & Hzs & (R1 & R2 & _)).
  destruct (ZAccuracy.chain_accurate c zs0 zw Hch Hsg 0 0 Hacc zs
              (nth_error_In _ _ Hzs))
    as (a & b & (Ha & Hb & Hx & Hy & _) & Hbal).
  exists (ZLine.X0 zs), (ZLine.Y0 zs).
  split; [exact R1|]. split; [exact R2|].
  rewrite <- HcDX, <- HcDY.
  assert (Ex : ix1 - ix0 = ZLine.SX c * ZLine.DX c) by lia.
  assert (Ey : iy1 - iy0 = ZLine.SY c * ZLine.DY c) by lia.
  assert (Fx : ZLine.X0 zs - ix0 = ZLine.SX c * a) by lia.
  assert (Fy : ZLine.Y0 zs - iy0 = ZLine.SY c * b) by lia.
  rewrite Ex, Ey, Fx, Fy.
  replace (ZLine.SY c * b * (ZLine.SX c * ZLine.DX c)
           - ZLine.SX c * a * (ZLine.SY c * ZLine.DY c))
    with (ZLine.SX c * ZLine.SY c * (b * ZLine.DX c - a * ZLine.DY c)) by ring.
  rewrite Z.abs_mul.
  replace (Z.abs (ZLine.SX c * ZLine.SY c)) with 1; [lia|].
  destruct Hsg as [[->| ->] [->| ->]]; reflexivity.
Qed.

End WalkAccuracy.

(** On doubles, between rounded end points [(ix0, iy0)] and [(ix1, iy1)]
    below [2^50] in magnitude, every pixel [(X, Y)] of a line is within
    half a cell of the straight line through the two rounded end points,
    measured along the shorter side of their box:
    [2 * |(Y - iy0) * (ix1 - ix0) - (X - ix0) * (iy1 - iy0)|] is at most
    [max |ix1 - ix0| |iy1 - iy0|]. *)
Theorem drawLine_follows_the_line (WIDTH HEIGHT : nat) (p1 p2 : Vec3 float)
    (ix0 iy0 ix1 iy1 : Z) char color (st : Buffers float) :
  to_int (Math_round (x p1)) = Some ix0 ->
  to_int (Math_round (y p1)) = Some iy0 ->
  to_int (Math_round (x p2)) = Some ix1 ->
  to_int (Math_round (y p2)) = Some iy1 ->
  (Z.abs ix0 < 2 ^ 50)%Z -> (Z.abs iy0 < 2 ^ 50)%Z ->
  (Z.abs ix1 < 2 ^ 50)%Z -> (Z.abs iy1 < 2 ^ 50)%Z ->
  forall fuel, (Z.abs (ix1 - ix0) + Z.abs (iy1 - iy0) < Z.of_nat fuel)%Z ->
  exists st' path,
    drawLine WIDTH HEIGHT fuel p1 p2 char color st = Some st' /\
    calls st' = rev path ++ calls st /\
    forall f, In f path ->
      exists X Y, to_int (fx f) = Some X /\ to_int (fy f) = Some Y /\
        (2 * Z.abs ((Y - iy0) * (ix1 - ix0) - (X - ix0) * (iy1 - iy0))
         <= Z.max (Z.abs (ix1 - ix0)) (Z.abs (iy1 - iy0)))%Z.
Proof.
  intros X0 Y0 X1 Y1 B1 B2 B3 B4 fuel Hfuel.
  destruct (line_walk_accurate (2 ^ 50 - 1) grid_pos safe_grid p1 p2
              ix0 iy0 ix1 iy1 fuel) as (w & Hw & Hacc);
    try assumption; try lia.
  set (l := fst (line_init p1 p2)) in *.
  pose proof (drawLine_loop_walk WIDTH HEIGHT fuel l
                char color (snd (line_init p1 p2)) st) as Hloop.
  rewrite Hw in Hloop. destruct Hloop as (st' & Hst' & Hcalls).
  exists st', (List.map (line_fragment l) w). split.
  { unfold drawLine. subst l. destruct (line_init p1 p2). exact Hst'. }
  split; [exact Hcalls|].
  intros f Hf. apply in_map_iff in Hf. destruct Hf as (s & <- & Hs).
  exact (Hacc s Hs).
Qed.

Lemma drawLine_follows_the_line_witness :
  exists st' path,
    drawLine 24 12 8 near_p1 near_p2 (Some "#"%char) white (fresh_buffers 24 12)
      = Some st' /\
    calls st' = rev path ++ calls (fresh_buffers 24 12 : Buffers float).
Proof.
  destruct (drawLine_follows_the_line 24 12 near_p1 near_p2 0 0 4 3
              (Some "#"%char) white (fresh_buffers 24 12)) with (fuel := 8%nat)
    as (st' & path & Hd & Hc & _); try reflexivity.
  exists st', path. split; assumption.
Defined.

(** ** The cells a line leaves alone *)

Section OtherCells.
Context {N : Type} {num : Number N}.
Variable WIDTH HEIGHT : nat.
Local Open Scope num_scope.

Definition sized (st : Buffers N) : Prop :=
  List.length (frameBuffer st) = (WIDTH * HEIGHT)%nat /\
  List.length (zBuffer st) = (WIDTH * HEIGHT)%nat.

Lemma drawPixel_sized x y z char color st :
  sized st -> sized (drawPixel WIDTH HEIGHT x y z char color st).
Proof.
  intros [Hf Hz].
  pose proof (drawPixel_lengths WIDTH HEIGHT x y z char color st) as [Hf' Hz'].
  cbv zeta in Hf', Hz'. split; congruence.
Qed.

Lemma drawPixel_other_cells x y z char color st k :
  sized st ->
  fragment_cell WIDTH HEIGHT (mkFragment x y z) <> Some k ->
  let st' := drawPixel WIDTH HEIGHT x y z char color st in
  nth_error (frameBuffer st') k = nth_error (frameBuffer st) k /\
  nth_error (zBuffer st') k = nth_error (zBuffer st) k.
Proof.
  intros [Hf Hz] Hk. cbv zeta. rewrite drawPixel_cases. cbv zeta.
  unfold fragment_cell in Hk. cbn [fx fy] in Hk.
  set (index := pixel_index WIDTH (Math_round x) (Math_round y)) in *.
  destruct (out_of_bounds _ _ _ _); [split; reflexivity|].
  destruct (aget (zBuffer st) index); [|split; reflexivity].
  destruct (z <? n); [|split; reflexivity].
  cbn [frameBuffer zBuffer]. rewrite !nth_error_aset, Hf, Hz.
  destruct (element index (WIDTH * HEIGHT)) as [k0|]; [|split; reflexivity].
  destruct (Nat.eqb_spec k k0) as [->|Hne]; [congruence|split; reflexivity].
Qed.

Lemma drawLine_loop_other_cells fuel l char color k : forall s st st' w,
  sized st ->
  line_walk fuel l s = Some w ->
  drawLine_loop WIDTH HEIGHT fuel l s char color st = Some st' ->
  (forall s', In s' w ->
     fragment_cell WIDTH HEIGHT (line_fragment l s') <> Some k) ->
  nth_error (frameBuffer st') k = nth_error (frameBuffer st) k /\
  nth_error (zBuffer st') k = nth_error (zBuffer st) k.
Proof.
  induction fuel as [|fuel IH]; intros s st st' w Hsz; simpl; [discriminate|].
  pose proof (drawPixel_other_cells (x0 s) (y0 s) (line_depth l s) char color st k Hsz)
    as Hpix. cbv zeta in Hpix.
  destruct (line_done l s).
  - intros [= <-] [= <-] Hw. apply Hpix. apply (Hw s). now left.
  - destruct (line_walk fuel l (line_step l s)) as [w'|] eqn:Hw'; [|discriminate].
    cbn [option_map]. intros [= <-] Hloop Hw.
    destruct (IH _ _ _ _ (drawPixel_sized _ _ _ char color _ Hsz) Hw' Hloop) as [A B].
    { intros s' Hs'. apply Hw. now right. }
    destruct Hpix as [A' B']; [apply (Hw s); now left|].
    split; congruence.
Qed.

End OtherCells.

Section OutsideTheBox.
Import DoubleInt.
Local Open Scope Z_scope.

Lemma cell_injective (WIDTH HEIGHT : nat) X Y X' Y' :
  in_grid WIDTH HEIGHT X Y = true -> in_grid WIDTH HEIGHT X' Y' = true ->
  cell WIDTH X Y = cell WIDTH X' Y' -> X = X' /\ Y = Y'.
Proof.
  unfold in_grid, cell. intros H1 H2 Hc.
  repeat (apply andb_prop in H1; destruct H1 as [H1 ?]).
  repeat (apply andb_prop in H2; destruct H2 as [H2 ?]).
  repeat match goal with
  | H : (_ <=? _) = true |- _ => apply Z.leb_le in H
  | H : (_ <? _) = true |- _ => apply Z.ltb_lt in H
  end.
  apply Z2Nat.inj in Hc; try nia.
  assert (Y = Y') by nia. split; [nia|assumption].
Qed.

(** On doubles, a line between rounded end points below [2^50] in
    magnitude changes no cell outside the box spanned by its rounded end
    points: for every grid position [(X, Y)] outside that box, the cell
    [Y * WIDTH + X] of both buffers is after [drawLine] what it was
    before. *)
Theorem drawLine_changes_only_its_box (WIDTH HEIGHT : nat) (p1 p2 : Vec3 float)
    (ix0 iy0 ix1 iy1 : Z) char color (st : Buffers float) :
  to_int (Math_round (x p1)) = Some ix0 ->
  to_int (Math_round (y p1)) = Some iy0 ->
  to_int (Math_round (x p2)) = Some ix1 ->
  to_int (Math_round (y p2)) = Some iy1 ->
  Z.abs ix0 < 2 ^ 50 -> Z.abs iy0 < 2 ^ 50 ->
  Z.abs ix1 < 2 ^ 50 -> Z.abs iy1 < 2 ^ 50 ->
  Z.of_nat WIDTH < 2 ^ 53 -> Z.of_nat HEIGHT < 2 ^ 53 ->
  Z.of_nat (WIDTH * HEIGHT) < 2 ^ 53 ->
  List.length (frameBuffer st) = (WIDTH * HEIGHT)%nat ->
  List.length (zBuffer st) = (WIDTH * HEIGHT)%nat ->
  forall fuel, Z.abs (ix1 - ix0) + Z.abs (iy1 - iy0) < Z.of_nat fuel ->
  exists st',
    drawLine WIDTH HEIGHT fuel p1 p2 char color st = Some st' /\
    forall X Y, in_grid WIDTH HEIGHT X Y = true ->
      ~ (Z.min ix0 ix1 <= X <= Z.max ix0 ix1 /\
         Z.min iy0 iy1 <= Y <= Z.max iy0 iy1) ->
      nth_error (frameBuffer st') (cell WIDTH X Y)
      = nth_error (frameBuffer st) (cell WIDTH X Y) /\
      nth_error (zBuffer st') (cell WIDTH X Y)
      = nth_error (zBuffer st) (cell WIDTH X Y).
Proof.
  intros X0 Y0 X1 Y1 B1 B2 B3 B4 HW HH HWH Lf Lz fuel Hfuel.
  destruct (line_walk_shape (2 ^ 50 - 1) grid_pos safe_grid p1 p2
              ix0 iy0 ix1 iy1 fuel) as (w & Hw & _ & Hbox & _);
    try assumption; try lia.
  set (l := fst (line_init p1 p2)) in *.
  pose proof (drawLine_loop_walk WIDTH HEIGHT fuel l
                char color (snd (line_init p1 p2)) st) as Hloop.
  rewrite Hw in Hloop. destruct Hloop as (st' & Hst' & _).
  exists st'. split.
  { unfold drawLine. subst l. destruct (line_init p1 p2). exact Hst'. }
  intros X Y Hin Hout.
  apply (drawLine_loop_other_cells WIDTH HEIGHT fuel l char color
           (cell WIDTH X Y) (snd (line_init p1 p2)) st st' w);
    [split; assumption|exact Hw|exact Hst'|].
  intros s Hs Hcell. apply In_nth_error in Hs. destruct Hs as [i Hs].
  destruct (Hbox i s Hs) as (Xs & Ys & Rx & Ry & Bx & By).
  assert (SX : safe Xs) by (unfold safe; lia).
  assert (SY : safe Ys) by (unfold safe; lia).
  rewrite (fragment_cell_exact WIDTH HEIGHT _ HW HH HWH) in Hcell.
  cbn [line_fragment fx fy to_int Math_round float_number] in Hcell.
  rewrite (round_of_int _ _ Rx SX), (round_of_int _ _ Ry SY) in Hcell.
  destruct (in_grid WIDTH HEIGHT Xs Ys) eqn:Hg; [|discriminate].
  injection Hcell as Hcell.
  destruct (cell_injective WIDTH HEIGHT _ _ _ _ Hg Hin Hcell) as [-> ->].
  apply Hout. split; assumption.
Qed.

End OutsideTheBox.

Lemma drawLine_changes_only_its_box_witness :
  exists st',
    drawLine 24 12 8 near_p1 near_p2 (Some "#"%char) white (fresh_buffers 24 12)
      = Some st' /\
    nth_error (zBuffer st') (cell 24 10 5)
    = nth_error (zBuffer (fresh_buffers 24 12 : Buffers float)) (cell 24 10 5).
Proof.
  destruct (drawLine_changes_only_its_box 24 12 near_p1 near_p2 0 0 4 3
              (Some "#"%char) white (fresh_buffers 24 12))
    with (fuel := 8%nat) as (st' & Hd & Hcells); try reflexivity.
  exists st'. split; [exact Hd|].
  apply (Hcells 10%Z 5%Z); [reflexivity|].
  intros [[_ H] _]. revert H. apply Z.lt_nge. reflexivity.
Defined.

Lemma drawPixel_idempotent_witness :
  zBuffer (drawPixel 24 12 3%float 4%float 0.5%float None white
             (drawPixel 24 12 3%float 4%float 0.5%float None white
                (fresh_buffers 24 12)))
  = zBuffer (drawPixel 24 12 3%float 4%float 0.5%float None white
               (fresh_buffers 24 12)).
Proof.
  exact (proj2 (drawPixel_idempotent 24 12 3%float 4%float 0.5%float None white
                  (fresh_buffers 24 12))).
Defined.

(** ** The glyph of an intensity, in exact arithmetic *)

Section GlyphOrder.
Local Open Scope R_scope.

Lemma glyph_at (ramp : string) (I : R) (i : Z) :
  to_int (Math_floor (I * (#(Z.of_nat (String.length ramp)) - #1))%num) = Some i ->
  (0 <= i < Z.of_nat (String.length ramp))%Z ->
  glyph ramp I = String.get (Z.to_nat i) ramp.
Proof.
  intros Hi Hr. unfold glyph, sget, element. rewrite Hi.
  destruct (Z.leb_spec 0 i); [|lia].
  destruct (Z.ltb_spec i (Z.of_nat (String.length ramp))); [|lia].
  reflexivity.
Qed.

(** In exact arithmetic a brighter face never gets an earlier glyph of the
    ramp: for a ramp that is not empty and intensities [0 <= I <= J <= 1],
    the two glyphs are the characters of the ramp at positions
    [i <= j], both within the ramp. *)
Theorem glyph_index_monotone (ASCII_RAMP : string) (I J : R) :
  ASCII_RAMP <> EmptyString -> 0 <= I -> I <= J -> J <= 1 ->
  exists i j : nat,
    (i <= j < String.length ASCII_RAMP)%nat /\
    glyph ASCII_RAMP I = String.get i ASCII_RAMP /\
    glyph ASCII_RAMP J = String.get j ASCII_RAMP.
Proof.
  intros Hne HI HIJ HJ.
  set (n := String.length ASCII_RAMP).
  assert (Hn : (1 <= n)%nat).
  { unfold n. destruct ASCII_RAMP; [contradiction|]. cbn [String.length]. lia. }
  set (m := IZR (Z.of_nat n) - 1).
  assert (Hm : 0 <= m).
  { unfold m. assert (1 <= IZR (Z.of_nat n)) by (apply IZR_le; lia). lra. }
  assert (Hidx : forall K, 0 <= K <= 1 ->
            to_int (Math_floor (K * (#(Z.of_nat n) - #1))%num)
            = Some (Zfloor (K * m)) /\
            (0 <= Zfloor (K * m) < Z.of_nat n)%Z).
  { intros K [HK0 HK1]. split.
    - cbv [to_int Math_floor mul sub num_of_Z real_number]. unfold Exact.floor.
      now apply to_Z_IZR.
    - split; [apply Zfloor_lub; simpl; nra|].
      assert (Zfloor (K * m) <= Z.of_nat n - 1)%Z; [|lia].
      apply le_IZR. rewrite minus_IZR. fold m.
      pose proof (Zfloor_bound (K * m)) as [Hb _]. nra. }
  destruct (Hidx I) as [HiI HrI]; [lra|].
  destruct (Hidx J) as [HiJ HrJ]; [lra|].
  exists (Z.to_nat (Zfloor (I * m))), (Z.to_nat (Zfloor (J * m))).
  assert (Hle : (Zfloor (I * m) <= Zfloor (J * m))%Z) by (apply Zfloor_le; nra).
  split; [fold n; lia|].
  split; apply glyph_at; assumption.
Qed.

End GlyphOrder.

Lemma glyph_index_monotone_witness :
  exists i j : nat,
    (i <= j < String.length default_ramp)%nat /\
    glyph default_ramp (1 / 4)%R = String.get i default_ramp /\
    glyph default_ramp (3 / 4)%R = String.get j default_ramp.
Proof.
  apply (glyph_index_monotone default_ramp (1 / 4)%R (3 / 4)%R); try lra.
  discriminate.
Defined.
